(** * graph-theory: the giac graph commands over the [graphe] engine

    A shallow embedding of the command layer [graphtheory.cc] and of the
    parts of the [graphe] class (declared in [graphe.h]) that the commands
    rely on, with the properties of the specification stated and settled
    against them. *)

From stdpp Require Import gmap list strings sorting.
From Stdlib Require Import ZArith Lia.

Local Open Scope Z_scope.
Local Set Warnings "-register-all".

(** ** giac values *)

Module Gen.

(** Subtypes of a giac vector that the commands distinguish. *)
Inductive vect_subtype := _LIST__VECT | _SEQ__VECT | _SET__VECT.

(** The options of [graph(...)] that are parsed ahead of the other
    arguments ([_GT_DIRECTED], [_GT_WEIGHTED] of dispatch.h). *)
Inductive gt_option := _GT_DIRECTED | _GT_WEIGHTED.

(** [gen], the universal value of giac, restricted to the shapes the
    graph commands inspect: machine and big integers ([is_integer]),
    identifiers (every other scalar atom), vectors with their subtype,
    [tag=value] options, [trail(...)] and [+infinity].  Booleans are the
    integers 0 and 1 ([FAUX], [VRAI]).  Floating-point numbers and error
    strings (subtype -1, see [value] below) are not values of this type. *)
Inductive gen :=
| gen_int (val : Z)
| gen_idnt (name : string)
| gen_vect (subtype : vect_subtype) (v : list gen)
| gen_equal (lh : gt_option) (rh : gen)
| gen_trail (v : list gen)
| gen_plusinf.

Definition vecteur := list gen.
Definition matrice := list gen.

Definition FAUX : gen := gen_int 0.
Definition VRAI : gen := gen_int 1.
Definition boole (b : bool) : gen := if b then VRAI else FAUX.
Definition plusinf : gen := gen_plusinf.

Definition is_integer (g : gen) : bool :=
  match g with gen_int _ => true | _ => false end.


Definition is_zero (g : gen) : bool :=
  match g with gen_int 0 => true | _ => false end.

Definition is_one (g : gen) : bool :=
  match g with gen_int 1 => true | _ => false end.

#[global] Instance vect_subtype_eq_dec : EqDecision vect_subtype.
Proof. solve_decision. Defined.

#[global] Instance gt_option_eq_dec : EqDecision gt_option.
Proof. solve_decision. Defined.

(** Structural equality of values ([operator ==] on [gen]). *)
Fixpoint gen_eqb (a b : gen) {struct a} : bool :=
  let fix list_eqb (l1 l2 : list gen) {struct l1} : bool :=
    match l1, l2 with
    | [], [] => true
    | x :: l1', y :: l2' => gen_eqb x y && list_eqb l1' l2'
    | _, _ => false
    end in
  match a, b with
  | gen_int x, gen_int y => bool_decide (x = y)
  | gen_idnt x, gen_idnt y => bool_decide (x = y)
  | gen_vect s1 l1, gen_vect s2 l2 => bool_decide (s1 = s2) && list_eqb l1 l2
  | gen_equal k1 r1, gen_equal k2 r2 => bool_decide (k1 = k2) && gen_eqb r1 r2
  | gen_trail l1, gen_trail l2 => list_eqb l1 l2
  | gen_plusinf, gen_plusinf => true
  | _, _ => false
  end.

Fixpoint vecteur_eqb (l1 l2 : vecteur) : bool :=
  match l1, l2 with
  | [], [] => true
  | x :: l1', y :: l2' => gen_eqb x y && vecteur_eqb l1' l2'
  | _, _ => false
  end.

(** giac errors are strings of subtype -1; every command returns an
    argument of that kind unchanged.  [gt_err code] displays
    [gt_error_messages[code]] and returns [gentypeerr]; the code is kept
    so that the named condition can be told apart. *)
Inductive gt_error_code :=
| _GT_ERR_UNKNOWN                          (*  0 *)
| _GT_ERR_NOT_A_GRAPH                      (*  1 *)
| _GT_ERR_WEIGHTED_GRAPH_REQUIRED          (*  2 *)
| _GT_ERR_UNWEIGHTED_GRAPH_REQUIRED        (*  3 *)
| _GT_ERR_DIRECTED_GRAPH_REQUIRED          (*  4 *)
| _GT_ERR_UNDIRECTED_GRAPH_REQUIRED        (*  5 *)
| _GT_ERR_INVALID_EDGE                     (*  6 *)
| _GT_ERR_INVALID_EDGE_ARC_MIX             (*  7 *)
| _GT_ERR_MATRIX_NOT_SYMMETRIC             (*  8 *)
| _GT_ERR_READING_FAILED                   (*  9 *)
| _GT_ERR_EDGE_NOT_FOUND                   (* 10 *)
| _GT_ERR_VERTEX_NOT_FOUND                 (* 11 *)
| _GT_ERR_NOT_A_TREE                       (* 12 *)
| _GT_ERR_INVALID_NUMBER_OF_ROOTS          (* 13 *)
| _GT_ERR_INVALID_ROOT                     (* 14 *)
| _GT_ERR_NOT_PLANAR                       (* 15 *)
| _GT_ERR_CONNECTED_GRAPH_REQUIRED         (* 16 *)
| _GT_ERR_INVALID_DRAWING_METHOD           (* 17 *)
| _GT_ERR_NOT_A_CYCLE                      (* 18 *)
| _GT_ERR_CYCLE_NOT_FOUND                  (* 19 *)
| _GT_ERR_NAME_NOT_RECOGNIZED              (* 20 *)
| _GT_ERR_NOT_A_SUBGRAPH                   (* 21 *)
| _GT_ERR_GRAPH_IS_EMPTY                   (* 22 *)
| _GT_ERR_TAGVALUE_PAIR_EXPECTED           (* 23 *)
| _GT_ERR_NOT_A_GRAPHIC_SEQUENCE           (* 24 *)
| _GT_ERR_NOT_ACYCLIC.                     (* 25 *)

Definition gt_error_messages (code : gt_error_code) : string :=
  match code with
  | _GT_ERR_UNKNOWN => "unknown error"
  | _GT_ERR_NOT_A_GRAPH => "argument is not a graph"
  | _GT_ERR_WEIGHTED_GRAPH_REQUIRED => "a weighted graph is required"
  | _GT_ERR_UNWEIGHTED_GRAPH_REQUIRED => "an unweighted graph is required"
  | _GT_ERR_DIRECTED_GRAPH_REQUIRED => "a directed graph is required"
  | _GT_ERR_UNDIRECTED_GRAPH_REQUIRED => "an undirected graph is required"
  | _GT_ERR_INVALID_EDGE => "does not specify an edge"
  | _GT_ERR_INVALID_EDGE_ARC_MIX => "mixing edges and arcs is not allowed"
  | _GT_ERR_MATRIX_NOT_SYMMETRIC =>
      "weight/adjacency matrix must be symmetric for undirected graphs"
  | _GT_ERR_READING_FAILED => "failed to read graph from file"
  | _GT_ERR_EDGE_NOT_FOUND => "edge not found"
  | _GT_ERR_VERTEX_NOT_FOUND => "vertex not found"
  | _GT_ERR_NOT_A_TREE => "graph is not a tree"
  | _GT_ERR_INVALID_NUMBER_OF_ROOTS =>
      "exactly one root node must be specified per connected component"
  | _GT_ERR_INVALID_ROOT => "invalid root node specification"
  | _GT_ERR_NOT_PLANAR => "graph is not planar"
  | _GT_ERR_CONNECTED_GRAPH_REQUIRED => "a connected graph is required"
  | _GT_ERR_INVALID_DRAWING_METHOD => "drawing method specification is invalid"
  | _GT_ERR_NOT_A_CYCLE => "does not specify a cycle in the given graph"
  | _GT_ERR_CYCLE_NOT_FOUND => "no cycle found"
  | _GT_ERR_NAME_NOT_RECOGNIZED => "graph name not recognized"
  | _GT_ERR_NOT_A_SUBGRAPH => "argument is not a subgraph"
  | _GT_ERR_GRAPH_IS_EMPTY => "graph is empty"
  | _GT_ERR_TAGVALUE_PAIR_EXPECTED => "a 'tag'=value pair expected"
  | _GT_ERR_NOT_A_GRAPHIC_SEQUENCE =>
      "the given list is not a valid graphic sequence"
  | _GT_ERR_NOT_ACYCLIC => "graph is not acyclic"
  end.

Inductive giac_error :=
| gentypeerr
| gensizeerr
| gendimerr
| gt_err (code : gt_error_code).

End Gen.

(** ** The graph model ([graphe.h]) *)

Module Graphe.
Import Gen.

(** [enum gt_attribute]: the keys of the attribute maps. *)
Definition _GT_ATTRIB_WEIGHT : Z := 0.
Definition _GT_ATTRIB_COLOR : Z := 1.
Definition _GT_ATTRIB_DIRECTED : Z := 2.
Definition _GT_ATTRIB_WEIGHTED : Z := 3.
Definition _GT_ATTRIB_POSITION : Z := 4.
Definition _GT_ATTRIB_USER : Z := 5.

(** [typedef std::map<int,gen> attrib]. *)
Abbreviation attrib := (gmap Z gen).

(** [class graphe::vertex].  The label, the vertex attributes and the
    map from neighbour index to edge attributes are kept; the list
    [m_neighbors] is the key set of that map, and the traversal and
    tree-drawing scratch fields are workspace of the algorithms, which
    thread it explicitly below. *)
Record vertex := {
  m_label : gen;
  m_attributes : attrib;
  m_neighbor_attributes : gmap nat attrib
}.

(** [class graphe]: the vertex array, the graph attributes and the name. *)
Record graphe := {
  nodes : list vertex;
  attributes : attrib;
  graph_name : string
}.

(** The constructor of [graphe]: the empty graph. *)
Definition new_graphe : graphe :=
  {| nodes := []; attributes := ∅; graph_name := "" |}.

Definition with_nodes (G : graphe) (ns : list vertex) : graphe :=
  {| nodes := ns; attributes := attributes G; graph_name := graph_name G |}.

Definition node_count (G : graphe) : nat := length (nodes G).
Definition is_empty (G : graphe) : bool := bool_decide (nodes G = []).

Definition vertices (G : graphe) : vecteur := m_label <$> nodes G.

Definition node_label (G : graphe) (i : nat) : gen :=
  default (gen_int 0) (m_label <$> nodes G !! i).

(** [set_graph_attribute(key,val) { attributes[key]=val; }] *)
Definition set_graph_attribute (G : graphe) (key : Z) (val : gen) : graphe :=
  {| nodes := nodes G; attributes := <[key:=val]> (attributes G);
     graph_name := graph_name G |}.

(** [set_directed(yes) { set_graph_attribute(_GT_ATTRIB_DIRECTED,boole(yes)); }] *)
Definition set_directed (G : graphe) (yes : bool) : graphe :=
  set_graph_attribute G _GT_ATTRIB_DIRECTED (boole yes).

(** Modelled from the spec: [graphe::set_weighted] is not in the sources
    at hand; "the directed flag and weighted flag are graph-wide booleans
    stored as attributes", so it mirrors [set_directed]. *)
Definition set_weighted (G : graphe) (yes : bool) : graphe :=
  set_graph_attribute G _GT_ATTRIB_WEIGHTED (boole yes).

(** Modelled from the spec: the body of [graphe::is_directed] is missing;
    the flag is the graph attribute written by [set_directed], false when
    it was never set. *)
Definition is_directed (G : graphe) : bool :=
  match attributes G !! _GT_ATTRIB_DIRECTED with
  | Some g => gen_eqb g VRAI
  | None => false
  end.

(** Modelled from the spec: the body of [graphe::is_weighted] is missing;
    as for [is_directed]. *)
Definition is_weighted (G : graphe) : bool :=
  match attributes G !! _GT_ATTRIB_WEIGHTED with
  | Some g => gen_eqb g VRAI
  | None => false
  end.

(** Modelled from the spec: the body of [graphe::node_index] is missing;
    "label lookup for a missing label returns a sentinel not found, never
    throws".  [None] stands for the sentinel -1. *)
Fixpoint index_of_label (ns : list vertex) (v : gen) (i : nat) : option nat :=
  match ns with
  | [] => None
  | x :: ns' => if gen_eqb (m_label x) v then Some i
                else index_of_label ns' v (S i)
  end.

Definition node_index (G : graphe) (v : gen) : option nat :=
  index_of_label (nodes G) v 0.

(** Modelled from the spec: the body of [graphe::add_node] is missing;
    vertices are addressed by label, so a label already present keeps its
    index and a new one is appended at index [node_count]. *)
Definition add_node (G : graphe) (v : gen) : graphe * nat :=
  match node_index G v with
  | Some i => (G, i)
  | None =>
      (with_nodes G (nodes G ++ [{| m_label := v; m_attributes := ∅;
                                    m_neighbor_attributes := ∅ |}]),
       node_count G)
  end.

Definition add_nodes (G : graphe) (V : vecteur) : graphe :=
  fold_left (fun G v => fst (add_node G v)) V G.

(** Adjacency queries: an edge is a neighbour entry. *)
Definition neighbor_map (G : graphe) (i : nat) : gmap nat attrib :=
  default ∅ (m_neighbor_attributes <$> nodes G !! i).

Definition has_edge (G : graphe) (i j : nat) : bool :=
  bool_decide (is_Some (neighbor_map G i !! j)).

Definition adjacent_nodes (G : graphe) (i : nat) : list nat :=
  elements (dom (neighbor_map G i)).

(** [vertex::add_neighbor(i,attr)] on vertex [k] of the array. *)
Definition add_neighbor (ns : list vertex) (k i : nat) (attr : attrib)
  : list vertex :=
  match ns !! k with
  | Some x =>
      <[k := {| m_label := m_label x; m_attributes := m_attributes x;
                m_neighbor_attributes :=
                  <[i := attr]> (m_neighbor_attributes x) |}]> ns
  | None => ns
  end.

(** Modelled from the spec: the body of [graphe::add_edge(int,int,gen)] is
    missing; "add edge (directed: one adjacency entry; undirected: two,
    symmetric)", the entry carrying "at minimum a weight, default 1".  An
    edge that is already present is left as it is (the callers that want
    to change a weight use [set_edge_attribute] first), and indices out of
    range, which callers must have validated, change nothing. *)
Definition add_edge (G : graphe) (i j : nat) (w : gen) : graphe :=
  if has_edge G i j then G
  else if bool_decide (i < node_count G ∧ j < node_count G)%nat then
    let attr : attrib := {[ _GT_ATTRIB_WEIGHT := w ]} in
    let ns := add_neighbor (nodes G) i j attr in
    with_nodes G (if is_directed G then ns else add_neighbor ns j i attr)
  else G.

(** [add_edge(const gen &v,const gen &w,const gen &weight)]: the end
    points are given by label and created when missing. *)
Definition add_edge_labels (G : graphe) (v w : gen) (weight : gen) : graphe :=
  let '(G1, i) := add_node G v in
  let '(G2, j) := add_node G1 w in
  add_edge G2 i j weight.

(** Modelled from the spec: the body of [graphe::weight] is missing; the
    weight attribute of the neighbour entry, 1 when there is none. *)
Definition weight (G : graphe) (i j : nat) : gen :=
  match neighbor_map G i !! j with
  | Some attr => default (gen_int 1) (attr !! _GT_ATTRIB_WEIGHT)
  | None => gen_int 0
  end.

(** Modelled from the spec: the body of [graphe::edge_count] is missing;
    every arc of a directed graph is one neighbour entry, every edge of an
    undirected graph is stored as two symmetric entries and counted once
    (so that a tree has [node_count-1] edges, as [is_tree] expects). *)
Definition edge_count (G : graphe) : nat :=
  let n := node_count G in
  length (filter (fun '(i, j) => (is_directed G = true ∨ i ≤ j)%nat)
            (i ← seq 0 n; (fun j => (i, j)) <$> adjacent_nodes G i)).

(** Entry [m[i][j]] of a matrix given as a vector of rows. *)
Definition row_of (g : gen) : vecteur :=
  match g with gen_vect _ r => r | _ => [] end.

Definition mat_entry (m : matrice) (i j : nat) : gen :=
  default (gen_int 0) (row_of (default (gen_int 0) (m !! i)) !! j).

(** Modelled from the spec: the body of [graphe::make_weighted] is
    missing; the graph becomes weighted and every stored neighbour entry
    (i,j) takes the weight [m[i][j]]. *)
Definition set_weights_from (m : matrice) (i : nat) (x : vertex) : vertex :=
  {| m_label := m_label x; m_attributes := m_attributes x;
     m_neighbor_attributes :=
       map_imap (fun j attr => Some (<[_GT_ATTRIB_WEIGHT := mat_entry m i j]> attr))
                (m_neighbor_attributes x) |}.

Definition make_weighted (G : graphe) (m : matrice) : graphe :=
  set_weighted (with_nodes G (imap (set_weights_from m) (nodes G))) true.

End Graphe.

(** ** Traversal and connectivity *)

Module Connectivity.
Import Gen Graphe.










(** Modelled from the spec: [graphe::depth_first_search]; "DFS from a given
    root visits reachable vertices exactly once, populating discovery
    order".  The result is [discovered_nodes]. *)
Fixpoint depth_first_search_from (fuel : nat) (G : graphe) (i : nat)
    (discovered_nodes : list nat) : list nat :=
  match fuel with
  | O => discovered_nodes
  | S fuel' =>
      fold_left
        (fun discovered_nodes j =>
           if bool_decide (j ∈ discovered_nodes) then discovered_nodes
           else depth_first_search_from fuel' G j discovered_nodes)
        (adjacent_nodes G i) (discovered_nodes ++ [i])
  end.

Definition depth_first_search (G : graphe) (root : nat) : list nat :=
  depth_first_search_from (node_count G) G root [].

(** Modelled from the spec: [graphe::is_connected]; connectedness is "a
    boolean derivation" of the traversal: the search from the first
    vertex discovers every vertex. *)
Definition is_connected (G : graphe) : bool :=
  bool_decide (length (depth_first_search G 0) = node_count G).


(** [bool is_tree() { return !is_directed() && is_connected() &&
    edge_count()==node_count()-1; }] with [int] arithmetic. *)
Definition is_tree (G : graphe) : bool :=
  negb (is_directed G) && is_connected G
  && bool_decide (Z.of_nat (edge_count G) = Z.of_nat (node_count G) - 1).

End Connectivity.

(** ** Cycles and girth *)

Module Girth.
Import Gen Graphe.

(** All sequences of [k] vertex indices of a graph with [n] vertices. *)
Fixpoint vertex_sequences (n k : nat) : list (list nat) :=
  match k with
  | O => [[]]
  | S k' => v ← seq 0 n; (fun c => v :: c) <$> vertex_sequences n k'
  end.

(** Consecutive vertices of [c] are adjacent. *)
Fixpoint is_walk (G : graphe) (c : list nat) : bool :=
  match c with
  | a :: (b :: _) as c' => has_edge G a b && is_walk G c'
  | _ => true
  end.

(** [c] lists the vertices of a cycle: at least three distinct vertices,
    each adjacent to the next and the last to the first. *)
Definition is_cycle (G : graphe) (c : list nat) : bool :=
  match c with
  | [] => false
  | a :: _ =>
      bool_decide (3 ≤ length c)%nat && bool_decide (NoDup c)
      && is_walk G c && has_edge G (List.last c a) a
  end.

Definition has_cycle_of_length (G : graphe) (k : nat) : bool :=
  existsb (is_cycle G) (vertex_sequences (node_count G) k).

(** Modelled from the spec: [graphe::girth(odd)] is missing; by the usage
    text of the commands it is "the length of the shortest cycle" (of the
    shortest odd cycle when [odd] is set), and a negative value, which the
    commands test for, when there is none. *)
Definition girth (G : graphe) (odd : bool) : Z :=
  match List.find (fun k => (negb odd || Nat.odd k) && has_cycle_of_length G k)
                  (seq 3 (node_count G - 2)) with
  | Some k => Z.of_nat k
  | None => -1
  end.

End Girth.

(** ** Graph transformations and comparison *)

Module Transform.
Import Gen Graphe.

Definition strip_vertex (x : vertex) : vertex :=
  {| m_label := m_label x; m_attributes := m_attributes x;
     m_neighbor_attributes := ∅ |}.

(** The vertices of [G] without their neighbour entries, in a new graph
    with the given direction flag. *)
Definition same_vertices (G : graphe) (directed : bool) : graphe :=
  set_directed {| nodes := strip_vertex <$> nodes G; attributes := ∅;
                  graph_name := "" |} directed.

(** Modelled from the spec: [graphe::underlying] is declared in [graphe.h]
    and its body is missing; by the usage text of [underlying_graph] the
    result is "the graph obtained by stripping directions and weights from
    arcs (pairs of arcs connecting the same vertices are merged to a
    single edge)". *)
Definition underlying (G : graphe) : graphe :=
  fold_left
    (fun U i => fold_left (fun U j => add_edge U i j (gen_int 1))
                          (adjacent_nodes G i) U)
    (seq 0 (node_count G)) (same_vertices G false).

(** Modelled from the spec: [graphe::complement] is missing; by the usage
    text of [graph_complement] the result is "the graph with the same
    vertex set as G, but whose edge (arc) set consists of the edges (arcs)
    not present in G". *)
Definition complement (G : graphe) : graphe :=
  let n := node_count G in
  fold_left
    (fun C i => fold_left
                  (fun C j => if bool_decide (i ≠ j) && negb (has_edge G i j)
                              then add_edge C i j (gen_int 1) else C)
                  (seq 0 n) C)
    (seq 0 n) (same_vertices G (is_directed G)).

(** Modelled from the spec: [graphe::is_equal] is missing; by the usage
    text of [graph_equal] two graphs are equal "when the sets of vertices
    and edges of G1 and G2, as well as the orderings of vertices in both
    graphs, mutually coincide.  If the graphs are weighted (they must both
    be (un)weighted and (un)directed), weights given to the same edge in
    two graphs must be equal". *)
Definition is_equal (G1 G2 : graphe) : bool :=
  let n := node_count G1 in
  bool_decide (is_directed G1 = is_directed G2)
  && bool_decide (is_weighted G1 = is_weighted G2)
  && vecteur_eqb (vertices G1) (vertices G2)
  && forallb
       (fun i => forallb
                   (fun j => bool_decide (has_edge G1 i j = has_edge G2 i j)
                             && (negb (is_weighted G1)
                                 || gen_eqb (weight G1 i j) (weight G2 i j)))
                   (seq 0 n))
       (seq 0 n).

End Transform.

(** ** Shortest paths *)

Module ShortestPath.
Import Gen Graphe.

(** The weight of an edge as a number (weights are exact integers in this
    embedding). *)
Definition weight_val (G : graphe) (i j : nat) : Z :=
  match weight G i j with gen_int w => w | _ => 0 end.








End ShortestPath.

(** ** Matching *)

Module Matching.
Import Gen Graphe Girth.

Abbreviation ipair := (nat * nat)%type.
Abbreviation ipairs := (list (nat * nat)).

(** [ipair make_edge(int i,int j) { return std::make_pair(i<j?i:j,i<j?j:i); }] *)
Definition make_edge (i j : nat) : ipair :=
  (if bool_decide (i < j)%nat then i else j,
   if bool_decide (i < j)%nat then j else i).

(** Modelled from the spec: [matching_maximizer::mate] is declared in
    [graphe.h] and its body is missing; the vertex matched with [v], or
    the sentinel ([None]) when [v] is exposed. *)
Fixpoint mate (matching : ipairs) (v : nat) : option nat :=
  match matching with
  | [] => None
  | (a, b) :: matching' =>
      if bool_decide (a = v) then Some b
      else if bool_decide (b = v) then Some a
      else mate matching' v
  end.

(** An alternating walk: the edges at even positions are edges of the
    graph, those at odd positions are matched. *)
Fixpoint alternates (G : graphe) (matching : ipairs) (path : list nat)
    (free : bool) : bool :=
  match path with
  | a :: (b :: _) as path' =>
      (if free then has_edge G a b else bool_decide (mate matching a = Some b))
      && alternates G matching path' (negb free)
  | _ => true
  end.

(** An augmenting path: a simple alternating path between two exposed
    vertices. *)
Definition is_augmenting_path (G : graphe) (matching : ipairs)
    (path : list nat) : bool :=
  match path with
  | [] => false
  | a :: _ =>
      bool_decide (NoDup path) && Nat.even (length path)
      && bool_decide (mate matching a = None)
      && bool_decide (mate matching (List.last path a) = None)
      && alternates G matching path true
  end.

(** Modelled from the spec: [matching_maximizer::find_augmenting_path] is
    declared in [graphe.h] and its body is missing.  The spec has it
    "search for an augmenting path" and stop "when no augmenting path
    exists"; the alternating forest and the contraction of blossoms are
    the means by which the search stays polynomial.  What is found is
    modelled: an augmenting path if there is one, looked for among the
    vertex sequences by increasing length. *)
Definition find_augmenting_path (G : graphe) (matching : ipairs)
  : option (list nat) :=
  List.find (is_augmenting_path G matching)
            (k ← seq 2 (node_count G - 1); vertex_sequences (node_count G) k).

(** "When an augmenting path is found, it is used to enlarge the matching
    by one edge": along the path the edges are in turn added to and
    removed from the matching. *)
Fixpoint augment (matching : ipairs) (path : list nat) (alt : bool) : ipairs :=
  match path with
  | a :: (b :: _) as path' =>
      augment (if alt then make_edge a b :: matching
               else filter (fun e => e ≠ make_edge a b) matching)
              path' (negb alt)
  | _ => matching
  end.

(** Modelled from the spec: [matching_maximizer::find_maximum_matching];
    "start from a valid (possibly empty) matching, repeatedly search for
    an augmenting path ... Terminates when no augmenting path exists". *)
Fixpoint find_maximum_matching (fuel : nat) (G : graphe) (matching : ipairs)
  : ipairs :=
  match fuel with
  | O => matching
  | S fuel' =>
      match find_augmenting_path G matching with
      | Some path => find_maximum_matching fuel' G (augment matching path true)
      | None => matching
      end
  end.

(** Modelled from the spec: [graphe::maximize_matching]; every round adds
    one edge, and a matching has at most [node_count/2] edges. *)
Definition maximize_matching (G : graphe) (matching : ipairs) : ipairs :=
  find_maximum_matching (S (node_count G / 2)) G matching.

End Matching.

(** ** The commands ([graphtheory.cc]) *)

Module Commands.
Import Gen Graphe.

(** What a command receives and returns: a plain [gen], a graph (the
    [gen] written by [graphe::to_gen] and read back by [graphe::read_gen])
    or an error string. *)
Inductive value :=
| of_gen (g : gen)
| of_graphe (G : graphe)
| error (e : giac_error).

(** The part of the evaluation context the commands read:
    [array_start(contextptr)], the index of the first element of a list. *)
Record context := { one_based : bool }.

Definition array_start (contextptr : context) : Z :=
  if one_based contextptr then 1 else 0.

(** Modelled from the spec: [graphe::make_default_labels] is missing; the
    default labels of [n] vertices are the consecutive integers from
    [array_start] on. *)
Definition make_default_labels (contextptr : context) (n : nat) : vecteur :=
  (fun k => gen_int (array_start contextptr + Z.of_nat k)) <$> seq 0 n.

(** giac's [ckmatrix]: a non-empty vector of non-empty rows of one length. *)
Definition ckmatrix_rows (m : list gen) : bool :=
  match m with
  | gen_vect _ r :: _ =>
      negb (bool_decide (r = [])) &&
      forallb (fun x => match x with
                        | gen_vect _ r' => bool_decide (length r' = length r)
                        | _ => false
                        end) m
  | _ => false
  end.

Definition ckmatrix (g : gen) : bool :=
  match g with gen_vect _ m => ckmatrix_rows m | _ => false end.

Definition is_squarematrix (g : gen) : bool :=
  match g with
  | gen_vect _ m =>
      ckmatrix_rows m &&
      bool_decide (length m = length (row_of (default (gen_int 0) (head m))))
  | _ => false
  end.

(** giac's [mtran]: the transpose. *)
Definition mtran (m : matrice) : matrice :=
  let cols := length (row_of (default (gen_int 0) (head m))) in
  (fun j => gen_vect _LIST__VECT ((fun i => mat_entry m i j) <$> seq 0 (length m)))
    <$> seq 0 cols.

(** giac's [has_num_coeff(_evalf(m))]: every entry is a number. *)
Definition has_num_coeff (m : matrice) : bool :=
  forallb (fun r => forallb is_integer (row_of r)) m.

(** giac's [_is_permu]: the list is a permutation of the indices counted
    from [array_start]. *)
Definition is_permu (contextptr : context) (p : vecteur) : bool :=
  let n := Z.of_nat (length p) in
  forallb (fun x => match x with
                    | gen_int z =>
                        let pj := z - array_start contextptr in
                        bool_decide (0 <= pj < n)
                    | _ => false
                    end) p &&
  bool_decide (NoDup (omap (fun x => match x with
                                     | gen_int z => Some z
                                     | _ => None
                                     end) p)).

(** [parse_matrix(G,m,is_weight_matrix,mode,size_error)]: the graph after
    the call, the flag [size_error] and the returned boolean. *)
Definition parse_matrix (contextptr : context) (G : graphe) (m : matrice)
    (is_weight_matrix : bool) (mode : nat) : graphe * bool * bool :=
  let n := length m in
  if bool_decide (length (row_of (default (gen_int 0) (head m))) ≠ n)
     || (bool_decide (0 < mode)%nat && bool_decide (node_count G ≠ n))
  then (G, true, false)
  else if negb (has_num_coeff m) then (G, false, false)
  else
    let isdir := is_directed G || negb (vecteur_eqb m (mtran m)) in
    let G :=
      if bool_decide (mode = 0%nat)
      then add_nodes G (make_default_labels contextptr n)
      else G in
    let '(G, isweighted) :=
      if bool_decide (mode < 2)%nat then
        fold_left
          (fun '(G, isweighted) i =>
             fold_left
               (fun '(G, isweighted) j =>
                  let w := mat_entry m i j in
                  if negb (is_zero w)
                  then (add_edge G i j (gen_int 1),
                        if negb (is_one w) then true else isweighted)
                  else (G, isweighted))
               (seq (if isdir then 0 else i + 1)%nat
                    (n - (if isdir then 0 else i + 1))%nat)
               (G, isweighted))
          (seq 0 n)
          (set_directed G isdir, is_weight_matrix)
      else (G, is_weight_matrix) in
    (if isweighted then make_weighted G m else G, false, true).

(** [parse_edge_with_weight(G,E)] *)
Definition parse_edge_with_weight (G : graphe) (E : vecteur) : graphe * bool :=
  match E with
  | [gen_vect _ e; w] =>
      match e with
      | [a; b] =>
          let G := if negb (is_weighted G) then set_weighted G true else G in
          (add_edge_labels G a b w, true)
      | _ => (G, false)
      end
  | _ => (G, false)
  end.

(** The loop of [parse_edges] over a set of edges. *)
Fixpoint parse_edge_set (G : graphe) (E : vecteur) : graphe * bool :=
  match E with
  | [] => (G, true)
  | it :: E' =>
      match it with
      | gen_vect _ [a; b] =>
          match a with
          | gen_vect _ _ =>
              let '(G, ok) := parse_edge_with_weight G [a; b] in
              if ok then parse_edge_set G E' else (G, false)
          | _ => parse_edge_set (add_edge_labels G a b (gen_int 1)) E'
          end
      | _ => (G, false)
      end
  end.

(** The chain [G.add_edge(E[i],E[i+1])] for [i] from 0 to [n-2]. *)
Fixpoint add_edge_chain (G : graphe) (E : vecteur) : graphe :=
  match E with
  | a :: (b :: _) as E' => add_edge_chain (add_edge_labels G a b (gen_int 1)) E'
  | _ => G
  end.

(** [parse_edges(G,E,is_set)] *)
Definition parse_edges (G : graphe) (E : vecteur) (is_set : bool)
  : graphe * bool :=
  if is_set then parse_edge_set G E
  else if bool_decide (length E < 2)%nat then (G, false)
  else match E with
       | gen_vect _ _ :: _ => parse_edge_with_weight G E
       | _ => (add_edge_chain G E, true)
       end.

(** [parse_trail(G,g)] *)
Definition parse_trail (G : graphe) (trail : vecteur) : graphe :=
  add_edge_chain G trail.

(** The [while] loop of [_graph] that reads the trailing options, from the
    last argument backwards; [n] is the index of the last argument that is
    not such an option (an argument sequence made of options only, where
    the source indexes [args[-1]], ends the loop here). *)
Fixpoint parse_graph_options (G : graphe) (weighted : bool) (rargs : vecteur)
    (n : Z) : (graphe * bool * Z) + giac_error :=
  match rargs with
  | gen_equal lh rh :: rest =>
      match rh with
      | gen_int v =>
          match lh with
          | _GT_DIRECTED =>
              parse_graph_options (set_directed G (negb (bool_decide (v = 0))))
                                  weighted rest (n - 1)
          | _GT_WEIGHTED =>
              parse_graph_options G (negb (bool_decide (v = 0))) rest (n - 1)
          end
      | _ => inr gentypeerr
      end
  | _ => inl (G, weighted, n)
  end.

(** The directed cycle given by a permutation: [G.add_edge(it->val-offset,
    (it+1)->val-offset)] along the list. *)
Fixpoint add_permutation_cycle (contextptr : context) (G : graphe)
    (argv : vecteur) : graphe :=
  match argv with
  | gen_int a :: (gen_int b :: _) as argv' =>
      add_permutation_cycle contextptr
        (add_edge G (Z.to_nat (a - array_start contextptr))
                    (Z.to_nat (b - array_start contextptr)) (gen_int 1))
        argv'
  | _ => G
  end.

(** One round of the [for] loop of [_graph] over the arguments of a
    sequence: argument [arg] at position [i]. *)
Definition graph_argument (contextptr : context) (n : Z) (weighted : bool)
    (G : graphe) (i : nat) (arg : gen) : graphe + giac_error :=
  match arg with
  | gen_vect subtype argv =>
      if bool_decide (Z.of_nat i <= n) && ckmatrix arg
         && negb (bool_decide (subtype = _SET__VECT))
      then
        (* adjacency or weight matrix *)
        if negb (is_directed G) && negb (vecteur_eqb argv (mtran argv))
        then inr (gt_err _GT_ERR_MATRIX_NOT_SYMMETRIC)
        else
          let '(G, size_err, ok) :=
            parse_matrix contextptr G argv
                         (bool_decide (i = 2%nat) || weighted) i in
          if ok then inl G
          else inr (if size_err then gendimerr else gentypeerr)
      else if bool_decide (i < 2)%nat then
        if bool_decide (subtype = _SET__VECT) then
          (* set of edges *)
          let '(G, ok) := parse_edges G argv true in
          if ok then inl G else inr gentypeerr
        else if bool_decide (i = 1%nat) && is_permu contextptr argv
                && bool_decide (0 < length argv)%nat then
          if bool_decide (length argv ≠ node_count G) then inr gensizeerr
          else
            (* directed cycle *)
            inl (add_permutation_cycle contextptr (set_directed G true) argv)
        else if bool_decide (i = 0%nat) then
          (* list of vertices *)
          inl (add_nodes G argv)
        else inr gentypeerr
      else inr gentypeerr
  | gen_int nv =>
      if bool_decide (i = 0%nat) then
        if bool_decide (nv < 0) then inr gensizeerr
        else inl (add_nodes G (make_default_labels contextptr (Z.to_nat nv)))
      else inr gentypeerr
  | gen_trail trail => inl (parse_trail G trail)
  | gen_equal _ _ =>
      (* option: the tags modelled here carry no vertex data *)
      if bool_decide (n < Z.of_nat i) then inl G else inr gentypeerr
  | _ => inr gentypeerr
  end.

Fixpoint graph_arguments (contextptr : context) (n : Z) (weighted : bool)
    (G : graphe) (i : nat) (args : vecteur) : graphe + giac_error :=
  match args with
  | [] => inl G
  | arg :: args' =>
      match graph_argument contextptr n weighted G i arg with
      | inl G => graph_arguments contextptr n weighted G (S i) args'
      | inr e => inr e
      end
  end.

(** [_graph(g,contextptr)].  The call by name ([graph("petersen")]) looks
    the graph up in a catalogue and takes no other argument; names are not
    values of [gen] here. *)
Definition _graph (contextptr : context) (g : gen) : value :=
  let G := new_graphe in
  match g with
  | gen_int val =>
      if bool_decide (0 <= val)
      then of_graphe (add_nodes G (make_default_labels contextptr (Z.to_nat val)))
      else error gentypeerr
  | gen_vect subtype v =>
      if is_squarematrix g && bool_decide (2 < length v)%nat then
        (* adjacency matrix is given *)
        let '(G, size_err, ok) := parse_matrix contextptr G v false 0 in
        if ok then of_graphe G
        else error (if size_err then gendimerr else gentypeerr)
      else if negb (bool_decide (subtype = _SEQ__VECT)) then
        (* list of vertices or set of edges is given *)
        if bool_decide (subtype = _SET__VECT) then
          let '(G, ok) := parse_edges G v true in
          if ok then of_graphe G else error gentypeerr
        else of_graphe (add_nodes G v)
      else
        (* parse options first *)
        match parse_graph_options G false (rev v) (Z.of_nat (length v) - 1) with
        | inr e => error e
        | inl (G, weighted, n) =>
            (* parse other arguments *)
            match graph_arguments contextptr n weighted G 0 v with
            | inl G => of_graphe G
            | inr e => error e
            end
        end
  | gen_trail trail => of_graphe (parse_trail G trail)
  | _ => error gentypeerr
  end.

(** [_digraph(g,contextptr)] *)
Definition _digraph (contextptr : context) (g : gen) : value :=
  let args :=
    match g with
    | gen_vect _SEQ__VECT v => v
    | _ => [g]
    end in
  _graph contextptr
    (gen_vect _SEQ__VECT (args ++ [gen_equal _GT_DIRECTED VRAI])).

(** [_number_of_edges(g,contextptr)] *)
Definition _number_of_edges (g : value) : value :=
  match g with
  | error _ => g
  | of_graphe G => of_gen (gen_int (Z.of_nat (edge_count G)))
  | of_gen _ => error (gt_err _GT_ERR_NOT_A_GRAPH)
  end.

(** [_is_directed(g,contextptr)] *)
Definition _is_directed (g : value) : value :=
  match g with
  | error _ => g
  | of_graphe G => of_gen (boole (is_directed G))
  | of_gen _ => error (gt_err _GT_ERR_NOT_A_GRAPH)
  end.



(** [_underlying_graph(g,contextptr)] *)
Definition _underlying_graph (g : value) : value :=
  match g with
  | error _ => g
  | of_graphe G => of_graphe (Transform.underlying G)
  | of_gen _ => error (gt_err _GT_ERR_NOT_A_GRAPH)
  end.

(** [_graph_complement(g,contextptr)] *)
Definition _graph_complement (g : value) : value :=
  match g with
  | error _ => g
  | of_graphe G => of_graphe (Transform.complement G)
  | of_gen _ => error (gt_err _GT_ERR_NOT_A_GRAPH)
  end.

(** [_graph_equal(g,contextptr)] on the sequence [(g1,g2)]. *)
Definition _graph_equal (g1 g2 : value) : value :=
  match g1, g2 with
  | of_graphe G1, of_graphe G2 => of_gen (boole (Transform.is_equal G1 G2))
  | _, _ => error (gt_err _GT_ERR_NOT_A_GRAPH)
  end.

(** [_maximum_matching(g,contextptr)] *)
Definition _maximum_matching (g : value) : value :=
  match g with
  | error _ => g
  | of_graphe G =>
      if is_directed G then error (gt_err _GT_ERR_UNDIRECTED_GRAPH_REQUIRED)
      else
        let matching := Matching.maximize_matching G [] in
        of_gen (gen_vect _LIST__VECT
                  ((fun it => gen_vect _LIST__VECT
                                [node_label G it.1; node_label G it.2])
                     <$> matching))
  | of_gen _ => error (gt_err _GT_ERR_NOT_A_GRAPH)
  end.

(** [_girth(g,contextptr)] *)
Definition _girth (g : value) : value :=
  match g with
  | error _ => g
  | of_graphe G =>
      if is_directed G then error (gt_err _GT_ERR_UNDIRECTED_GRAPH_REQUIRED)
      else if is_weighted G then error (gt_err _GT_ERR_UNWEIGHTED_GRAPH_REQUIRED)
      else
        let grth := Girth.girth G false in
        of_gen (if bool_decide (grth < 0) then plusinf else gen_int grth)
  | of_gen _ => error (gt_err _GT_ERR_NOT_A_GRAPH)
  end.

(** [_odd_girth(g,contextptr)] *)
Definition _odd_girth (g : value) : value :=
  match g with
  | error _ => g
  | of_graphe G =>
      if is_directed G then error (gt_err _GT_ERR_UNDIRECTED_GRAPH_REQUIRED)
      else if is_weighted G then error (gt_err _GT_ERR_UNWEIGHTED_GRAPH_REQUIRED)
      else
        let grth := Girth.girth G true in
        of_gen (if bool_decide (grth < 0) then plusinf else gen_int grth)
  | of_gen _ => error (gt_err _GT_ERR_NOT_A_GRAPH)
  end.

(** giac's [is_positive] and [is_strictly_greater(n,g)] on integers. *)
Definition is_positive (g : gen) : bool :=
  match g with gen_int z => bool_decide (0 <= z) | _ => false end.

Definition is_strictly_greater (n : Z) (g : gen) : bool :=
  match g with gen_int z => bool_decide (z < n) | _ => false end.

Definition int_val (g : gen) : Z :=
  match g with gen_int z => z | _ => 0 end.

(** giac's [_SortD]: the list in decreasing order. *)
Definition _SortD (l : list Z) : list Z :=
  merge_sort (flip Z.le) l.

Definition _sum (l : list Z) : Z := foldr Z.add 0 l.

(** The Erdos-Gallai loop of [_is_graphic_sequence]: [it] runs over the
    sorted degrees, [k] counts from 1 and [S] is the running sum. *)
Fixpoint erdos_gallai (deg : list Z) (its : list Z) (S : Z) (k : nat) : bool :=
  match its with
  | [] => true
  | it :: its' =>
      let S := S + it in
      let M := _sum ((fun d => d `min` Z.of_nat k) <$> drop k deg) in
      if bool_decide (Z.of_nat k * (Z.of_nat k - 1) + M < S) then false
      else erdos_gallai deg its' S (k + 1)
  end.

(** [_is_graphic_sequence(g,contextptr)] *)
Definition _is_graphic_sequence (g : gen) : value :=
  match g with
  | gen_vect _ v =>
      let n := Z.of_nat (length v) in
      if existsb (fun it => negb (is_integer it) || negb (is_positive it)
                            || negb (is_strictly_greater n it)) v
      then of_gen FAUX
      else
        let deg := _SortD (int_val <$> v) in
        if negb (Z.even (_sum deg)) then of_gen FAUX
        else if erdos_gallai deg deg 0 1 then of_gen VRAI else of_gen FAUX
  | _ => error gentypeerr
  end.


(** *** Drawing *)

(** Modelled from the spec: [graphe::connected_components] is missing;
    the components are the sets of vertices discovered by the traversals
    started, in index order, from the vertices not yet seen. *)
Definition connected_components (G : graphe) : list (list nat) :=
  fold_left
    (fun components i =>
       if bool_decide (i ∈ concat components) then components
       else components ++ [Connectivity.depth_first_search G i])
    (seq 0 (node_count G)) [].

(** Position of [j] in the index list [vi]. *)
Fixpoint position_in (vi : list nat) (j : nat) (k : nat) : option nat :=
  match vi with
  | [] => None
  | x :: vi' => if bool_decide (x = j) then Some k else position_in vi' j (S k)
  end.

(** Modelled from the spec: [graphe::induce_subgraph] is missing; the
    subgraph on the vertices [vi], renumbered in the order of [vi], with
    the edges of [G] between them ([copy_attrib] is false here: the
    vertex attributes are left behind). *)
Definition induced_vertex (G : graphe) (vi : list nat) (i : nat) : vertex :=
  {| m_label := node_label G i; m_attributes := ∅;
     m_neighbor_attributes :=
       list_to_map (M := gmap nat attrib)
         (omap (M := list)
               (fun e : nat * attrib =>
                  match position_in vi e.1 0 with
                  | Some k => Some (k, e.2)
                  | None => None
                  end)
               (map_to_list (neighbor_map G i))) |}.

Definition induce_subgraph (G : graphe) (vi : list nat) : graphe :=
  {| nodes := induced_vertex G vi <$> vi;
     attributes := attributes G;
     graph_name := "" |}.

(** [enum gt_layout_style], with the two values the command adds. *)
Inductive gt_layout_style :=
| _GT_STYLE_DEFAULT
| _GT_STYLE_SPRING
| _GT_STYLE_PLANAR
| _GT_STYLE_3D
| _GT_STYLE_CIRCLE
| _GT_STYLE_TREE.

#[global] Instance gt_layout_style_eq_dec : EqDecision gt_layout_style.
Proof. solve_decision. Defined.

(** The options of [draw_graph] as its parser tells them apart: the
    integer tags it switches on, the functions [circle], [plan] and
    [plot3d], and [lh=rh] pairs. *)
Inductive draw_tag := _GT_TREE | _GT_SPRING | _GT_PLANAR | _LABELS | other_tag (z : Z).

Inductive draw_lhs := lh_integer (t : draw_tag) | lh_at_cercle | lh_other.

Inductive draw_option :=
| opt_equal (lh : draw_lhs) (rh : gen)
| opt_at_cercle
| opt_at_plan
| opt_at_plot3d
| opt_integer (t : draw_tag)
| opt_other.

(** The layout routines of [graphe], which compute with floating-point
    coordinates, are taken as given: what [_draw_graph] reads of them is
    whether [make_planar_layout] succeeds and which style
    [guess_drawing_style] picks. *)
Record layout_engine := {
  layout : Type;
  make_spring_layout : graphe -> nat -> layout;
  make_tree_layout : graphe -> nat -> layout;
  make_planar_layout : graphe -> option layout;
  make_circular_layout : graphe -> list nat -> bool -> layout;
  get_leading_cycle : graphe -> option (list nat);
  find_cycle : graphe -> option (list nat);
  guess_drawing_style : graphe -> gt_layout_style;
  no_layout : layout;
  draw : graphe -> list (graphe * layout) -> bool -> gen
}.

Record draw_settings := {
  method : gt_layout_style;
  root_nodes : vecteur;
  cycle : vecteur;
  labels : bool;
  opt_counter : Z
}.

(** The option loop of [_draw_graph]. *)
Fixpoint parse_draw_options (opts : list draw_option) (st : draw_settings)
  : draw_settings + giac_error :=
  match opts with
  | [] => inl st
  | opt :: opts' =>
      let st := {| method := method st; root_nodes := root_nodes st;
                   cycle := cycle st; labels := labels st;
                   opt_counter := opt_counter st + 1 |} in
      let with_method m :=
        {| method := m; root_nodes := root_nodes st; cycle := cycle st;
           labels := labels st; opt_counter := opt_counter st |} in
      match opt with
      | opt_equal (lh_integer _GT_TREE) rh =>
          parse_draw_options opts'
            {| method := _GT_STYLE_TREE;
               root_nodes := match rh with
                             | gen_vect _ v => v
                             | _ => root_nodes st ++ [rh]
                             end;
               cycle := cycle st; labels := labels st;
               opt_counter := opt_counter st |}
      | opt_equal (lh_integer _LABELS) rh =>
          match rh with
          | gen_int b =>
              parse_draw_options opts'
                {| method := method st; root_nodes := root_nodes st;
                   cycle := cycle st; labels := negb (bool_decide (b = 0));
                   opt_counter := opt_counter st - 1 |}
          | _ => inr gentypeerr
          end
      | opt_equal (lh_integer _) _ => parse_draw_options opts' st
      | opt_equal lh_at_cercle rh =>
          match rh with
          | gen_vect _ v =>
              parse_draw_options opts'
                {| method := _GT_STYLE_CIRCLE; root_nodes := root_nodes st;
                   cycle := v; labels := labels st;
                   opt_counter := opt_counter st |}
          | _ => inr gentypeerr
          end
      | opt_equal lh_other _ => parse_draw_options opts' st
      | opt_at_cercle => parse_draw_options opts' (with_method _GT_STYLE_CIRCLE)
      | opt_at_plan => parse_draw_options opts' (with_method _GT_STYLE_PLANAR)
      | opt_at_plot3d => parse_draw_options opts' (with_method _GT_STYLE_3D)
      | opt_integer _GT_TREE => parse_draw_options opts' (with_method _GT_STYLE_TREE)
      | opt_integer _GT_SPRING => parse_draw_options opts' (with_method _GT_STYLE_SPRING)
      | opt_integer _GT_PLANAR => parse_draw_options opts' (with_method _GT_STYLE_PLANAR)
      | opt_integer _ => parse_draw_options opts' st
      | opt_other => parse_draw_options opts' st
      end
  end.

(** The root of every component: the first of the given indices that lies
    in it, which is then taken off the list. *)
Fixpoint remove_first (x : nat) (l : list nat) : list nat :=
  match l with
  | [] => []
  | y :: l' => if bool_decide (y = x) then l' else y :: remove_first x l'
  end.

Fixpoint assign_roots (components : list (list nat)) (indices : list nat)
  : option (list nat) :=
  match components with
  | [] => Some []
  | comp :: components' =>
      match List.find (fun i => bool_decide (i ∈ comp)) indices with
      | None => None
      | Some r =>
          match assign_roots components' (remove_first r indices) with
          | Some roots => Some (r :: roots)
          | None => None
          end
      end
  end.

(** The loop of [_draw_graph] that draws the components separately;
    [i] is the index of the component at the head of [components]. *)
Fixpoint draw_components (E : layout_engine) (G : graphe)
    (method : gt_layout_style) (roots outerface : list nat)
    (components : list (list nat)) (i : nat)
  : list (graphe * layout E) + giac_error :=
  match components with
  | [] => inl []
  | it :: components' =>
      let C := induce_subgraph G (merge_sort Nat.le it) in
      let check := negb (bool_decide (method = _GT_STYLE_DEFAULT)) in
      let comp_method :=
        if bool_decide (method = _GT_STYLE_DEFAULT)
        then guess_drawing_style E C else method in
      let x : layout E + giac_error :=
        match comp_method with
        | _GT_STYLE_SPRING => inl (make_spring_layout E C 2)
        | _GT_STYLE_TREE =>
            if check && negb (Connectivity.is_tree C)
            then inr (gt_err _GT_ERR_NOT_A_TREE)
            else inl (make_tree_layout E C
                        (if bool_decide (roots = []) then 0%nat
                         else default 0%nat (roots !! i)))
        | _GT_STYLE_PLANAR =>
            match make_planar_layout E C with
            | Some x => inl x
            | None => inr (gt_err _GT_ERR_NOT_PLANAR)
            end
        | _GT_STYLE_CIRCLE =>
            if bool_decide (outerface = []) then
              let outerface :=
                match get_leading_cycle E C with
                | Some c => c
                | None => match find_cycle E C with
                          | Some c => c
                          | None => seq 0 (node_count G)
                          end
                end in
              inl (make_circular_layout E C outerface false)
            else inl (make_circular_layout E C outerface true)
        | _ => inl (no_layout E)
        end in
      match x with
      | inr e => inr e
      | inl x =>
          match draw_components E G method roots outerface components' (S i) with
          | inr e => inr e
          | inl layouts => inl ((C, x) :: layouts)
          end
      end
  end.

(** The block of [_draw_graph] that gets the root nodes for forest
    drawing: one root per component, or the error it returns. *)
Definition forest_roots (G : graphe) (components : list (list nat))
    (root_nodes : vecteur) : list nat + giac_error :=
  if negb (bool_decide (root_nodes = [])) then
    if bool_decide (length root_nodes ≠ length components)
    then inr (gt_err _GT_ERR_INVALID_NUMBER_OF_ROOTS)
    else match mapM (node_index G) root_nodes with
         | None => inr (gt_err _GT_ERR_VERTEX_NOT_FOUND)
         | Some indices =>
             match assign_roots components indices with
             | None => inr (gt_err _GT_ERR_INVALID_ROOT)
             | Some roots => inl roots
             end
         end
  else inl [].

(** The block of [_draw_graph] that gets the outer face for circular
    drawing. *)
Definition circle_outerface (G : graphe) (components : list (list nat))
    (cycle : vecteur) : list nat + giac_error :=
  if negb (bool_decide (cycle = [])) then
    if bool_decide (1 < length components)%nat
    then inr (gt_err _GT_ERR_CONNECTED_GRAPH_REQUIRED)
    else match mapM (node_index G) cycle with
         | None => inr (gt_err _GT_ERR_VERTEX_NOT_FOUND)
         | Some outerface => inl outerface
         end
  else inl [].

Definition draw_defaults : draw_settings :=
  {| method := _GT_STYLE_DEFAULT; root_nodes := []; cycle := [];
     labels := true; opt_counter := 0 |}.

(** [_draw_graph(g,contextptr)] on the graph [g] followed by the options
    [opts] (none when the graph is the only argument). *)
Definition _draw_graph (E : layout_engine) (g : value) (opts : list draw_option)
  : value :=
  match g with
  | of_graphe G_orig =>
      match parse_draw_options opts draw_defaults with
      | inr e => error e
      | inl st =>
          if bool_decide (1 < opt_counter st)
          then error (gt_err _GT_ERR_INVALID_DRAWING_METHOD)
          else
            let G := Transform.underlying G_orig in
            if bool_decide (method st = _GT_STYLE_3D) then
              if negb (Connectivity.is_connected G)
              then error (gt_err _GT_ERR_CONNECTED_GRAPH_REQUIRED)
              else of_gen (draw E G_orig [(G, make_spring_layout E G 3)] (labels st))
            else
              let components := connected_components G in
              match forest_roots G components (root_nodes st) with
              | inr e => error e
              | inl roots =>
                  match circle_outerface G components (cycle st) with
                  | inr e => error e
                  | inl outerface =>
                      (* draw the components separately *)
                      match draw_components E G (method st) roots outerface
                                            components 0 with
                      | inr e => error e
                      | inl layouts =>
                          (* combine component layouts *)
                          of_gen (draw E G_orig layouts (labels st))
                      end
                  end
              end
      end
  | _ => error (gt_err _GT_ERR_NOT_A_GRAPH)
  end.

End Commands.

(** ** Files ([graphtheory.cc]) *)

Module Files.
Import Gen Graphe Commands.

(** [has_suffix(str,suffix)]: [str.size()>=suffix.size() &&
    str.compare(str.size()-suffix.size(),suffix.size(),suffix)==0]. *)
Definition has_suffix (str suffix : string) : bool :=
  (String.length suffix <=? String.length str)%nat
  && String.eqb (String.substring (String.length str - String.length suffix)
                           (String.length suffix) str) suffix.

(** What [_import_graph] returns: the graph read, or [undef] when reading
    fails. *)
Inductive import_result :=
| imported (G : graphe)
| undef.

Section DotFiles.

(** [graphe::read_dot(filename)], which reads the file system: the graph
    read from the file of that name, if any. *)
Variable read_dot : string -> option graphe.

(** [_import_graph(g,contextptr)] on the string [g]. *)
Definition _import_graph (g : string) : import_result :=
  let filename := g in
  let filename := if negb (has_suffix filename ".dot")
                  then filename +:+ ".dot" else filename in
  match read_dot filename with
  | None => undef
  | Some G => imported G
  end.

End DotFiles.

End Files.

(** ** Folding an operator over its arguments *)

Module Fold.
Import Gen Graphe Commands.

(** The term that [_foldl] and [_foldr] hand to the evaluator: the
    arguments as they are, and [symbolic(at_of,makesequence(op,
    makesequence(a,b)))], the application of [op] to [a] and [b]. *)
Inductive symbolic :=
| atom (g : gen)
| at_of (op : symbolic) (a b : symbolic).

(** [_foldl(g,contextptr)] on the sequence [gv], before [_eval]. *)
Definition _foldl (gv : vecteur) : symbolic + giac_error :=
  if bool_decide (length gv < 3)%nat then inr gensizeerr
  else match gv with
       | op :: arg :: rest =>
           inl (fold_left (fun arg it => at_of (atom op) arg (atom it))
                          rest (atom arg))
       | _ => inr gensizeerr
       end.

(** [_foldr(g,contextptr)] on the sequence [gv], before [_eval]: the loop
    runs from the last argument down to the third. *)
Definition _foldr (gv : vecteur) : symbolic + giac_error :=
  if bool_decide (length gv < 3)%nat then inr gensizeerr
  else match gv with
       | op :: arg :: rest =>
           inl (fold_left (fun arg it => at_of (atom op) (atom it) arg)
                          (rev rest) (atom arg))
       | _ => inr gensizeerr
       end.

End Fold.

(** ** Degrees *)

Module Degrees.
Import Gen Graphe Commands.

Section Degree.

(** [graphe::degree(i)], whose body is not at hand, and the constant
    [RAND_MAX] of the C library. *)
Variable degree : graphe -> nat -> Z.
Variable RAND_MAX : Z.

(** [_minimum_degree(g,contextptr)] *)
Definition _minimum_degree (g : value) : value :=
  match g with
  | error _ => g
  | of_graphe G =>
      if bool_decide (node_count G = 0%nat) then of_gen (gen_int 0)
      else
        of_gen (gen_int
          (fold_left (fun mindeg i =>
                        let d := degree G i in
                        if bool_decide (d < mindeg) then d else mindeg)
                     (seq 0 (node_count G)) RAND_MAX))
  | of_gen _ => error (gt_err _GT_ERR_NOT_A_GRAPH)
  end.

(** [_maximum_degree(g,contextptr)] *)
Definition _maximum_degree (g : value) : value :=
  match g with
  | error _ => g
  | of_graphe G =>
      if bool_decide (node_count G = 0%nat) then of_gen (gen_int 0)
      else
        of_gen (gen_int
          (fold_left (fun maxdeg i =>
                        let d := degree G i in
                        if bool_decide (maxdeg < d) then d else maxdeg)
                     (seq 0 (node_count G)) 0))
  | of_gen _ => error (gt_err _GT_ERR_NOT_A_GRAPH)
  end.

(** [_is_regular(g,contextptr)] *)
Definition _is_regular (g : value) : value :=
  match g with
  | error _ => g
  | of_graphe G =>
      if bool_decide (node_count G = 0%nat) then of_gen (boole false)
      else
        let d := degree G 0 in
        if existsb (fun i => negb (bool_decide (degree G i = d)))
                   (seq 1 (node_count G - 1))
        then of_gen (boole false)
        else of_gen (boole true)
  | of_gen _ => error (gt_err _GT_ERR_NOT_A_GRAPH)
  end.

End Degree.

End Degrees.

(** ** Reordering the vertices *)

Module Permute.
Import Gen Graphe Commands.

(** [std::find(V.begin(),V.end(),x)-V.begin()]: the position of the first
    element equal to [x], counted from [k]. *)
Fixpoint find_position (V : vecteur) (x : gen) (k : nat) : option nat :=
  match V with
  | [] => None
  | y :: V' => if gen_eqb y x then Some k else find_position V' x (S k)
  end.

(** The loop of [_permute_vertices] over [sigma]: [p] is the position of
    [it] in [sigma] and [v] the index vector, which the source sets up
    with -1 at every position. *)
Fixpoint permutation_indices (V sigma : vecteur) (p : nat) (v : list Z)
  : list Z + giac_error :=
  match sigma with
  | [] => inl v
  | it :: sigma' =>
      match find_position V it 0 with
      | None => inr (gt_err _GT_ERR_VERTEX_NOT_FOUND)
      | Some i =>
          if bool_decide (Z.of_nat i ∈ v) then inr gentypeerr
          else permutation_indices V sigma' (S p) (<[p := Z.of_nat i]> v)
      end
  end.

Section IsomorphicCopy.

(** [graphe::isomorphic_copy(H,sigma)], whose body is not at hand: the
    copy, or [None] when it answers false. *)
Variable isomorphic_copy : graphe -> list Z -> option graphe.

(** [_permute_vertices(g,contextptr)] on the sequence [(G,gv1)]. *)
Definition _permute_vertices (g : value) (gv1 : gen) : value :=
  match gv1 with
  | gen_vect _ sigma =>
      match g with
      | of_graphe G =>
          let V := vertices G in
          if bool_decide (length sigma ≠ length V) then error gensizeerr
          else
            match permutation_indices V sigma 0 (replicate (length sigma) (-1)) with
            | inr e => error e
            | inl v =>
                match isomorphic_copy G v with
                | None => error gentypeerr
                | Some H => of_graphe H
                end
            end
      | _ => error (gt_err _GT_ERR_NOT_A_GRAPH)
      end
  | _ => error gentypeerr
  end.

End IsomorphicCopy.

End Permute.

(** ** Paths, switching and subdivision *)

Module Construction.
Import Gen Graphe Commands.

(** [vertices_from_integer_or_vecteur(g,G)]: the graph after the call, or
    [None] when it returns false. *)
Definition vertices_from_integer_or_vecteur (contextptr : context) (g : gen)
    (G : graphe) : option graphe :=
  match g with
  | gen_int n =>
      if bool_decide (n < 1) then None
      else Some (add_nodes G (make_default_labels contextptr (Z.to_nat n)))
  | gen_vect _ V =>
      if bool_decide (V = []) then None else Some (add_nodes G V)
  | _ => None
  end.

(** [_path_graph(g,contextptr)] *)
Definition _path_graph (contextptr : context) (g : gen) : value :=
  match vertices_from_integer_or_vecteur contextptr g new_graphe with
  | None => error gentypeerr
  | Some G =>
      let n := node_count G in
      if bool_decide (n < 2)%nat then error gensizeerr
      else of_graphe (fold_left (fun G i => add_edge G i (i + 1) (gen_int 1))
                                (seq 0 (n - 1)) G)
  end.

(** [_seidel_switch(g,contextptr)] on the sequence [(g,gv1)]. *)
Definition _seidel_switch (g : value) (gv1 : gen) : value :=
  match gv1 with
  | gen_vect _ V =>
      match g with
      | of_graphe G =>
          if is_directed G then error (gt_err _GT_ERR_UNDIRECTED_GRAPH_REQUIRED)
          else if is_weighted G
          then error (gt_err _GT_ERR_UNWEIGHTED_GRAPH_REQUIRED)
          else
            let n := node_count G in
            match mapM (node_index G) V with
            | None => error (gt_err _GT_ERR_VERTEX_NOT_FOUND)
            | Some indices =>
                let vb := fold_left (fun vb index => <[index := true]> vb)
                                    indices (replicate n false) in
                let H := add_nodes new_graphe (vertices G) in
                of_graphe
                  (fold_left
                     (fun H i =>
                        fold_left
                          (fun H j =>
                             let b := has_edge G i j in
                             let b := if negb (bool_decide
                                                 (default false (vb !! i)
                                                  = default false (vb !! j)))
                                      then negb b else b in
                             if b then add_edge H i j (gen_int 1) else H)
                          (seq (i + 1) (n - (i + 1))) H)
                     (seq 0 n) H)
            end
      | _ => error (gt_err _GT_ERR_NOT_A_GRAPH)
      end
  | _ => error gentypeerr
  end.

End Construction.

Module Subdivision.
Import Gen Graphe Commands.



Section RemoveEdge.

(** [graphe::remove_edge(i,j)], whose body is not at hand. *)
Variable remove_edge : graphe -> nat -> nat -> graphe.



End RemoveEdge.

End Subdivision.

(** ** The chains of a dot file ([graphe.h]) *)

Module Dot.
Import Gen Graphe Commands.

(** [class graphe::dotgraph] *)
Record dotgraph := {
  m_index : Z;
  vertex_attr : attrib;
  edge_attr : attrib;
  chain_attr : attrib;
  m_chain : list Z;
  pos : nat
}.

(** [void set_index(int i) { m_chain[pos]=i; }] *)
Definition set_index (d : dotgraph) (i : Z) : dotgraph :=
  {| m_index := m_index d; vertex_attr := vertex_attr d;
     edge_attr := edge_attr d; chain_attr := chain_attr d;
     m_chain := <[pos d := i]> (m_chain d); pos := pos d |}.

(** [void incr() { ++pos; if (int(m_chain.size())<=pos)
    m_chain.resize(pos+1,0); }] *)
Definition incr (d : dotgraph) : dotgraph :=
  let pos' := S (pos d) in
  {| m_index := m_index d; vertex_attr := vertex_attr d;
     edge_attr := edge_attr d; chain_attr := chain_attr d;
     m_chain := if bool_decide (length (m_chain d) <= pos')%nat
                then resize (pos' + 1) 0 (m_chain d) else m_chain d;
     pos := pos' |}.

(** [void clear_chain() { pos=0; m_chain.resize(1); m_chain.front()=0;
    chain_attr.clear(); }] *)
Definition clear_chain (d : dotgraph) : dotgraph :=
  {| m_index := m_index d; vertex_attr := vertex_attr d;
     edge_attr := edge_attr d; chain_attr := ∅;
     m_chain := <[0%nat := 0]> (resize 1 0 (m_chain d)); pos := 0 |}.

(** [bool chain_completed() { return m_chain.back()!=0; }] *)
Definition chain_completed (d : dotgraph) : bool :=
  negb (bool_decide (default 0 (last (m_chain d)) = 0)).

(** [bool chain_empty() { return pos==0 && m_chain.front()==0; }] *)
Definition chain_empty (d : dotgraph) : bool :=
  bool_decide (pos d = 0%nat) && bool_decide (default 0 (head (m_chain d)) = 0).

End Dot.

(** * Properties of the commands *)

Import Gen Graphe Connectivity Girth Transform ShortestPath Matching Commands.

(** ** Notions used in the statements, and the graphs of the examples *)

Definition matrix_of (rows : list (list Z)) : gen :=
  gen_vect _LIST__VECT ((fun r => gen_vect _LIST__VECT (gen_int <$> r)) <$> rows).

(** The adjacency matrix of the scenario of the specification. *)
Definition scenario_matrix : gen :=
  matrix_of [[0;1;1;0]; [1;0;0;1]; [1;0;0;0]; [0;1;0;0]].


(** An element that the first loop of [_is_graphic_sequence] refuses. *)
Definition refused (n : nat) (it : gen) : Prop :=
  is_integer it = false ∨ int_val it < 0 ∨ Z.of_nat n <= int_val it.

(** The evaluation context in which lists are indexed from 0. *)
Definition xcas : context := {| one_based := false |}.


(** The path on two vertices, which has no cycle. *)
Definition single_edge_graph : graphe :=
  add_edge (add_nodes new_graphe [gen_int 0; gen_int 1]) 0 1 (gen_int 1).

(** Three vertices and no edge. *)
Definition three_isolated_vertices : graphe :=
  add_nodes new_graphe [gen_int 0; gen_int 1; gen_int 2].

(** The triangle. *)
Definition triangle : graphe :=
  add_edge (add_edge (add_edge three_isolated_vertices 0 1 (gen_int 1))
                     1 2 (gen_int 1)) 2 0 (gen_int 1).

(** The settings reached when at most one option names a drawing method. *)
Definition single_method (st : draw_settings) : Prop :=
  0 <= opt_counter st
  ∧ (opt_counter st = 0 ->
     method st = _GT_STYLE_DEFAULT ∧ root_nodes st = [] ∧ cycle st = [])
  ∧ (opt_counter st = 1 ->
     (method st ≠ _GT_STYLE_TREE -> root_nodes st = [])
     ∧ (method st ≠ _GT_STYLE_CIRCLE -> cycle st = [])).

(** A layout engine for the examples: it lays out nothing, takes a graph
    for planar when it has fewer than five vertices, and its drawing is
    the number of components laid out. *)
Definition counting_engine : layout_engine :=
  {| layout := unit;
     make_spring_layout := fun _ _ => tt;
     make_tree_layout := fun _ _ => tt;
     make_planar_layout :=
       fun C => if bool_decide (node_count C < 5)%nat then Some tt else None;
     make_circular_layout := fun _ _ _ => tt;
     get_leading_cycle := fun _ => None;
     find_cycle := fun _ => None;
     guess_drawing_style := fun _ => _GT_STYLE_SPRING;
     no_layout := tt;
     draw := fun _ layouts _ => gen_int (Z.of_nat (length layouts)) |}.


Definition nbrs (ns : list vertex) (x : nat) : gmap nat attrib :=
  default ∅ (m_neighbor_attributes <$> ns !! x).

(** The entries of an undirected graph come in symmetric pairs. *)
Definition symmetric (G : graphe) : Prop :=
  forall i j, has_edge G i j = has_edge G j i.

(** Every entry carries the default weight and nothing else. *)
Definition unit_weights (G : graphe) : Prop :=
  forall i j attr, neighbor_map G i !! j = Some attr ->
                   attr = {[ _GT_ATTRIB_WEIGHT := gen_int 1 ]}.

Definition add_edges (U : graphe) (es : list (nat * nat)) : graphe :=
  fold_left (fun U e => add_edge U e.1 e.2 (gen_int 1)) es U.

(** All pairs [(i,j)] with [i] a vertex and [j] taken from [row i]. *)
Definition pairs_of (n : nat) (row : nat -> list nat) : list (nat * nat) :=
  i ← seq 0 n; (fun j => (i, j)) <$> row i.

(** The pairs that [complement] turns into edges. *)
Definition missing_edge (G : graphe) (e : nat * nat) : Prop :=
  e.1 ≠ e.2 ∧ has_edge G e.1 e.2 = false.

#[local] Instance missing_edge_dec G e : Decision (missing_edge G e).
Proof. unfold missing_edge. apply _. Defined.

(** What a graph built by [add_edges] keeps of the graph it starts from. *)
Record same_frame (U G : graphe) : Prop := {
  frame_count : node_count G = node_count U;
  frame_strip : strip_vertex <$> nodes G = strip_vertex <$> nodes U;
  frame_attributes : attributes G = attributes U;
  frame_name : graph_name G = graph_name U
}.

(** A simple graph: undirected and unweighted, its entries between
    vertices symmetric and without loops. *)
Definition is_simple (G : graphe) : bool :=
  negb (is_directed G) && negb (is_weighted G)
  && forallb
       (fun i => forallb
                   (fun j => bool_decide (has_edge G i j = has_edge G j i)
                             && negb (bool_decide (i = j) && has_edge G i j))
                   (seq 0 (node_count G)))
       (seq 0 (node_count G)).

(** The path on three vertices. *)
Definition path_3 : graphe :=
  add_edge (add_edge three_isolated_vertices 0 1 (gen_int 1)) 1 2 (gen_int 1).

(** The end points of the pairs of a matching, in order. *)
Definition endpoints (matching : ipairs) : list nat :=
  e ← matching; [e.1; e.2].

(** A matching of [G]: no vertex lies on two pairs, and every pair is an
    edge of [G] between two vertices, written with the smaller index
    first. *)
Definition is_matching (G : graphe) (matching : ipairs) : Prop :=
  NoDup (endpoints matching)
  ∧ Forall (fun e => (e.1 < e.2 < node_count G)%nat
                     ∧ (has_edge G e.1 e.2 = true ∨ has_edge G e.2 e.1 = true))
           matching.

(** The cycle on five vertices. *)
Definition cycle_5 : graphe :=
  fold_left (fun G '(i, j) => add_edge G i j (gen_int 1))
    [(0, 1); (1, 2); (2, 3); (3, 4); (4, 0)]%nat
    (add_nodes new_graphe
       [gen_int 0; gen_int 1; gen_int 2; gen_int 3; gen_int 4]).



(** [t] is reached from [s] by a path of weight [w]. *)
Inductive reaches (G : graphe) (s : nat) : nat -> Z -> Prop :=
| reaches_here : reaches G s s 0
| reaches_step u t w :
    reaches G s u w -> has_edge G u t = true ->
    reaches G s t (w + weight_val G u t).

(** Every edge carries a number that is not negative, and leads to a
    vertex of the graph. *)
Definition nonnegative_weights (G : graphe) : Prop :=
  forall u v, has_edge G u v = true ->
              (v < node_count G)%nat ∧ ∃ z, weight G u v = gen_int z ∧ 0 <= z.




(** ** Notions for the further commands *)

Import Files Fold Degrees Permute Construction Subdivision Dot.

(** The value of a term when [op] stands for the operation [f] and the
    arguments have the values given by [v]. *)
Fixpoint denote {A : Type} (f : A -> A -> A) (v : gen -> A) (e : symbolic) : A :=
  match e with
  | atom g => v g
  | at_of _ a b => f (denote f v a) (denote f v b)
  end.

(** The operations on the chain of a [dotgraph]. *)
Inductive chain_op := op_incr | op_set_index (i : Z) | op_clear_chain.

Definition chain_step (d : dotgraph) (o : chain_op) : dotgraph :=
  match o with
  | op_incr => incr d
  | op_set_index i => set_index d i
  | op_clear_chain => clear_chain d
  end.

(** The options that the option loop of [_draw_graph] counts: all but
    [labels=...]. *)
Definition counted_option (opt : draw_option) : bool :=
  match opt with
  | opt_equal (lh_integer _LABELS) _ => false
  | _ => true
  end.

(** The labels [a] and [b] name two vertices of [G] joined by an edge. *)
Definition joined (G : graphe) (a b : gen) : Prop :=
  exists i j, node_index G a = Some i /\ node_index G b = Some j
              /\ has_edge G i j = true.

(** Whether the vertices [i] and [j] are joined after switching with
    respect to the vertices [indices]. *)
Definition switched (G : graphe) (indices : list nat) (i j : nat) : bool :=
  xorb (has_edge G i j)
       (xorb (bool_decide (i ∈ indices)) (bool_decide (j ∈ indices))).




(** * Proofs *)

(** ** Graphic sequences *)

Section GraphicSequence.

Lemma _sum_Permutation (l1 l2 : list Z) : l1 ≡ₚ l2 -> _sum l1 = _sum l2.
Proof.
  unfold _sum. induction 1; simpl; lia.
Qed.

Lemma _sum_SortD (l : list Z) : _sum (_SortD l) = _sum l.
Proof.
  apply _sum_Permutation. unfold _SortD. apply merge_sort_Permutation.
Qed.

Lemma refused_spec (n : nat) (it : gen) :
  refused n it ->
  negb (is_integer it) || negb (is_positive it)
  || negb (is_strictly_greater (Z.of_nat n) it) = true.
Proof.
  unfold refused. destruct it; simpl; intros [H | [H | H]];
    try discriminate; try reflexivity.
  - rewrite (bool_decide_eq_false_2 (0 <= val)) by lia. reflexivity.
  - rewrite (bool_decide_eq_false_2 (val < Z.of_nat n)) by lia.
    apply orb_true_r.
Qed.

End GraphicSequence.

(** C10. For every list given to [is_graphic_sequence]: if some element is
    not an integer, or is negative, or is greater than or equal to the
    length of the list, or if the sum of the list is odd, the command
    returns false; it returns a value, not an error. *)
Theorem is_graphic_sequence_returns_false (subtype : vect_subtype) (v : vecteur) :
  (∃ it, it ∈ v ∧ refused (length v) it) ∨ Z.odd (_sum (int_val <$> v)) = true ->
  _is_graphic_sequence (gen_vect subtype v) = of_gen FAUX.
Proof.
  intros H. unfold _is_graphic_sequence.
  destruct (existsb _ v) eqn:Hex; [reflexivity |].
  destruct H as [(it & Hin & Href) | Hodd].
  - exfalso. apply not_true_iff_false in Hex. apply Hex.
    apply existsb_exists. exists it. split.
    + by apply list_elem_of_In.
    + by apply refused_spec.
  - rewrite _sum_SortD, <- Z.negb_odd, Hodd. reflexivity.
Qed.

Lemma is_graphic_sequence_returns_false_witness :
  _is_graphic_sequence (gen_vect _LIST__VECT [gen_int 2; gen_int 2; gen_int 1])
  = of_gen FAUX
  ∧ _is_graphic_sequence (gen_vect _LIST__VECT [gen_int 1; gen_idnt "x"])
    = of_gen FAUX.
Proof.
  split.
  - apply (is_graphic_sequence_returns_false _LIST__VECT
             [gen_int 2; gen_int 2; gen_int 1]).
    right. reflexivity.
  - apply (is_graphic_sequence_returns_false _LIST__VECT
             [gen_int 1; gen_idnt "x"]).
    left. exists (gen_idnt "x"). split.
    + apply list_elem_of_In. simpl. auto.
    + left. reflexivity.
Defined.

(** ** Construction from a matrix: symmetry *)

Section MatrixConstruction.

Variable contextptr : context.

Lemma attributes_add_edge G i j w : attributes (add_edge G i j w) = attributes G.
Proof.
  unfold add_edge. destruct (has_edge G i j); [reflexivity |].
  case_bool_decide; reflexivity.
Qed.

Lemma attributes_add_node G v : attributes (add_node G v).1 = attributes G.
Proof.
  unfold add_node. destruct (node_index G v); reflexivity.
Qed.

Lemma attributes_add_nodes V : forall G, attributes (add_nodes G V) = attributes G.
Proof.
  unfold add_nodes. induction V as [| v V IH]; intros G; simpl; [reflexivity |].
  rewrite IH. apply attributes_add_node.
Qed.

Lemma is_directed_attributes G1 G2 :
  attributes G1 = attributes G2 -> is_directed G1 = is_directed G2.
Proof. unfold is_directed. by intros ->. Qed.

Lemma is_directed_set_directed G b : is_directed (set_directed G b) = b.
Proof.
  unfold is_directed, set_directed, set_graph_attribute. simpl.
  rewrite lookup_insert_eq. by destruct b.
Qed.

Lemma is_directed_make_weighted G m : is_directed (make_weighted G m) = is_directed G.
Proof.
  unfold is_directed, make_weighted, set_weighted, set_graph_attribute. simpl.
  by rewrite lookup_insert_ne.
Qed.

Lemma fold_left_invariant {A B : Type} (P : A -> Prop) (f : A -> B -> A)
    (l : list B) :
  (forall a b, P a -> P (f a b)) -> forall a, P a -> P (fold_left f l a).
Proof.
  intros Hstep. induction l as [| b l IH]; intros a Ha; simpl; [exact Ha |].
  apply IH, Hstep, Ha.
Qed.

(** The edge loops of [parse_matrix] leave the graph attributes alone. *)
Lemma attributes_matrix_row (m : matrice) (i : nat) (js : list nat)
    (p : graphe * bool) :
  attributes
    (fold_left
       (fun '(G, isweighted) j =>
          let w := mat_entry m i j in
          if negb (is_zero w)
          then (add_edge G i j (gen_int 1),
                if negb (is_one w) then true else isweighted)
          else (G, isweighted))
       js p).1 = attributes p.1.
Proof.
  apply (fold_left_invariant (fun q : graphe * bool => attributes q.1 = attributes p.1));
    [| reflexivity].
  intros [G2 w2] j H2. simpl in *.
  destruct (negb (is_zero (mat_entry m i j))); simpl; [| exact H2].
  by rewrite attributes_add_edge.
Qed.


Lemma is_squarematrix_front subtype (m : matrice) :
  is_squarematrix (gen_vect subtype m) = true ->
  length (row_of (default (gen_int 0) (head m))) = length m.
Proof.
  unfold is_squarematrix. intros H.
  apply andb_true_iff in H as [_ H]. apply bool_decide_eq_true in H. by rewrite H.
Qed.



Lemma graph_arguments_cons n weighted G i arg args :
  graph_arguments contextptr n weighted G i (arg :: args) =
  match graph_argument contextptr n weighted G i arg with
  | inl G' => graph_arguments contextptr n weighted G' (S i) args
  | inr e => inr e
  end.
Proof. reflexivity. Qed.



End MatrixConstruction.

(** C1, as the code has it. For the graph built by [graph] from the
    adjacency matrix [[0,1,1,0],[1,0,0,1],[1,0,0,0],[0,1,0,0]], whatever
    the index base of the context, [number_of_edges] returns 3 (the edges
    0-1, 0-2 and 1-3) and [is_directed] returns false. *)
Theorem scenario_matrix_edges_and_direction (contextptr : context) :
  _number_of_edges (_graph contextptr scenario_matrix) = of_gen (gen_int 3)
  ∧ _is_directed (_graph contextptr scenario_matrix) = of_gen FAUX.
Proof.
  destruct contextptr as [[|]]; split; vm_compute; reflexivity.
Qed.

(** C1, as the specification states it, fails: the edge count of the
    scenario graph is not 4. *)
Lemma scenario_matrix_not_four_edges :
  _number_of_edges (_graph xcas scenario_matrix) ≠ of_gen (gen_int 4).
Proof.
  vm_compute. discriminate.
Qed.




(** ** Girth *)

Section GirthSentinel.

Lemma find_none_iff {A : Type} (f : A -> bool) (l : list A) :
  (forall x, In x l -> f x = false) -> List.find f l = None.
Proof.
  induction l as [| a l IH]; intros H; simpl; [reflexivity |].
  rewrite (H a) by (left; reflexivity). apply IH. intros x Hx. apply H. by right.
Qed.

Lemma existsb_false {A : Type} (f : A -> bool) (l : list A) :
  (forall x, f x = false) -> existsb f l = false.
Proof.
  intros H. induction l as [| a l IH]; simpl; [reflexivity |].
  by rewrite H, IH.
Qed.

(** Without a cycle the search of [girth] finds nothing and answers with
    the sentinel. *)
Lemma girth_no_cycle (G : graphe) :
  (forall c, is_cycle G c = false) -> girth G false = -1.
Proof.
  intros H. unfold girth. rewrite find_none_iff; [reflexivity |].
  intros k _. simpl. unfold has_cycle_of_length. by apply existsb_false.
Qed.

Lemma girth_no_odd_cycle (G : graphe) :
  (forall c, is_cycle G c = true -> Nat.odd (length c) = false) ->
  girth G true = -1.
Proof.
  intros H. unfold girth. rewrite find_none_iff; [reflexivity |].
  intros k _. simpl. destruct (Nat.odd k) eqn:Hk; [| reflexivity].
  unfold has_cycle_of_length.
  destruct (existsb _ _) eqn:Hex; [| reflexivity].
  apply existsb_exists in Hex as (c & Hin & Hc).
  assert (length c = k) as Hlen.
  { clear -Hin. revert c Hin.
    induction k as [| k IH]; intros c Hin; simpl in Hin.
    - destruct Hin as [<- | []]. reflexivity.
    - apply list_elem_of_In in Hin.
      apply list_elem_of_bind in Hin as (v & Hc & _).
      apply list_elem_of_fmap in Hc as (c' & -> & Hc').
      simpl. f_equal. apply IH. by apply list_elem_of_In. }
  specialize (H c Hc). congruence.
Qed.

End GirthSentinel.

Lemma has_edge_adjacent (G : graphe) (i j : nat) :
  has_edge G i j = true <-> j ∈ adjacent_nodes G i.
Proof.
  unfold has_edge, adjacent_nodes.
  rewrite bool_decide_eq_true, elem_of_elements, elem_of_dom. reflexivity.
Qed.

Lemma single_edge_graph_edges (a b : nat) :
  has_edge single_edge_graph a b = true -> (a + b = 1)%nat.
Proof.
  intros H. apply has_edge_adjacent in H.
  destruct a as [| [| a]].
  - replace (adjacent_nodes single_edge_graph 0) with [1%nat] in H
      by (vm_compute; reflexivity).
    apply list_elem_of_singleton in H. lia.
  - replace (adjacent_nodes single_edge_graph 1) with [0%nat] in H
      by (vm_compute; reflexivity).
    apply list_elem_of_singleton in H. lia.
  - replace (adjacent_nodes single_edge_graph (S (S a))) with (@nil nat) in H
      by reflexivity.
    by apply elem_of_nil in H.
Qed.

Lemma single_edge_graph_acyclic (c : list nat) : is_cycle single_edge_graph c = false.
Proof.
  destruct (is_cycle single_edge_graph c) eqn:Hc; [exfalso | reflexivity].
  destruct c as [| a [| b [| d c]]]; try discriminate.
  unfold is_cycle in Hc.
  apply andb_true_iff in Hc as [Hc _]. apply andb_true_iff in Hc as [Hc Hwalk].
  apply andb_true_iff in Hc as [_ Hnd]. apply bool_decide_eq_true in Hnd.
  cbn [is_walk] in Hwalk.
  apply andb_true_iff in Hwalk as [Hab Hwalk].
  apply andb_true_iff in Hwalk as [Hbd _].
  apply single_edge_graph_edges in Hab, Hbd.
  apply NoDup_cons in Hnd as [Ha _]. apply Ha.
  replace a with d by lia. right. left.
Qed.

(** C9. For every undirected unweighted graph that contains no cycle,
    [girth] returns +infinity, and [odd_girth] returns +infinity when the
    graph has no odd cycle; on every graph the integer that either command
    returns is not negative, so the sentinel of [graphe::girth] never
    reaches the caller. *)
Theorem girth_of_acyclic_graph (G : graphe) :
  is_directed G = false ->
  is_weighted G = false ->
  ((forall c, is_cycle G c = false) -> _girth (of_graphe G) = of_gen plusinf)
  ∧ ((forall c, is_cycle G c = true -> Nat.odd (length c) = false) ->
     _odd_girth (of_graphe G) = of_gen plusinf)
  ∧ (forall z, _girth (of_graphe G) = of_gen (gen_int z)
               ∨ _odd_girth (of_graphe G) = of_gen (gen_int z) -> 0 <= z).
Proof.
  intros Hdir Hw. unfold _girth, _odd_girth. rewrite Hdir, Hw.
  split; [| split].
  - intros H. by rewrite (girth_no_cycle G H).
  - intros H. by rewrite (girth_no_odd_cycle G H).
  - intros z [H | H]; case_bool_decide; simplify_eq; lia.
Qed.

Lemma girth_of_acyclic_graph_witness :
  _girth (of_graphe single_edge_graph) = of_gen plusinf
  ∧ _odd_girth (of_graphe single_edge_graph) = of_gen plusinf.
Proof.
  destruct (girth_of_acyclic_graph single_edge_graph eq_refl eq_refl)
    as (Hg & Hodd & _).
  split.
  - apply Hg, single_edge_graph_acyclic.
  - apply Hodd. intros c Hc. by rewrite single_edge_graph_acyclic in Hc.
Defined.

(** ** Biconnectivity and cut vertices *)




(** ** Drawing with a requested style *)

Section DrawingErrors.

Variable E : layout_engine.

Lemma parse_draw_options_single_method (opts : list draw_option) :
  forall st st', single_method st -> parse_draw_options opts st = inl st' ->
                 single_method st'.
Proof.
  induction opts as [| opt opts IH]; intros st st' Hst H; simpl in H.
  - by simplify_eq.
  - destruct Hst as (Hpos & H0 & H1).
    destruct opt as [[[| | | | z] | |] rh | | | | [| | | | z] |];
      try (destruct rh; try discriminate);
      (eapply IH; [| exact H]); unfold single_method; simpl;
      (split; [lia |]);
      (split; [intros Hc; try lia; apply H0; lia |]);
      intros Hc;
      try (destruct H0 as (Hm & Hr & Hcy); [lia |]; rewrite ?Hm, ?Hr, ?Hcy;
           split; intros; congruence);
      try (apply H1; lia).
Qed.



End DrawingErrors.




(** ** Edges added one by one *)

Section AddEdge.

Lemma neighbor_map_nbrs (G : graphe) (x : nat) : neighbor_map G x = nbrs (nodes G) x.
Proof. reflexivity. Qed.

Lemma length_add_neighbor ns k i attr : length (add_neighbor ns k i attr) = length ns.
Proof.
  unfold add_neighbor. destruct (ns !! k); [| reflexivity]. apply length_insert.
Qed.

Lemma strip_add_neighbor ns k i attr :
  strip_vertex <$> add_neighbor ns k i attr = strip_vertex <$> ns.
Proof.
  unfold add_neighbor. destruct (ns !! k) as [x |] eqn:Hk; [| reflexivity].
  rewrite list_fmap_insert. apply list_insert_id.
  rewrite list_lookup_fmap, Hk. reflexivity.
Qed.

Lemma nbrs_add_neighbor ns k i attr x :
  nbrs (add_neighbor ns k i attr) x =
  if bool_decide (x = k ∧ k < length ns)%nat then <[i := attr]> (nbrs ns k)
  else nbrs ns x.
Proof.
  unfold nbrs, add_neighbor. destruct (ns !! k) as [v |] eqn:Hk.
  - pose proof (lookup_lt_Some _ _ _ Hk) as Hlt.
    case_bool_decide as Hx.
    + destruct Hx as [-> _]. rewrite list_lookup_insert_eq by exact Hlt.
      reflexivity.
    + rewrite list_lookup_insert_ne; [reflexivity |]. intros ->. apply Hx. by split.
  - apply lookup_ge_None in Hk.
    rewrite bool_decide_eq_false_2 by lia. reflexivity.
Qed.

Lemma node_count_add_edge G a b w : node_count (add_edge G a b w) = node_count G.
Proof.
  unfold add_edge, node_count. destruct (has_edge G a b); [reflexivity |].
  case_bool_decide; [| reflexivity]. simpl.
  destruct (is_directed G); rewrite ?length_add_neighbor; reflexivity.
Qed.

Lemma strip_add_edge G a b w :
  strip_vertex <$> nodes (add_edge G a b w) = strip_vertex <$> nodes G.
Proof.
  unfold add_edge. destruct (has_edge G a b); [reflexivity |].
  case_bool_decide; [| reflexivity]. simpl.
  destruct (is_directed G); rewrite ?strip_add_neighbor; reflexivity.
Qed.

Lemma graph_name_add_edge G a b w : graph_name (add_edge G a b w) = graph_name G.
Proof.
  unfold add_edge. destruct (has_edge G a b); [reflexivity |].
  case_bool_decide; reflexivity.
Qed.

Lemma is_directed_add_edge G a b w : is_directed (add_edge G a b w) = is_directed G.
Proof. apply is_directed_attributes, attributes_add_edge. Qed.

Lemma has_edge_out_of_range (G : graphe) (i j : nat) :
  (node_count G <= i)%nat -> has_edge G i j = false.
Proof.
  intros H. unfold has_edge, neighbor_map.
  rewrite (lookup_ge_None_2 (nodes G) i H). simpl.
  apply bool_decide_eq_false. rewrite lookup_empty. by intros [? ?].
Qed.

Lemma neighbor_map_add_edge G a b w x y :
  neighbor_map (add_edge G a b w) x !! y =
  if has_edge G a b then neighbor_map G x !! y
  else if bool_decide (a < node_count G ∧ b < node_count G)%nat then
    if bool_decide (x = b ∧ y = a) && negb (is_directed G)
    then Some {[ _GT_ATTRIB_WEIGHT := w ]}
    else if bool_decide (x = a ∧ y = b) then Some {[ _GT_ATTRIB_WEIGHT := w ]}
    else neighbor_map G x !! y
  else neighbor_map G x !! y.
Proof.
  unfold add_edge. destruct (has_edge G a b); [reflexivity |].
  case_bool_decide as Hrange; [| reflexivity].
  destruct Hrange as [Ha Hb]. unfold node_count in *.
  rewrite !neighbor_map_nbrs. simpl.
  destruct (is_directed G); simpl; rewrite ?andb_false_r, ?andb_true_r.
  - rewrite nbrs_add_neighbor.
    case_bool_decide as H1; case_bool_decide as H2; try reflexivity.
    + destruct H1 as [-> _], H2 as [_ ->]. apply lookup_insert_eq.
    + destruct H1 as [-> _]. rewrite lookup_insert_ne; [reflexivity |].
      intros ->. by apply H2.
    + destruct H2 as [-> ->]. exfalso. by apply H1.
  - rewrite nbrs_add_neighbor, length_add_neighbor.
    case_bool_decide as H1; case_bool_decide as H2.
    + destruct H2 as [-> ->]. apply lookup_insert_eq.
    + destruct H1 as [-> _]. rewrite lookup_insert_ne by (intros ->; by apply H2).
      rewrite nbrs_add_neighbor.
      case_bool_decide as H3; case_bool_decide as H4; try reflexivity.
      * destruct H4 as [_ ->]. apply lookup_insert_eq.
      * destruct H3 as [-> _]. rewrite lookup_insert_ne; [reflexivity |].
        intros ->. by apply H4.
      * destruct H4 as [-> _]. exfalso. by apply H3.
    + destruct H2 as [-> _]. exfalso. by apply H1.
    + rewrite nbrs_add_neighbor.
      case_bool_decide as H3; case_bool_decide as H4; try reflexivity.
      * destruct H3 as [-> _], H4 as [_ ->]. apply lookup_insert_eq.
      * destruct H3 as [-> _]. rewrite lookup_insert_ne; [reflexivity |].
        intros ->. by apply H4.
      * destruct H4 as [-> ->]. exfalso. by apply H3.
Qed.

End AddEdge.

(** ** Graphs built by adding a list of edges *)

Section AddEdges.

Lemma fold_left_bind {A B C : Type} (f : A -> C -> A) (g : B -> list C)
    (l : list B) : forall a,
  fold_left f (l ≫= g) a = fold_left (fun a x => fold_left f (g x) a) l a.
Proof.
  induction l as [| x l IH]; intros a; [reflexivity |].
  change ((x :: l) ≫= g) with (g x ++ (l ≫= g)).
  rewrite fold_left_app. apply IH.
Qed.

Lemma fold_left_fmap {A B C : Type} (f : A -> C -> A) (h : B -> C)
    (l : list B) : forall a,
  fold_left f (h <$> l) a = fold_left (fun a x => f a (h x)) l a.
Proof.
  induction l as [| x l IH]; intros a; [reflexivity |]. simpl. apply IH.
Qed.

Lemma fold_left_filter {A B : Type} (f : A -> B -> A) (P : B -> Prop)
    `{forall x, Decision (P x)} (l : list B) : forall a,
  fold_left f (filter P l) a
  = fold_left (fun a x => if bool_decide (P x) then f a x else a) l a.
Proof.
  induction l as [| x l IH]; intros a; [reflexivity |].
  rewrite filter_cons. simpl. case_bool_decide.
  - rewrite decide_True by done. simpl. apply IH.
  - rewrite decide_False by done. apply IH.
Qed.

Lemma fold_left_ext {A B : Type} (f g : A -> B -> A) (l : list B) :
  (forall a x, f a x = g a x) -> forall a, fold_left f l a = fold_left g l a.
Proof.
  intros H. induction l as [| x l IH]; intros a; [reflexivity |].
  simpl. rewrite H. apply IH.
Qed.

Lemma elem_of_pairs_of n row i j :
  (i, j) ∈ pairs_of n row <-> (i < n)%nat ∧ j ∈ row i.
Proof.
  unfold pairs_of. rewrite list_elem_of_bind. split.
  - intros (a & Hin & Ha). apply list_elem_of_fmap in Hin as (b & Heq & Hb).
    simplify_eq. apply elem_of_seq in Ha. split; [lia | exact Hb].
  - intros [Hi Hj]. exists i. split.
    + apply list_elem_of_fmap. by exists j.
    + apply elem_of_seq. lia.
Qed.

Lemma underlying_add_edges (G : graphe) :
  underlying G
  = add_edges (same_vertices G false) (pairs_of (node_count G) (adjacent_nodes G)).
Proof.
  unfold underlying, add_edges, pairs_of. rewrite fold_left_bind.
  apply fold_left_ext. intros U i. by rewrite fold_left_fmap.
Qed.

Lemma complement_add_edges (G : graphe) :
  complement G
  = add_edges (same_vertices G (is_directed G))
      (filter (missing_edge G)
              (pairs_of (node_count G) (fun _ => seq 0 (node_count G)))).
Proof.
  unfold complement, add_edges, pairs_of.
  rewrite fold_left_filter, fold_left_bind.
  apply fold_left_ext. intros U i. rewrite fold_left_fmap.
  apply fold_left_ext. intros C j.
  destruct (has_edge G i j) eqn:Hij; simpl.
  - rewrite andb_false_r. rewrite bool_decide_eq_false_2; [reflexivity |].
    intros [_ ?]. simpl in *. congruence.
  - rewrite andb_true_r. case_bool_decide as H1.
    + rewrite bool_decide_eq_true_2; [reflexivity | by split].
    + rewrite bool_decide_eq_false_2; [reflexivity |]. intros [Hne _].
      by apply Hne.
Qed.

Lemma has_edge_add_edge G a b w i j :
  (is_directed G = false -> symmetric G) ->
  has_edge (add_edge G a b w) i j = true <->
  has_edge G i j = true
  ∨ ((a < node_count G)%nat ∧ (b < node_count G)%nat
     ∧ ((i = a ∧ j = b) ∨ (is_directed G = false ∧ i = b ∧ j = a))).
Proof.
  intros Hsym.
  assert (is_Some (neighbor_map G i !! j) <-> has_edge G i j = true) as Hold.
  { unfold has_edge. by rewrite bool_decide_eq_true. }
  unfold has_edge at 1. rewrite bool_decide_eq_true, neighbor_map_add_edge.
  destruct (has_edge G a b) eqn:Hab.
  - rewrite Hold. split; [by left |].
    intros [H | (_ & _ & [[-> ->] | (Hd & -> & ->)])]; [exact H | exact Hab |].
    by rewrite (Hsym Hd).
  - case_bool_decide as Hrange.
    + destruct (is_directed G) eqn:Hd; simpl; rewrite ?andb_false_r, ?andb_true_r.
      * case_bool_decide as H1.
        -- split; [| by eexists]. intros _. right. destruct Hrange. tauto.
        -- rewrite Hold. split; [by left |].
           intros [H | (_ & _ & [H | (? & _)])]; [exact H | tauto | discriminate].
      * case_bool_decide as H1; [| case_bool_decide as H2].
        -- split; [| by eexists]. intros _. right. destruct Hrange. tauto.
        -- split; [| by eexists]. intros _. right. destruct Hrange. tauto.
        -- rewrite Hold. split; [by left |].
           intros [H | (_ & _ & [H | (_ & H)])]; [exact H | tauto | tauto].
    + rewrite Hold. split; [by left |].
      intros [H | (Ha & Hb & _)]; [exact H |]. exfalso. by apply Hrange.
Qed.

Lemma symmetric_add_edge G a b w :
  is_directed G = false -> symmetric G -> symmetric (add_edge G a b w).
Proof.
  intros Hd Hsym i j. apply eq_true_iff_eq.
  rewrite !has_edge_add_edge by (intros _; exact Hsym).
  rewrite (Hsym i j). clear Hsym. intuition.
Qed.

Lemma unit_weights_add_edge G a b :
  unit_weights G -> unit_weights (add_edge G a b (gen_int 1)).
Proof.
  intros H i j attr. rewrite neighbor_map_add_edge.
  destruct (has_edge G a b); [apply H |].
  case_bool_decide; [| apply H].
  destruct (_ && _); [by intros [= <-] |].
  case_bool_decide; [by intros [= <-] | apply H].
Qed.

Lemma same_frame_add_edges (U : graphe) (es : list (nat * nat)) :
  same_frame U (add_edges U es).
Proof.
  unfold add_edges.
  apply (fold_left_invariant (same_frame U)); [| by constructor].
  intros G e [H1 H2 H3 H4]. constructor.
  - by rewrite node_count_add_edge.
  - by rewrite strip_add_edge.
  - by rewrite attributes_add_edge.
  - by rewrite graph_name_add_edge.
Qed.

Lemma is_directed_add_edges U es : is_directed (add_edges U es) = is_directed U.
Proof. apply is_directed_attributes, same_frame_add_edges. Qed.

Lemma unit_weights_add_edges U es : unit_weights U -> unit_weights (add_edges U es).
Proof.
  intros H. unfold add_edges.
  apply (fold_left_invariant unit_weights); [| exact H].
  intros G e HG. by apply unit_weights_add_edge.
Qed.

Lemma symmetric_add_edges U es :
  is_directed U = false -> symmetric U -> symmetric (add_edges U es).
Proof.
  intros Hd H. unfold add_edges.
  apply (fold_left_invariant
           (fun G => is_directed G = false ∧ symmetric G)); [| by split].
  intros G e [HdG HG]. split.
  - by rewrite is_directed_add_edge.
  - by apply symmetric_add_edge.
Qed.

Lemma has_edge_add_edges (es : list (nat * nat)) : forall U i j,
  (is_directed U = false -> symmetric U) ->
  has_edge (add_edges U es) i j = true <->
  has_edge U i j = true
  ∨ ∃ a b, (a, b) ∈ es ∧ (a < node_count U)%nat ∧ (b < node_count U)%nat
           ∧ ((i = a ∧ j = b) ∨ (is_directed U = false ∧ i = b ∧ j = a)).
Proof.
  induction es as [| [a b] es IH]; intros U i j Hsym.
  - simpl. split; [by left |]. intros [H | (a & b & H & _)]; [exact H |].
    by apply elem_of_nil in H.
  - change (add_edges U ((a, b) :: es))
      with (add_edges (add_edge U a b (gen_int 1)) es).
    rewrite IH.
    2:{ rewrite is_directed_add_edge. intros Hd.
        apply symmetric_add_edge; [exact Hd | by apply Hsym]. }
    rewrite has_edge_add_edge by exact Hsym.
    rewrite node_count_add_edge, is_directed_add_edge.
    split.
    + intros [[H | H] | (a' & b' & Hin & H)].
      * by left.
      * right. exists a, b. split; [left | exact H].
      * right. exists a', b'. split; [by right | exact H].
    + intros [H | (a' & b' & Hin & H)]; [by left; left |].
      apply elem_of_cons in Hin as [Heq | Hin].
      * simplify_eq. left. by right.
      * right. by exists a', b'.
Qed.

End AddEdges.

(** ** The underlying graph and the complement *)

Section Transformations.

Lemma strip_vertex_idemp (x : vertex) : strip_vertex (strip_vertex x) = strip_vertex x.
Proof. reflexivity. Qed.

Lemma nbrs_strip (ns : list vertex) (i : nat) : nbrs (strip_vertex <$> ns) i = ∅.
Proof.
  unfold nbrs. rewrite list_lookup_fmap. by destruct (ns !! i).
Qed.

Lemma has_edge_same_vertices G d i j : has_edge (same_vertices G d) i j = false.
Proof.
  unfold has_edge. rewrite neighbor_map_nbrs. simpl. rewrite nbrs_strip.
  apply bool_decide_eq_false. rewrite lookup_empty. by intros [? ?].
Qed.

Lemma node_count_same_vertices G d : node_count (same_vertices G d) = node_count G.
Proof. unfold node_count. simpl. apply length_fmap. Qed.

Lemma is_directed_same_vertices G d : is_directed (same_vertices G d) = d.
Proof. apply is_directed_set_directed. Qed.

Lemma symmetric_same_vertices G d : symmetric (same_vertices G d).
Proof. intros i j. by rewrite !has_edge_same_vertices. Qed.

Lemma unit_weights_same_vertices G d : unit_weights (same_vertices G d).
Proof.
  intros i j attr. rewrite neighbor_map_nbrs. simpl. rewrite nbrs_strip.
  by rewrite lookup_empty.
Qed.

Lemma has_edge_in_range (G : graphe) (i j : nat) :
  has_edge G i j = true -> (i < node_count G)%nat.
Proof.
  intros H. destruct (decide (i < node_count G)%nat) as [| Hge]; [done |].
  rewrite has_edge_out_of_range in H by lia. discriminate.
Qed.

(** The edges of the underlying graph: the arcs of [G] between vertices
    of [G], in either direction. *)
Lemma has_edge_underlying (G : graphe) (i j : nat) :
  has_edge (underlying G) i j = true <->
  (i < node_count G)%nat ∧ (j < node_count G)%nat
  ∧ (has_edge G i j = true ∨ has_edge G j i = true).
Proof.
  rewrite underlying_add_edges, has_edge_add_edges
    by (intros _; apply symmetric_same_vertices).
  rewrite has_edge_same_vertices, node_count_same_vertices,
    is_directed_same_vertices.
  split.
  - intros [H | (a & b & Hin & Ha & Hb & H)]; [discriminate |].
    apply elem_of_pairs_of in Hin as [_ Hin]. apply has_edge_adjacent in Hin.
    destruct H as [[-> ->] | (_ & -> & ->)]; tauto.
  - intros (Hi & Hj & [H | H]); right.
    + exists i, j. repeat split; try done.
      * apply elem_of_pairs_of. split; [done |]. by apply has_edge_adjacent.
      * by left.
    + exists j, i. repeat split; try done.
      * apply elem_of_pairs_of. split; [done |]. by apply has_edge_adjacent.
      * by right.
Qed.

Lemma symmetric_underlying (G : graphe) : symmetric (underlying G).
Proof.
  rewrite underlying_add_edges. apply symmetric_add_edges.
  - apply is_directed_same_vertices.
  - apply symmetric_same_vertices.
Qed.

Lemma unit_weights_underlying (G : graphe) : unit_weights (underlying G).
Proof.
  rewrite underlying_add_edges. apply unit_weights_add_edges,
    unit_weights_same_vertices.
Qed.

Lemma node_count_underlying (G : graphe) : node_count (underlying G) = node_count G.
Proof.
  rewrite underlying_add_edges, (frame_count _ _ (same_frame_add_edges _ _)).
  apply node_count_same_vertices.
Qed.

(** Two graphs with the same frame, the same edges and default weights
    only are the same graph. *)
Lemma neighbor_map_unit_eq (G1 G2 : graphe) (i : nat) :
  unit_weights G1 -> unit_weights G2 ->
  (forall j, has_edge G1 i j = has_edge G2 i j) ->
  neighbor_map G1 i = neighbor_map G2 i.
Proof.
  intros H1 H2 Hedge. apply map_eq. intros j. specialize (Hedge j).
  unfold has_edge in Hedge.
  destruct (neighbor_map G1 i !! j) as [a1 |] eqn:E1,
           (neighbor_map G2 i !! j) as [a2 |] eqn:E2.
  - by rewrite (H1 _ _ _ E1), (H2 _ _ _ E2).
  - rewrite bool_decide_eq_true_2 in Hedge by (by eexists).
    rewrite bool_decide_eq_false_2 in Hedge by (by intros [? ?]). discriminate.
  - rewrite bool_decide_eq_false_2 in Hedge by (by intros [? ?]).
    rewrite bool_decide_eq_true_2 in Hedge by (by eexists). discriminate.
  - reflexivity.
Qed.

Lemma vertex_eq (x y : vertex) :
  strip_vertex x = strip_vertex y ->
  m_neighbor_attributes x = m_neighbor_attributes y -> x = y.
Proof.
  destruct x, y. unfold strip_vertex. simpl. intros [= -> ->] ->. reflexivity.
Qed.

Lemma graphe_eq (G1 G2 : graphe) :
  attributes G1 = attributes G2 ->
  graph_name G1 = graph_name G2 ->
  strip_vertex <$> nodes G1 = strip_vertex <$> nodes G2 ->
  (forall i, neighbor_map G1 i = neighbor_map G2 i) ->
  G1 = G2.
Proof.
  destruct G1 as [ns1 at1 nm1], G2 as [ns2 at2 nm2]. simpl.
  intros -> -> Hstrip Hnbrs. f_equal.
  apply list_eq. intros i. specialize (Hnbrs i).
  unfold neighbor_map in Hnbrs. simpl in Hnbrs.
  assert (strip_vertex <$> ns1 !! i = strip_vertex <$> ns2 !! i) as Hi.
  { by rewrite <- !list_lookup_fmap, Hstrip. }
  destruct (ns1 !! i) as [x |], (ns2 !! i) as [y |]; simpl in *;
    try discriminate; [| reflexivity].
  f_equal. apply vertex_eq; [congruence | exact Hnbrs].
Qed.

Lemma strip_nodes_underlying (G : graphe) :
  strip_vertex <$> nodes (underlying G) = strip_vertex <$> nodes G.
Proof.
  rewrite underlying_add_edges, (frame_strip _ _ (same_frame_add_edges _ _)).
  simpl. rewrite <- list_fmap_compose. reflexivity.
Qed.

Lemma underlying_idempotent (G : graphe) :
  underlying (underlying G) = underlying G.
Proof.
  apply graphe_eq.
  - rewrite !underlying_add_edges.
    by rewrite !(frame_attributes _ _ (same_frame_add_edges _ _)).
  - rewrite !underlying_add_edges.
    by rewrite !(frame_name _ _ (same_frame_add_edges _ _)).
  - by rewrite !strip_nodes_underlying.
  - intros i. apply neighbor_map_unit_eq; try apply unit_weights_underlying.
    intros j. apply eq_true_iff_eq.
    rewrite (has_edge_underlying (underlying G)), node_count_underlying.
    rewrite (symmetric_underlying G j i). split.
    + intros (_ & _ & [H | H]); exact H.
    + intros H. pose proof H as H'. apply has_edge_underlying in H'. tauto.
Qed.

End Transformations.

Section Complement.

Fixpoint gen_eqb_refl (a : gen) : gen_eqb a a = true.
Proof.
  destruct a as [z | s | st l | k r | l |]; simpl.
  - by apply bool_decide_eq_true.
  - by apply bool_decide_eq_true.
  - rewrite bool_decide_eq_true_2 by reflexivity. simpl.
    induction l as [| x l IH]; [reflexivity |].
    by rewrite gen_eqb_refl, IH.
  - rewrite bool_decide_eq_true_2 by reflexivity. simpl. apply gen_eqb_refl.
  - induction l as [| x l IH]; [reflexivity |].
    by rewrite gen_eqb_refl, IH.
  - reflexivity.
Qed.

Lemma vecteur_eqb_refl (v : vecteur) : vecteur_eqb v v = true.
Proof.
  induction v as [| x v IH]; [reflexivity |]. simpl.
  by rewrite gen_eqb_refl, IH.
Qed.

Lemma vertices_strip (G1 G2 : graphe) :
  strip_vertex <$> nodes G1 = strip_vertex <$> nodes G2 ->
  vertices G1 = vertices G2.
Proof.
  intros H. unfold vertices.
  change (m_label <$> nodes G1) with ((m_label ∘ strip_vertex) <$> nodes G1).
  change (m_label <$> nodes G2) with ((m_label ∘ strip_vertex) <$> nodes G2).
  by rewrite !list_fmap_compose, H.
Qed.

Lemma node_count_complement (G : graphe) : node_count (complement G) = node_count G.
Proof.
  rewrite complement_add_edges, (frame_count _ _ (same_frame_add_edges _ _)).
  apply node_count_same_vertices.
Qed.

Lemma is_directed_complement (G : graphe) :
  is_directed (complement G) = is_directed G.
Proof.
  rewrite complement_add_edges, is_directed_add_edges.
  apply is_directed_same_vertices.
Qed.

Lemma is_weighted_complement (G : graphe) : is_weighted (complement G) = false.
Proof.
  rewrite complement_add_edges. unfold is_weighted.
  rewrite (frame_attributes _ _ (same_frame_add_edges _ _)). simpl.
  unfold set_directed, set_graph_attribute. simpl.
  rewrite lookup_insert_ne by discriminate. by rewrite lookup_empty.
Qed.

Lemma vertices_complement (G : graphe) : vertices (complement G) = vertices G.
Proof.
  apply vertices_strip.
  rewrite complement_add_edges, (frame_strip _ _ (same_frame_add_edges _ _)).
  simpl. rewrite <- list_fmap_compose. reflexivity.
Qed.

(** The edges of the complement: the pairs of distinct vertices that are
    not joined in [G] (in one of the two directions when [G] is
    undirected). *)
Lemma has_edge_complement (G : graphe) (i j : nat) :
  has_edge (complement G) i j = true <->
  (i < node_count G)%nat ∧ (j < node_count G)%nat ∧ i ≠ j
  ∧ (has_edge G i j = false ∨ (is_directed G = false ∧ has_edge G j i = false)).
Proof.
  rewrite complement_add_edges, has_edge_add_edges
    by (intros _; apply symmetric_same_vertices).
  rewrite has_edge_same_vertices, node_count_same_vertices,
    is_directed_same_vertices.
  split.
  - intros [H | (a & b & Hin & Ha & Hb & H)]; [discriminate |].
    apply list_elem_of_filter in Hin as [[Hne Hmiss] _]. simpl in *.
    destruct H as [[-> ->] | (Hd & -> & ->)]; repeat split; auto.
  - intros (Hi & Hj & Hne & H). right.
    destruct H as [H | [Hd H]].
    + exists i, j. repeat split; try done; [| by left].
      apply list_elem_of_filter. split; [by split |].
      apply elem_of_pairs_of. split; [done |]. apply elem_of_seq. lia.
    + exists j, i. repeat split; try done; [| by right].
      apply list_elem_of_filter. split; [split; [by apply not_eq_sym | done] |].
      apply elem_of_pairs_of. split; [done |]. apply elem_of_seq. lia.
Qed.

Lemma is_simple_spec (G : graphe) :
  is_simple G = true ->
  is_directed G = false ∧ is_weighted G = false
  ∧ forall i j, (i < node_count G)%nat -> (j < node_count G)%nat ->
                has_edge G i j = has_edge G j i
                ∧ (has_edge G i j = true -> i ≠ j).
Proof.
  unfold is_simple. intros H.
  apply andb_true_iff in H as [H Hall]. apply andb_true_iff in H as [Hd Hw].
  apply negb_true_iff in Hd, Hw. repeat split; try done.
  - rewrite forallb_forall in Hall.
    specialize (Hall i). rewrite forallb_forall in Hall.
    assert (In i (seq 0 (node_count G))) as Hi by (apply in_seq; lia).
    assert (In j (seq 0 (node_count G))) as Hj by (apply in_seq; lia).
    specialize (Hall Hi j Hj). apply andb_true_iff in Hall as [Hs _].
    by apply bool_decide_eq_true in Hs.
  - intros Hij ->.
    rewrite forallb_forall in Hall.
    specialize (Hall j). rewrite forallb_forall in Hall.
    assert (In j (seq 0 (node_count G))) as Hj by (apply in_seq; lia).
    specialize (Hall Hj j Hj). apply andb_true_iff in Hall as [_ Hl].
    rewrite Hij, bool_decide_eq_true_2 in Hl by reflexivity. discriminate.
Qed.

Lemma complement_involution (G : graphe) :
  is_simple G = true -> is_equal (complement (complement G)) G = true.
Proof.
  intros Hsimple. apply is_simple_spec in Hsimple as (Hd & Hw & Hedges).
  unfold is_equal.
  rewrite !is_directed_complement, !node_count_complement, is_weighted_complement,
    !vertices_complement, Hw, vecteur_eqb_refl.
  rewrite !bool_decide_eq_true_2 by reflexivity. simpl.
  apply forallb_forall. intros i Hi. apply forallb_forall. intros j Hj.
  apply in_seq in Hi, Hj. rewrite andb_true_r. apply bool_decide_eq_true.
  destruct (Hedges i j) as [Hsym Hloop]; [lia | lia |].
  apply eq_true_iff_eq.
  rewrite has_edge_complement, node_count_complement, is_directed_complement.
  assert (forall a b, (a < node_count G)%nat -> (b < node_count G)%nat -> a ≠ b ->
                      has_edge (complement G) a b = negb (has_edge G a b)) as HC.
  { intros a b Ha Hb Hne. apply eq_true_iff_eq.
    rewrite has_edge_complement, negb_true_iff.
    destruct (Hedges a b Ha Hb) as [Hab _]. rewrite <- Hab. tauto. }
  split.
  - intros (_ & _ & Hne & H).
    rewrite !HC in H by (done || lia || by apply not_eq_sym).
    rewrite <- Hsym in H. rewrite !negb_false_iff in H. tauto.
  - intros H. specialize (Hloop H). repeat split; try lia.
    left. rewrite HC by (done || lia). by rewrite H.
Qed.

End Complement.

(** C7. For every graph G, [underlying_graph] applied twice gives the
    same result as applied once (the same graph, so in particular one
    that [graph_equal] accepts; an argument that is not a graph gives the
    same error both times); and for every simple graph G, the complement
    of the complement is equal to G for [graph_equal]. *)
Theorem underlying_idempotent_complement_involutive (g : value) (G : graphe) :
  _underlying_graph (_underlying_graph g) = _underlying_graph g
  ∧ (is_simple G = true ->
     _graph_equal (_graph_complement (_graph_complement (of_graphe G)))
                  (of_graphe G) = of_gen VRAI).
Proof.
  split.
  - destruct g as [x | H | e]; simpl; [reflexivity | | reflexivity].
    by rewrite underlying_idempotent.
  - intros Hsimple. simpl. by rewrite complement_involution.
Qed.

Lemma underlying_idempotent_complement_involutive_witness :
  _underlying_graph (_underlying_graph (of_graphe path_3))
  = _underlying_graph (of_graphe path_3)
  ∧ _graph_equal (_graph_complement (_graph_complement (of_graphe path_3)))
                 (of_graphe path_3) = of_gen VRAI.
Proof.
  destruct (underlying_idempotent_complement_involutive
              (of_graphe path_3) path_3) as [Hu Hc].
  split; [exact Hu |]. apply Hc. vm_compute. reflexivity.
Defined.

(** ** Matchings *)

Section MatchingValidity.

Lemma endpoints_cons e matching :
  endpoints (e :: matching) = e.1 :: e.2 :: endpoints matching.
Proof. reflexivity. Qed.

Lemma elem_of_endpoints matching x :
  x ∈ endpoints matching <-> ∃ e, e ∈ matching ∧ (x = e.1 ∨ x = e.2).
Proof.
  unfold endpoints. rewrite list_elem_of_bind. split.
  - intros (e & Hx & He). exists e. split; [done |].
    apply elem_of_cons in Hx as [-> | Hx]; [by left |].
    apply list_elem_of_singleton in Hx as ->. by right.
  - intros (e & He & [-> | ->]); exists e; (split; [| done]).
    + left.
    + right. left.
Qed.

Lemma mate_None_iff matching v : mate matching v = None <-> v ∉ endpoints matching.
Proof.
  induction matching as [| [a b] matching IH].
  - split; [intros _; apply not_elem_of_nil | done].
  - rewrite endpoints_cons. cbn [mate fst snd]. rewrite !not_elem_of_cons.
    repeat case_bool_decide; subst; split; try done; try tauto.
    intros Hm. split; [done |]. split; [done |]. by apply IH.
Qed.

Lemma mate_Some_elem matching a b :
  mate matching a = Some b -> (a, b) ∈ matching ∨ (b, a) ∈ matching.
Proof.
  induction matching as [| [x y] matching IH]; simpl; [done |].
  case_bool_decide as H1; [| case_bool_decide as H2].
  - intros [= ->]. subst. left. left.
  - intros [= ->]. subst. right. left.
  - intros H. destruct (IH H); [left | right]; by right.
Qed.

Lemma mate_filter matching e x :
  x ≠ e.1 -> x ≠ e.2 ->
  mate (filter (fun e' => e' ≠ e) matching) x = mate matching x.
Proof.
  intros H1 H2. induction matching as [| [a b] matching IH]; [reflexivity |].
  rewrite filter_cons. destruct (decide ((a, b) ≠ e)) as [Hne | Heq]; simpl.
  - by rewrite IH.
  - apply dec_stable in Heq. subst e. simpl in *.
    rewrite !bool_decide_eq_false_2 by congruence. exact IH.
Qed.

Lemma endpoints_filter_sublist (P : ipair -> Prop) `{forall e, Decision (P e)}
    matching :
  endpoints (filter P matching) `sublist_of` endpoints matching.
Proof.
  induction matching as [| e matching IH]; [done |].
  rewrite filter_cons, endpoints_cons. destruct (decide (P e)).
  - rewrite endpoints_cons. by do 2 apply sublist_skip.
  - by do 2 apply sublist_cons.
Qed.

(** Once the pair [e] of a matching is taken out, its end points are
    exposed. *)
Lemma endpoints_filter_out matching e x :
  NoDup (endpoints matching) -> e ∈ matching ->
  x ∈ endpoints (filter (fun e' => e' ≠ e) matching) -> x ≠ e.1 ∧ x ≠ e.2.
Proof.
  intros Hnd He Hx.
  apply elem_of_endpoints in Hx as (e' & He' & Hx).
  apply list_elem_of_filter in He' as [Hne He'].
  assert (forall y, (y = e.1 ∨ y = e.2) -> (y = e'.1 ∨ y = e'.2) -> False) as Hdisj.
  { clear x Hx. intros y Hy Hy'.
    induction matching as [| h matching IH]; [by apply elem_of_nil in He |].
    rewrite endpoints_cons in Hnd.
    apply NoDup_cons in Hnd as [Hh1 Hnd]. apply NoDup_cons in Hnd as [Hh2 Hnd].
    assert (forall g z, g ∈ matching -> (z = g.1 ∨ z = g.2) ->
                        z ≠ h.1 ∧ z ≠ h.2) as Hfresh.
    { intros g z Hg Hz.
      assert (z ∈ endpoints matching) by (apply elem_of_endpoints; eauto).
      split; intros ->; [apply Hh1 | apply Hh2]; by repeat constructor. }
    apply elem_of_cons in He as [-> | He], He' as [-> | He'].
    - by apply Hne.
    - destruct (Hfresh e' y He' Hy'). tauto.
    - destruct (Hfresh e y He Hy). tauto.
    - by apply IH. }
  split; intros Heq; apply (Hdisj x); auto.
Qed.

Lemma make_edge_cases (a b : nat) :
  a ≠ b ->
  (make_edge a b = (a, b) ∧ (a < b)%nat) ∨ (make_edge a b = (b, a) ∧ (b < a)%nat).
Proof.
  intros Hne. unfold make_edge. case_bool_decide; [left | right]; split; try done; lia.
Qed.

Lemma matched_make_edge G matching a b :
  is_matching G matching -> mate matching a = Some b ->
  a ≠ b ∧ make_edge a b ∈ matching.
Proof.
  intros [Hnd Hall] Hmate. rewrite Forall_forall in Hall.
  destruct (mate_Some_elem _ _ _ Hmate) as [Hin | Hin];
    pose proof (Hall _ Hin) as [[Hlt _] _]; simpl in Hlt;
    (split; [lia |]); unfold make_edge.
  - rewrite !bool_decide_eq_true_2 by lia. exact Hin.
  - rewrite !bool_decide_eq_false_2 by lia. exact Hin.
Qed.

End MatchingValidity.

Section Augmentation.

Variable G : graphe.

Lemma is_matching_nil : is_matching G [].
Proof. split; [apply NoDup_nil_2 | apply Forall_nil_2]. Qed.

Lemma make_edge_distinct (v0 v1 v2 : nat) :
  v0 ≠ v2 -> make_edge v0 v1 ≠ make_edge v1 v2.
Proof.
  intros Hne. unfold make_edge. repeat case_bool_decide; intros [=]; lia.
Qed.

(** Two steps of [augment]: the edge [v0-v1] enters the matching and the
    matched edge [v1-v2] leaves it, after which [v2] is exposed and the
    other vertices keep their mates. *)
Lemma augment_step (matching : ipairs) (v0 v1 v2 : nat) :
  is_matching G matching ->
  v0 ≠ v1 -> v0 ≠ v2 -> v1 ≠ v2 ->
  (v0 < node_count G)%nat -> (v1 < node_count G)%nat ->
  mate matching v0 = None -> mate matching v1 = Some v2 ->
  has_edge G v0 v1 = true ->
  let matching' :=
    filter (fun e => e ≠ make_edge v1 v2) (make_edge v0 v1 :: matching) in
  is_matching G matching' ∧ mate matching' v2 = None
  ∧ (forall x, x ≠ v0 -> x ≠ v1 -> x ≠ v2 -> mate matching' x = mate matching x).
Proof.
  intros Hm H01 H02 H12 Hv0 Hv1 Hexp Hmate Hedge matching'.
  destruct (matched_make_edge G _ _ _ Hm Hmate) as [_ He12].
  destruct Hm as [Hnd Hall].
  assert (matching' = make_edge v0 v1 :: filter (fun e => e ≠ make_edge v1 v2) matching)
    as Heq.
  { unfold matching'. rewrite filter_cons, decide_True; [reflexivity |].
    by apply make_edge_distinct. }
  apply mate_None_iff in Hexp.
  set (rest := filter (fun e => e ≠ make_edge v1 v2) matching) in *.
  assert (forall x, x ∈ endpoints rest -> x ∈ endpoints matching) as Hsub.
  { intros x Hx. eapply elem_of_sublist; [exact Hx |].
    apply endpoints_filter_sublist. }
  assert (forall x, x ∈ endpoints rest -> x ≠ v1 ∧ x ≠ v2) as Hout.
  { intros x Hx.
    destruct (endpoints_filter_out matching _ x Hnd He12 Hx) as [Hx1 Hx2].
    destruct (make_edge_cases v1 v2 H12) as [[Hc _] | [Hc _]];
      rewrite Hc in Hx1, Hx2; simpl in *; done. }
  assert (NoDup (endpoints rest)) as Hnd'.
  { eapply sublist_NoDup; [exact Hnd | apply endpoints_filter_sublist]. }
  assert (v0 ∉ endpoints rest) as Hv0' by (intros Hx; by apply Hexp, Hsub).
  assert (v1 ∉ endpoints rest) as Hv1'.
  { intros Hx. by destruct (Hout _ Hx). }
  assert (v2 ∉ endpoints rest) as Hv2'.
  { intros Hx. by destruct (Hout _ Hx). }
  rewrite Heq. split; [split |]; [| | split].
  - rewrite endpoints_cons.
    destruct (make_edge_cases v0 v1 H01) as [[-> _] | [-> _]]; simpl;
      repeat (apply NoDup_cons; split); try done; rewrite ?not_elem_of_cons;
      by auto.
  - apply Forall_cons. split.
    + destruct (make_edge_cases v0 v1 H01) as [[-> Hlt] | [-> Hlt]]; simpl;
        (split; [lia | by auto]).
    + apply Forall_forall. intros e He. unfold rest in He.
      apply list_elem_of_filter in He as [_ He].
      rewrite Forall_forall in Hall. by apply Hall.
  - apply mate_None_iff. rewrite endpoints_cons.
    destruct (make_edge_cases v0 v1 H01) as [[-> _] | [-> _]]; simpl;
      rewrite !not_elem_of_cons; by auto.
  - intros x Hx0 Hx1 Hx2.
    assert (mate rest x = mate matching x) as Hrest.
    { unfold rest. apply mate_filter;
        destruct (make_edge_cases v1 v2 H12) as [[-> _] | [-> _]]; simpl; done. }
    destruct (make_edge_cases v0 v1 H01) as [[-> _] | [-> _]]; simpl;
      rewrite !bool_decide_eq_false_2 by congruence; exact Hrest.
Qed.

Lemma last_elem_of (l : list nat) : forall a d, List.last (a :: l) d ∈ a :: l.
Proof.
  induction l as [| b l IH]; intros a d; [left |].
  change (List.last (a :: b :: l) d) with (List.last (b :: l) d).
  right. apply IH.
Qed.

Lemma alternates_cons (matching : ipairs) (a b : nat) (path : list nat)
    (free : bool) :
  alternates G matching (a :: b :: path) free =
  (if free then has_edge G a b else bool_decide (mate matching a = Some b))
  && alternates G matching (b :: path) (negb free).
Proof. reflexivity. Qed.

Lemma alternates_ext (matching matching' : ipairs) (path : list nat) :
  (forall x, x ∈ path -> mate matching' x = mate matching x) ->
  forall free, alternates G matching' path free = alternates G matching path free.
Proof.
  induction path as [| a path IH]; intros Hext free; [reflexivity |].
  destruct path as [| b path]; [reflexivity |].
  rewrite !alternates_cons. rewrite IH by (intros x Hx; apply Hext; by right).
  destruct free; [reflexivity |]. rewrite Hext by left. reflexivity.
Qed.

(** Augmenting along an augmenting path gives a matching again. *)
Lemma augment_is_matching (k : nat) : forall (path : list nat) (matching : ipairs),
  length path = (2 * S k)%nat ->
  is_matching G matching ->
  NoDup path ->
  Forall (fun v => v < node_count G)%nat path ->
  mate matching (List.hd 0%nat path) = None ->
  mate matching (List.last path 0%nat) = None ->
  alternates G matching path true = true ->
  is_matching G (augment matching path true).
Proof.
  induction k as [| k IH]; intros path matching Hlen Hm Hnd Hrange Hfirst Hlast Halt.
  - destruct path as [| v0 [| v1 [| ? ?]]]; try (simpl in Hlen; lia).
    simpl in *. apply andb_true_iff in Halt as [Hedge _].
    apply NoDup_cons in Hnd as [H01 _]. rewrite not_elem_of_cons in H01.
    destruct H01 as [H01 _].
    apply Forall_cons in Hrange as [Hv0 Hrange].
    apply Forall_cons in Hrange as [Hv1 _].
    apply mate_None_iff in Hfirst, Hlast.
    destruct Hm as [HndM Hall]. split.
    + rewrite endpoints_cons.
      destruct (make_edge_cases v0 v1 H01) as [[-> _] | [-> _]]; simpl;
        repeat (apply NoDup_cons; split); try done; rewrite ?not_elem_of_cons;
        by auto.
    + apply Forall_cons. split; [| exact Hall].
      destruct (make_edge_cases v0 v1 H01) as [[-> Hlt] | [-> Hlt]]; simpl;
        (split; [lia | by auto]).
  - destruct path as [| v0 [| v1 [| v2 [| v3 path]]]];
      try (simpl in Hlen; lia).
    change (augment matching (v0 :: v1 :: v2 :: v3 :: path) true)
      with (augment (filter (fun e => e ≠ make_edge v1 v2)
                            (make_edge v0 v1 :: matching))
                    (v2 :: v3 :: path) true).
    rewrite !alternates_cons in Halt.
    apply andb_true_iff in Halt as [Hedge Halt].
    apply andb_true_iff in Halt as [Hmate Halt].
    apply andb_true_iff in Halt as [Hedge' Halt].
    apply bool_decide_eq_true in Hmate. simpl negb in *.
    apply NoDup_cons in Hnd as [H0 Hnd]. apply NoDup_cons in Hnd as [H1 Hnd].
    pose proof Hnd as Hnd2. apply NoDup_cons in Hnd2 as [H2 _].
    apply Forall_cons in Hrange as [Hv0 Hrange].
    apply Forall_cons in Hrange as [Hv1 Hrange].
    simpl in Hfirst.
    assert (v0 ≠ v1) as H01 by (intros ->; apply H0; left).
    assert (v0 ≠ v2) as H02 by (intros ->; apply H0; right; left).
    assert (v1 ≠ v2) as H12 by (intros ->; apply H1; left).
    pose proof (augment_step matching v0 v1 v2 Hm H01 H02 H12 Hv0 Hv1 Hfirst
                  Hmate Hedge) as Hstep.
    cbv zeta in Hstep. destruct Hstep as (Hm' & Hexp & Hothers).
    assert (forall x, x ∈ v3 :: path ->
              mate (filter (fun e => e ≠ make_edge v1 v2)
                      (make_edge v0 v1 :: matching)) x = mate matching x) as Hext.
    { intros x Hx. apply Hothers; intros ->.
      - apply H0. by do 2 right.
      - apply H1. by right.
      - by apply H2. }
    apply IH; try done.
    + simpl in *. lia.
    + change (List.last (v2 :: v3 :: path) 0%nat)
        with (List.last (v3 :: path) 0%nat).
      change (List.last (v0 :: v1 :: v2 :: v3 :: path) 0%nat)
        with (List.last (v3 :: path) 0%nat) in Hlast.
      rewrite Hext; [exact Hlast |]. apply last_elem_of.
    + rewrite alternates_cons, Hedge', andb_true_l. simpl negb.
      rewrite (alternates_ext matching) by exact Hext. exact Halt.
Qed.

End Augmentation.

Section MaximumMatching.

Variable G : graphe.

Lemma vertex_sequences_spec (n k : nat) (c : list nat) :
  c ∈ vertex_sequences n k -> length c = k ∧ Forall (fun v => v < n)%nat c.
Proof.
  revert c. induction k as [| k IH]; intros c Hc; simpl in Hc.
  - apply list_elem_of_singleton in Hc as ->. split; [reflexivity | constructor].
  - apply list_elem_of_bind in Hc as (v & Hc & Hv).
    apply list_elem_of_fmap in Hc as (c' & -> & Hc').
    destruct (IH _ Hc') as [Hlen Hall]. split; [simpl; by rewrite Hlen |].
    constructor; [| exact Hall]. apply elem_of_seq in Hv. lia.
Qed.

Lemma last_default (l : list nat) : forall a d d', List.last (a :: l) d = List.last (a :: l) d'.
Proof.
  induction l as [| b l IH]; intros a d d'; [reflexivity |].
  change (List.last (a :: b :: l) d) with (List.last (b :: l) d).
  change (List.last (a :: b :: l) d') with (List.last (b :: l) d').
  apply IH.
Qed.

(** What [find_augmenting_path] returns is an augmenting path of the
    graph. *)
Lemma find_augmenting_path_sound (matching : ipairs) (path : list nat) :
  find_augmenting_path G matching = Some path ->
  is_augmenting_path G matching path = true
  ∧ Forall (fun v => v < node_count G)%nat path.
Proof.
  unfold find_augmenting_path. intros H.
  apply List.find_some in H as [Hin Hp]. split; [exact Hp |].
  apply list_elem_of_In, list_elem_of_bind in Hin as (k & Hin & _).
  by apply vertex_sequences_spec in Hin as [_ ?].
Qed.

Lemma augment_along_path (matching : ipairs) (path : list nat) :
  is_matching G matching ->
  is_augmenting_path G matching path = true ->
  Forall (fun v => v < node_count G)%nat path ->
  is_matching G (augment matching path true).
Proof.
  intros Hm Hp Hrange. unfold is_augmenting_path in Hp.
  destruct path as [| a path]; [discriminate |].
  apply andb_true_iff in Hp as [Hp Halt]. apply andb_true_iff in Hp as [Hp Hlast].
  apply andb_true_iff in Hp as [Hp Hfirst]. apply andb_true_iff in Hp as [Hnd Heven].
  apply bool_decide_eq_true in Hnd, Hfirst, Hlast.
  apply Nat.even_spec in Heven as [h Hh].
  destruct h as [| h]; [discriminate |].
  apply (augment_is_matching G h); try done.
  by rewrite (last_default path a 0%nat a).
Qed.

Lemma find_maximum_matching_is_matching (fuel : nat) : forall matching,
  is_matching G matching -> is_matching G (find_maximum_matching fuel G matching).
Proof.
  induction fuel as [| fuel IH]; intros matching Hm; simpl; [exact Hm |].
  destruct (find_augmenting_path G matching) as [path |] eqn:Hfind; [| exact Hm].
  apply find_augmenting_path_sound in Hfind as [Hp Hrange].
  apply IH. by apply augment_along_path.
Qed.

Lemma length_endpoints (matching : ipairs) :
  length (endpoints matching) = (2 * length matching)%nat.
Proof.
  induction matching as [| e matching IH]; [reflexivity |].
  rewrite endpoints_cons. simpl. rewrite IH. lia.
Qed.

(** A matching of a graph with [V] vertices has at most [V/2] pairs. *)
Lemma is_matching_size (matching : ipairs) :
  is_matching G matching -> (length matching <= node_count G / 2)%nat.
Proof.
  intros [Hnd Hall].
  assert (endpoints matching ⊆+ seq 0 (node_count G)) as Hsub.
  { apply NoDup_submseteq; [exact Hnd |]. intros x Hx.
    apply elem_of_endpoints in Hx as (e & He & Hx).
    rewrite Forall_forall in Hall. destruct (Hall e He) as [Hlt _].
    apply elem_of_seq. destruct Hx as [-> | ->]; lia. }
  apply submseteq_length in Hsub.
  rewrite length_endpoints, length_seq in Hsub.
  apply Nat.div_le_lower_bound; lia.
Qed.

End MaximumMatching.

(** C4. For every undirected graph with V vertices, [maximum_matching]
    returns the list of the label pairs of a matching of the graph: a list
    of edges whose number does not exceed floor(V/2) and in which no
    vertex appears in two pairs. *)
Theorem maximum_matching_is_matching (G : graphe) :
  is_directed G = false ->
  ∃ matching : ipairs,
    _maximum_matching (of_graphe G)
    = of_gen (gen_vect _LIST__VECT
                ((fun it => gen_vect _LIST__VECT
                              [node_label G it.1; node_label G it.2])
                   <$> matching))
    ∧ (length matching <= node_count G / 2)%nat
    ∧ NoDup (endpoints matching)
    ∧ is_matching G matching.
Proof.
  intros Hd. exists (maximize_matching G []).
  assert (is_matching G (maximize_matching G [])) as Hm.
  { apply find_maximum_matching_is_matching, is_matching_nil. }
  split; [| split; [| split]].
  - unfold _maximum_matching. by rewrite Hd.
  - by apply is_matching_size.
  - apply Hm.
  - exact Hm.
Qed.

Lemma maximum_matching_is_matching_witness :
  ∃ matching : ipairs,
    _maximum_matching (of_graphe cycle_5)
    = of_gen (gen_vect _LIST__VECT
                ((fun it => gen_vect _LIST__VECT
                              [node_label cycle_5 it.1; node_label cycle_5 it.2])
                   <$> matching))
    ∧ (length matching <= 2)%nat
    ∧ NoDup (endpoints matching).
Proof.
  destruct (maximum_matching_is_matching cycle_5 eq_refl)
    as (matching & Hres & Hsize & Hnd & _).
  exists matching. split; [exact Hres |]. split; [exact Hsize | exact Hnd].
Defined.

(** ** Shortest paths *)

Section Paths.

Variable G : graphe.







Lemma reaches_nonnegative (s t : nat) (w : Z) :
  nonnegative_weights G -> reaches G s t w -> 0 <= w.
Proof.
  intros Hnn. induction 1 as [| u t w _ IH Hedge]; [lia |].
  destruct (Hnn _ _ Hedge) as (_ & z & Hz & Hpos).
  unfold weight_val. rewrite Hz. lia.
Qed.

End Paths.

Section DijkstraSteps.

Variable G : graphe.







End DijkstraSteps.

Section DijkstraInvariant.

Variable G : graphe.
Variable src : nat.





End DijkstraInvariant.

Section DijkstraCorrect.

Variable G : graphe.
Variable src : nat.



End DijkstraCorrect.

Lemma index_of_label_lt (ns : list vertex) (v : gen) : forall k i,
  index_of_label ns v k = Some i -> (k <= i < k + length ns)%nat.
Proof.
  induction ns as [| x ns IH]; intros k i H; simpl in H; [discriminate |].
  destruct (gen_eqb (m_label x) v).
  - simplify_eq. simpl. lia.
  - apply IH in H. simpl. lia.
Qed.

Lemma node_index_lt (G : graphe) (v : gen) (i : nat) :
  node_index G v = Some i -> (i < node_count G)%nat.
Proof.
  unfold node_index, node_count. intros H. apply index_of_label_lt in H. lia.
Qed.




(** * Further properties of the commands *)

(** ** File names *)

Lemma substring_all (s : string) : String.substring 0 (String.length s) s = s.
Proof. induction s as [| c s IH]; simpl; [reflexivity | by rewrite IH]. Qed.

Lemma substring_append_r (p s : string) :
  String.substring (String.length p) (String.length s) (p +:+ s) = s.
Proof. induction p as [| c p IH]; simpl; [apply substring_all | exact IH]. Qed.

Lemma length_append (p s : string) :
  String.length (p +:+ s) = (String.length p + String.length s)%nat.
Proof. induction p as [| c p IH]; simpl; [reflexivity | by rewrite IH]. Qed.

Lemma substring_split (s : string) : forall n,
  (n <= String.length s)%nat ->
  s = String.substring 0 n s +:+ String.substring n (String.length s - n) s.
Proof.
  induction s as [| c s IH]; intros n Hn.
  - simpl in Hn. assert (n = 0%nat) as -> by lia. reflexivity.
  - destruct n as [| n].
    + simpl. by rewrite substring_all.
    + simpl in *.
      change (String c s = String c (String.substring 0 n s
                                     +:+ String.substring n (String.length s - n) s)).
      f_equal. apply IH. lia.
Qed.

Lemma has_suffix_append (p suffix : string) :
  has_suffix (p +:+ suffix) suffix = true.
Proof.
  unfold has_suffix. rewrite length_append.
  apply andb_true_iff. split; [apply Nat.leb_le; lia |].
  apply String.eqb_eq.
  replace (String.length p + String.length suffix - String.length suffix)%nat
    with (String.length p) by lia.
  apply substring_append_r.
Qed.

(** X1. [has_suffix str suffix] answers true exactly when [str] ends with
    [suffix], that is, when [str] is some prefix followed by [suffix]; so
    a suffix longer than the string is refused and no position before the
    start of the string is read. *)
Theorem has_suffix_iff (str suffix : string) :
  has_suffix str suffix = true <-> exists prefix, str = prefix +:+ suffix.
Proof.
  unfold has_suffix. rewrite andb_true_iff, Nat.leb_le, String.eqb_eq. split.
  - intros [Hlen Hsub].
    exists (String.substring 0 (String.length str - String.length suffix) str).
    pose proof (substring_split str (String.length str - String.length suffix))
      as Hsplit.
    replace (String.length str - (String.length str - String.length suffix))%nat
      with (String.length suffix) in Hsplit by lia.
    rewrite Hsub in Hsplit. apply Hsplit. lia.
  - intros [p ->]. pose proof (has_suffix_append p suffix) as H.
    unfold has_suffix in H. by rewrite andb_true_iff, Nat.leb_le, String.eqb_eq in H.
Qed.

(** X2. The suffix .dot is optional in the name given to [import_graph]:
    for every name that does not end in .dot, and whatever the files hold,
    the command on the name and the command on the name followed by .dot
    read the same file and return the same result (the graph, or undef
    when reading fails). *)
Theorem import_graph_suffix_optional (read_dot : string -> option graphe)
    (name : string) :
  has_suffix name ".dot" = false ->
  _import_graph read_dot name = _import_graph read_dot (name +:+ ".dot").
Proof.
  intros Hno. unfold _import_graph. rewrite Hno. simpl negb. cbv iota.
  by rewrite has_suffix_append.
Qed.

Lemma import_graph_suffix_optional_witness :
  let read_dot := fun filename : string =>
                    if String.eqb filename "g.dot" then Some triangle else None in
  has_suffix "g" ".dot" = false
  /\ _import_graph read_dot "g" = imported triangle
  /\ _import_graph read_dot "g" = _import_graph read_dot "g.dot".
Proof.
  intros read_dot. split; [reflexivity |]. split; [reflexivity |].
  exact (import_graph_suffix_optional read_dot "g" eq_refl).
Defined.

(** ** Folds, degrees, reordering and dot chains *)

Lemma fmap_rev {A B : Type} (g : A -> B) (l : list A) :
  g <$> rev l = rev (g <$> l).
Proof.
  induction l as [| x l IH]; [reflexivity |].
  simpl. by rewrite fmap_app, IH.
Qed.

Section Folding.

Context {A : Type} (f : A -> A -> A) (v : gen -> A).

Lemma denote_foldl op (rest : vecteur) : forall arg,
  denote f v (fold_left (fun arg it => at_of (atom op) arg (atom it)) rest arg)
  = fold_left f (v <$> rest) (denote f v arg).
Proof.
  induction rest as [| it rest IH]; intros arg; simpl; [reflexivity |].
  by rewrite IH.
Qed.

Lemma denote_foldr op (rest : vecteur) : forall arg,
  denote f v (fold_left (fun arg it => at_of (atom op) (atom it) arg) rest arg)
  = fold_left (fun a x => f x a) (v <$> rest) (denote f v arg).
Proof.
  induction rest as [| it rest IH]; intros arg; simpl; [reflexivity |].
  by rewrite IH.
Qed.

Hypothesis f_assoc : forall x y z, f x (f y z) = f (f x y) z.

Lemma fold_left_assoc (l : list A) : forall a b,
  f a (fold_left f l b) = fold_left f l (f a b).
Proof.
  induction l as [| x l IH]; intros a b; simpl; [reflexivity |].
  by rewrite IH, f_assoc.
Qed.

Lemma fold_left_rev_flip (e : A) (l : list A) :
  (forall x, f e x = x) -> (forall x, f x e = x) ->
  fold_left (fun a x => f x a) (rev l) e = fold_left f l e.
Proof.
  intros Hl Hr. induction l as [| x l IH]; [reflexivity |].
  simpl. rewrite fold_left_app. simpl. rewrite IH.
  rewrite fold_left_assoc. by rewrite Hr, Hl.
Qed.

End Folding.

(** X9. [foldl] and [foldr] on the arguments (op, id, r1, ..., rk) with
    k >= 1 build the terms op(...op(op(id,r1),r2)...,rk) and
    op(r1,op(r2,...op(rk,id)...)): for every reading of the operator as a
    function f and of the arguments as values, the first term denotes the
    left fold of f over the values from the value of id and the second
    the right fold.  When f is associative and the value of id is a unit
    of f on both sides, the two terms denote the same value. *)
Theorem foldl_foldr_agree {A : Type} (f : A -> A -> A) (v : gen -> A)
    (op id : gen) (rs : vecteur) :
  rs ≠ [] ->
  exists l r, _foldl (op :: id :: rs) = inl l
              /\ _foldr (op :: id :: rs) = inl r
              /\ denote f v l = fold_left f (v <$> rs) (v id)
              /\ denote f v r = foldr f (v id) (v <$> rs)
              /\ ((forall x y z, f x (f y z) = f (f x y) z) ->
                  (forall x, f (v id) x = x) ->
                  (forall x, f x (v id) = x) ->
                  denote f v l = denote f v r).
Proof.
  intros Hrs. unfold _foldl, _foldr.
  rewrite bool_decide_eq_false_2 by (destruct rs; [done | simpl; lia]).
  eexists _, _. split; [reflexivity |]. split; [reflexivity |].
  rewrite denote_foldl, denote_foldr. simpl.
  rewrite fmap_rev.
  assert (fold_left (fun a x => f x a) (rev (v <$> rs)) (v id)
          = foldr f (v id) (v <$> rs)) as Hfoldr.
  { by rewrite <- fold_left_rev_right, rev_involutive. }
  split; [reflexivity |]. split; [exact Hfoldr |].
  intros Hassoc Hl Hr. symmetry. by apply fold_left_rev_flip.
Qed.

Lemma foldl_foldr_agree_witness :
  let v := fun g => match g with gen_int z => z | _ => 0 end in
  exists l r,
    _foldl [gen_idnt "+"; gen_int 0; gen_int 1; gen_int 2; gen_int 3] = inl l
    /\ _foldr [gen_idnt "+"; gen_int 0; gen_int 1; gen_int 2; gen_int 3] = inl r
    /\ denote Z.add v l = 6 /\ denote Z.add v r = 6.
Proof.
  intros v.
  destruct (foldl_foldr_agree Z.add v (gen_idnt "+") (gen_int 0)
              [gen_int 1; gen_int 2; gen_int 3])
    as (l & r & Hl & Hr & Hdl & Hdr & _); [discriminate |].
  exists l, r. split; [exact Hl |]. split; [exact Hr |].
  split; [exact Hdl | exact Hdr].
Defined.

Section DegreeLoops.

Variable d : nat -> Z.

Lemma fold_min_spec (l : list nat) : forall init,
  let r := fold_left (fun mindeg i => if bool_decide (d i < mindeg) then d i
                                      else mindeg) l init in
  r <= init /\ (forall i, i ∈ l -> r <= d i)
  /\ (r = init \/ exists i, i ∈ l /\ r = d i).
Proof.
  induction l as [| x l IH]; intros init; simpl.
  - split; [lia |]. split; [| by left]. intros i Hi. by apply elem_of_nil in Hi.
  - destruct (IH (if bool_decide (d x < init) then d x else init))
      as (Hle & Hall & Hatt).
    split; [case_bool_decide; lia |]. split.
    + intros i Hi. apply elem_of_cons in Hi as [-> | Hi]; [| by apply Hall].
      case_bool_decide; lia.
    + destruct Hatt as [Hatt | (i & Hi & Hatt)].
      * case_bool_decide; [right; exists x; split; [left | exact Hatt] | by left].
      * right. exists i. split; [by right | exact Hatt].
Qed.

Lemma fold_max_spec (l : list nat) : forall init,
  let r := fold_left (fun maxdeg i => if bool_decide (maxdeg < d i) then d i
                                      else maxdeg) l init in
  init <= r /\ (forall i, i ∈ l -> d i <= r)
  /\ (r = init \/ exists i, i ∈ l /\ r = d i).
Proof.
  induction l as [| x l IH]; intros init; simpl.
  - split; [lia |]. split; [| by left]. intros i Hi. by apply elem_of_nil in Hi.
  - destruct (IH (if bool_decide (init < d x) then d x else init))
      as (Hle & Hall & Hatt).
    split; [case_bool_decide; lia |]. split.
    + intros i Hi. apply elem_of_cons in Hi as [-> | Hi]; [| by apply Hall].
      case_bool_decide; lia.
    + destruct Hatt as [Hatt | (i & Hi & Hatt)].
      * case_bool_decide; [right; exists x; split; [left | exact Hatt] | by left].
      * right. exists i. split; [by right | exact Hatt].
Qed.

End DegreeLoops.

(** The smallest and the largest degree as the two loops compute them. *)
Lemma degree_loops (degree : graphe -> nat -> Z) (RAND_MAX : Z) (G : graphe) :
  (0 < node_count G)%nat ->
  (forall i, (i < node_count G)%nat -> 0 <= degree G i <= RAND_MAX) ->
  exists dmin dmax,
    _minimum_degree degree RAND_MAX (of_graphe G) = of_gen (gen_int dmin)
    /\ _maximum_degree degree (of_graphe G) = of_gen (gen_int dmax)
    /\ (forall i, (i < node_count G)%nat -> dmin <= degree G i <= dmax)
    /\ (exists i, (i < node_count G)%nat /\ degree G i = dmin)
    /\ (exists i, (i < node_count G)%nat /\ degree G i = dmax).
Proof.
  intros Hn Hdeg. unfold _minimum_degree, _maximum_degree.
  rewrite bool_decide_eq_false_2 by lia.
  destruct (fold_min_spec (degree G) (seq 0 (node_count G)) RAND_MAX)
    as (Hmin1 & Hmin2 & Hmin3).
  destruct (fold_max_spec (degree G) (seq 0 (node_count G)) 0)
    as (Hmax1 & Hmax2 & Hmax3).
  eexists _, _. split; [reflexivity |]. split; [reflexivity |].
  assert (forall i, i ∈ seq 0 (node_count G) <-> (i < node_count G)%nat) as Hseq.
  { intros i. rewrite elem_of_seq. lia. }
  split; [| split].
  - intros i Hi. split; [apply Hmin2 | apply Hmax2]; by apply Hseq.
  - destruct Hmin3 as [Hinit | (i & Hi & Heq)].
    + exists 0%nat. split; [exact Hn |].
      pose proof (Hmin2 0%nat (proj2 (Hseq 0%nat) Hn)).
      pose proof (Hdeg 0%nat Hn). lia.
    + exists i. split; [by apply Hseq | by rewrite Heq].
  - destruct Hmax3 as [Hinit | (i & Hi & Heq)].
    + exists 0%nat. split; [exact Hn |].
      pose proof (Hmax2 0%nat (proj2 (Hseq 0%nat) Hn)).
      pose proof (Hdeg 0%nat Hn). lia.
    + exists i. split; [by apply Hseq | by rewrite Heq].
Qed.

(** X10. When the degrees of the vertices lie between 0 and [RAND_MAX],
    [minimum_degree] and [maximum_degree] return integers dmin and dmax
    with 0 <= dmin <= dmax that bound the degree of every vertex from
    below and from above; on a graph with at least one vertex each of
    them is the degree of some vertex, and on the graph with no vertex
    both are 0. *)
Theorem minimum_maximum_degree_bounds (degree : graphe -> nat -> Z)
    (RAND_MAX : Z) (G : graphe) :
  (forall i, (i < node_count G)%nat -> 0 <= degree G i <= RAND_MAX) ->
  exists dmin dmax,
    _minimum_degree degree RAND_MAX (of_graphe G) = of_gen (gen_int dmin)
    /\ _maximum_degree degree (of_graphe G) = of_gen (gen_int dmax)
    /\ 0 <= dmin <= dmax
    /\ (forall i, (i < node_count G)%nat -> dmin <= degree G i <= dmax)
    /\ ((0 < node_count G)%nat ->
        (exists i, (i < node_count G)%nat /\ degree G i = dmin)
        /\ (exists i, (i < node_count G)%nat /\ degree G i = dmax))
    /\ (node_count G = 0%nat -> dmin = 0 /\ dmax = 0).
Proof.
  intros Hdeg. destruct (decide (node_count G = 0%nat)) as [Hn | Hn].
  - exists 0, 0. unfold _minimum_degree, _maximum_degree.
    rewrite bool_decide_eq_true_2 by exact Hn.
    split; [reflexivity |]. split; [reflexivity |]. split; [lia |].
    split; [intros i Hi; lia |]. split; [intros Hpos; lia | done].
  - destruct (degree_loops degree RAND_MAX G) as
      (dmin & dmax & Hmin & Hmax & Hbounds & (i & Hi & Hdmin) & Hsome);
      [lia | exact Hdeg |].
    exists dmin, dmax. split; [exact Hmin |]. split; [exact Hmax |].
    split.
    { pose proof (Hbounds i Hi). pose proof (Hdeg i Hi). lia. }
    split; [exact Hbounds |]. split; [| intros H0; lia].
    intros _. split; [by exists i | exact Hsome].
Qed.

Lemma neighbour_count_triangle (i : nat) :
  (i < node_count triangle)%nat ->
  0 <= Z.of_nat (length (adjacent_nodes triangle i)) <= 2147483647.
Proof.
  intros Hi. change (node_count triangle) with 3%nat in Hi.
  destruct i as [| [| [| i]]]; [by vm_compute .. | lia].
Qed.

Lemma minimum_maximum_degree_bounds_witness :
  let degree := fun G i => Z.of_nat (length (adjacent_nodes G i)) in
  exists dmin dmax,
    _minimum_degree degree 2147483647 (of_graphe triangle) = of_gen (gen_int dmin)
    /\ _maximum_degree degree (of_graphe triangle) = of_gen (gen_int dmax)
    /\ 0 <= dmin <= dmax
    /\ (forall i, (i < node_count triangle)%nat ->
                  dmin <= degree triangle i <= dmax).
Proof.
  intros degree.
  destruct (minimum_maximum_degree_bounds degree 2147483647 triangle
              neighbour_count_triangle)
    as (dmin & dmax & Hmin & Hmax & Hle & Hbounds & _).
  exists dmin, dmax. split; [exact Hmin |]. split; [exact Hmax |].
  split; [exact Hle | exact Hbounds].
Defined.

(** X11. When the degrees lie between 0 and [RAND_MAX]: on a graph with
    at least one vertex, [is_regular] returns true exactly when
    [minimum_degree] and [maximum_degree] return the same value, and
    exactly when all the vertices have the same degree.  On the graph
    with no vertex, [is_regular] returns false although the two commands
    return the same value, 0. *)
Theorem is_regular_iff_extremes_agree (degree : graphe -> nat -> Z)
    (RAND_MAX : Z) (G : graphe) :
  (forall i, (i < node_count G)%nat -> 0 <= degree G i <= RAND_MAX) ->
  ((0 < node_count G)%nat ->
   (_is_regular degree (of_graphe G) = of_gen VRAI
    <-> _minimum_degree degree RAND_MAX (of_graphe G)
        = _maximum_degree degree (of_graphe G))
   /\ (_is_regular degree (of_graphe G) = of_gen VRAI
       <-> forall i j, (i < node_count G)%nat -> (j < node_count G)%nat ->
                       degree G i = degree G j))
  /\ (node_count G = 0%nat ->
      _is_regular degree (of_graphe G) = of_gen FAUX
      /\ _minimum_degree degree RAND_MAX (of_graphe G)
         = _maximum_degree degree (of_graphe G)).
Proof.
  intros Hdeg. split.
  - intros Hn.
    destruct (degree_loops degree RAND_MAX G Hn Hdeg)
      as (dmin & dmax & -> & -> & Hbounds & (imin & Himin & Hmin) & (imax & Himax & Hmax)).
    assert (_is_regular degree (of_graphe G) = of_gen VRAI
            <-> forall i, (i < node_count G)%nat -> degree G i = degree G 0%nat) as Hreg.
    { unfold _is_regular. rewrite bool_decide_eq_false_2 by lia.
      destruct (existsb _ _) eqn:Hex.
      - split; [discriminate |]. intros Hall. exfalso.
        apply existsb_exists in Hex as (i & Hi & Hne).
        apply in_seq in Hi. apply negb_true_iff, bool_decide_eq_false in Hne.
        apply Hne, Hall. lia.
      - split; [| reflexivity]. intros _ i Hi.
        destruct i as [| i]; [reflexivity |].
        destruct (decide (degree G (S i) = degree G 0%nat)) as [| Hne]; [done |].
        exfalso. apply not_true_iff_false in Hex. apply Hex.
        apply existsb_exists. exists (S i). split; [apply in_seq; lia |].
        by apply negb_true_iff, bool_decide_eq_false. }
    split; rewrite Hreg; split.
    + intros Hall. do 2 f_equal. rewrite <- Hmin, <- Hmax.
      by rewrite (Hall imin), (Hall imax).
    + intros [= Heq] i Hi.
      pose proof (Hbounds i Hi). pose proof (Hbounds 0%nat Hn). lia.
    + intros Hall i j Hi Hj. by rewrite (Hall i), (Hall j).
    + intros Hall i Hi. by apply Hall.
  - intros Hn. unfold _is_regular, _minimum_degree, _maximum_degree.
    rewrite bool_decide_eq_true_2 by exact Hn. by split.
Qed.

Lemma is_regular_iff_extremes_agree_witness :
  let degree := fun G i => Z.of_nat (length (adjacent_nodes G i)) in
  _is_regular degree (of_graphe triangle) = of_gen VRAI
  <-> _minimum_degree degree 2147483647 (of_graphe triangle)
      = _maximum_degree degree (of_graphe triangle).
Proof.
  intros degree.
  refine (proj1 (proj1 (is_regular_iff_extremes_agree degree 2147483647 triangle
                          neighbour_count_triangle) _)).
  change (node_count triangle) with 3%nat. lia.
Defined.

(** [gen_eqb] decides equality. *)
Fixpoint gen_eqb_eq (a b : gen) {struct a} : gen_eqb a b = true -> a = b.
Proof.
  destruct a as [z | s | st l | k r | l |], b as [z' | s' | st' l' | k' r' | l' |];
    simpl; try discriminate; intros H.
  - apply bool_decide_eq_true in H. by subst.
  - apply bool_decide_eq_true in H. by subst.
  - apply andb_true_iff in H as [Hs Hl]. apply bool_decide_eq_true in Hs. subst.
    f_equal. revert l' Hl.
    induction l as [| x l IH]; intros [| y l'] Hl; try discriminate; [reflexivity |].
    apply andb_true_iff in Hl as [Hx Hl].
    f_equal; [by apply gen_eqb_eq | by apply IH].
  - apply andb_true_iff in H as [Hk Hr]. apply bool_decide_eq_true in Hk. subst.
    f_equal. by apply gen_eqb_eq.
  - f_equal. revert l' H.
    induction l as [| x l IH]; intros [| y l'] Hl; try discriminate; [reflexivity |].
    apply andb_true_iff in Hl as [Hx Hl].
    f_equal; [by apply gen_eqb_eq | by apply IH].
  - reflexivity.
Qed.

Section PermuteVertices.

Lemma find_position_Some (V : vecteur) (x : gen) : forall k i,
  find_position V x k = Some i ->
  (k <= i)%nat /\ V !! (i - k)%nat = Some x.
Proof.
  induction V as [| y V IH]; intros k i H; simpl in H; [discriminate |].
  destruct (gen_eqb y x) eqn:Hy.
  - simplify_eq. apply gen_eqb_eq in Hy as ->.
    split; [lia |]. by rewrite Nat.sub_diag.
  - apply IH in H as [Hk Hi]. split; [lia |].
    replace (i - k)%nat with (S (i - S k)) by lia. exact Hi.
Qed.

(** What the loop of [_permute_vertices] keeps: the positions from [p] on
    are not yet written, and the indices written so far are distinct
    vertex indices. *)
Lemma permutation_indices_spec (V : vecteur) (sigma : vecteur) :
  forall (p : nat) (v v' : list Z),
    permutation_indices V sigma p v = inl v' ->
    length v = (p + length sigma)%nat ->
    NoDup (take p v) ->
    (forall x, x ∈ take p v -> 0 <= x < Z.of_nat (length V)) ->
    (forall x, x ∈ drop p v -> x = -1) ->
    length v' = length v
    /\ NoDup v'
    /\ (forall x, x ∈ v' -> 0 <= x < Z.of_nat (length V))
    /\ take p v' = take p v
    /\ Forall2 (fun s i => V !! Z.to_nat i = Some s) sigma (drop p v').
Proof.
  induction sigma as [| it sigma IH]; intros p v v' H Hlen Hnd Hrange Hrest;
    simpl in H.
  - simplify_eq. simpl in Hlen. rewrite Nat.add_0_r in Hlen.
    rewrite take_ge in Hnd, Hrange by lia.
    rewrite drop_ge by lia.
    split; [reflexivity |]. split; [exact Hnd |]. split; [exact Hrange |].
    split; [reflexivity | constructor].
  - destruct (find_position V it 0) as [i |] eqn:Hfind; [| discriminate].
    case_bool_decide as Hin; [discriminate |].
    apply find_position_Some in Hfind as [_ Hi]. rewrite Nat.sub_0_r in Hi.
    pose proof (lookup_lt_Some _ _ _ Hi) as Hlt.
    simpl in Hlen.
    assert (take (S p) (<[p := Z.of_nat i]> v) = take p v ++ [Z.of_nat i]) as Htake.
    { rewrite (take_S_r _ _ (Z.of_nat i)).
      - by rewrite take_insert_ge.
      - apply list_lookup_insert_eq. lia. }
    apply IH in H as (Hlen' & Hnd' & Hrange' & Htake' & Hall).
    + rewrite length_insert in Hlen'.
      assert (take p v' = take p v) as Hp.
      { replace p with (p `min` S p)%nat at 1 by lia.
        rewrite <- take_take, Htake', Htake.
        rewrite take_app_le by (rewrite length_take; lia).
        rewrite take_take. f_equal. lia. }
      assert (v' !! p = Some (Z.of_nat i)) as Hvp.
      { rewrite <- (lookup_take_lt v' (S p) p) by lia.
        rewrite Htake', Htake.
        rewrite lookup_app_r by (rewrite length_take; lia).
        rewrite length_take. replace (p - p `min` length v)%nat with 0%nat by lia.
        reflexivity. }
      split; [exact Hlen' |]. split; [exact Hnd' |]. split; [exact Hrange' |].
      split; [exact Hp |].
      rewrite (drop_S _ _ _ Hvp). constructor; [| exact Hall].
      by rewrite Nat2Z.id.
    + rewrite length_insert. lia.
    + rewrite Htake. apply NoDup_app. split; [exact Hnd |]. split.
      * intros x Hx Hx'. apply list_elem_of_singleton in Hx' as ->.
        apply Hin. by apply (subseteq_take p v).
      * apply NoDup_singleton.
    + rewrite Htake. intros x Hx. apply elem_of_app in Hx as [Hx | Hx].
      * by apply Hrange.
      * apply list_elem_of_singleton in Hx as ->. lia.
    + intros x Hx. apply Hrest.
      apply list_elem_of_lookup in Hx as [k Hk].
      rewrite lookup_drop in Hk.
      rewrite list_lookup_insert_ne in Hk by lia.
      apply list_elem_of_lookup. exists (S k).
      rewrite lookup_drop. by replace (p + S k)%nat with (S p + k)%nat by lia.
Qed.

End PermuteVertices.

(** X12. When [permute_vertices] returns a graph for the graph G and the
    list sigma, that graph is the isomorphic copy of G for an index
    vector that is a permutation of 0, ..., n-1 (n the number of vertices
    of G) and whose k-th entry is the index in G of the k-th label of
    sigma: sigma lists every vertex of G exactly once. *)
Theorem permute_vertices_permutation
    (isomorphic_copy : graphe -> list Z -> option graphe)
    (G H : graphe) (subtype : vect_subtype) (sigma : vecteur) :
  _permute_vertices isomorphic_copy (of_graphe G) (gen_vect subtype sigma)
  = of_graphe H ->
  exists v : list Z,
    isomorphic_copy G v = Some H
    /\ v ≡ₚ Z.of_nat <$> seq 0 (node_count G)
    /\ Forall2 (fun s i => vertices G !! Z.to_nat i = Some s) sigma v.
Proof.
  unfold _permute_vertices. intros Hrun.
  case_bool_decide as Hlen; [discriminate |].
  assert (length sigma = length (vertices G)) as Hlen'.
  { destruct (decide (length sigma = length (vertices G))) as [| Hne]; [done |].
    by destruct Hlen. }
  destruct (permutation_indices _ _ _ _) as [v | e] eqn:Hv; [| discriminate].
  destruct (isomorphic_copy G v) as [H' |] eqn:Hcopy; [| discriminate].
  simplify_eq. exists v. split; [exact Hcopy |].
  apply permutation_indices_spec in Hv as (Hl & Hnd & Hrange & _ & Hall).
  - rewrite length_replicate, Hlen' in Hl.
    assert (length (vertices G) = node_count G) as Hn.
    { unfold vertices, node_count. by rewrite length_fmap. }
    rewrite Hn in *. split; [| by rewrite drop_0 in Hall].
    apply submseteq_length_Permutation.
    + apply NoDup_submseteq; [exact Hnd |].
      intros x Hx. apply Hrange in Hx.
      apply list_elem_of_fmap. exists (Z.to_nat x). split; [lia |].
      apply elem_of_seq. lia.
    + rewrite length_fmap, length_seq. lia.
  - rewrite length_replicate. lia.
  - simpl. apply NoDup_nil_2.
  - simpl. intros x Hx. by apply elem_of_nil in Hx.
  - rewrite drop_0. intros x Hx. by apply elem_of_replicate in Hx as [-> _].
Qed.

Lemma permute_vertices_permutation_witness :
  let isomorphic_copy := fun (G : graphe) (_ : list Z) => Some G in
  exists v : list Z,
    isomorphic_copy triangle v = Some triangle
    /\ v ≡ₚ Z.of_nat <$> seq 0 (node_count triangle)
    /\ Forall2 (fun s i => vertices triangle !! Z.to_nat i = Some s)
               (vertices triangle) v.
Proof.
  intros isomorphic_copy.
  exact (permute_vertices_permutation isomorphic_copy triangle triangle
           _LIST__VECT (vertices triangle) eq_refl).
Defined.

Section DotChain.

Lemma chain_step_in_range (d : dotgraph) (o : chain_op) :
  (pos d < length (m_chain d))%nat ->
  (pos (chain_step d o) < length (m_chain (chain_step d o)))%nat.
Proof.
  intros H. destruct o as [| i |]; simpl.
  - case_bool_decide; [rewrite length_resize |]; lia.
  - by rewrite length_insert.
  - rewrite length_insert, length_resize. lia.
Qed.

End DotChain.

(** X17. The chain of a [dotgraph]: from [clear_chain] on, after any
    sequence of the operations [incr], [set_index] and [clear_chain], the
    position lies within the chain, so that [set_index] writes an element
    that exists and a read at the position gives the index written.
    Right after [clear_chain] the chain is empty and not completed. *)
Theorem dotgraph_position_in_chain (d : dotgraph) (ops : list chain_op) :
  let d' := fold_left chain_step ops (clear_chain d) in
  (pos d' < length (m_chain d'))%nat
  /\ (forall i, m_chain (set_index d' i) !! pos d' = Some i)
  /\ chain_empty (clear_chain d) = true
  /\ chain_completed (clear_chain d) = false.
Proof.
  assert (forall d0, (pos d0 < length (m_chain d0))%nat ->
                     (pos (fold_left chain_step ops d0)
                      < length (m_chain (fold_left chain_step ops d0)))%nat) as Hinv.
  { induction ops as [| o ops IH]; intros d0 H0; simpl; [exact H0 |].
    apply IH, chain_step_in_range, H0. }
  assert (m_chain (clear_chain d) = [0]) as Hclear.
  { unfold clear_chain. simpl. by destruct (m_chain d) as [| z [| z' l]]. }
  intros d'. split; [| split; [| split]].
  - apply Hinv. rewrite Hclear. simpl. lia.
  - intros i. simpl. apply list_lookup_insert_eq. apply Hinv.
    rewrite Hclear. simpl. lia.
  - unfold chain_empty. by rewrite Hclear.
  - unfold chain_completed. by rewrite Hclear.
Qed.

(** ** Graphic sequences: order and regular sequences *)

Section GraphicSequenceOrder.

#[local] Instance flip_le_trans : Transitive (flip Z.le).
Proof. intros x y z. unfold flip. lia. Qed.

#[local] Instance flip_le_antisymm : AntiSymm (=) (flip Z.le).
Proof. intros x y. unfold flip. lia. Qed.

#[local] Instance flip_le_total : Total (flip Z.le).
Proof. intros x y. unfold flip. lia. Qed.

Lemma _SortD_Permutation (l1 l2 : list Z) : l1 ≡ₚ l2 -> _SortD l1 = _SortD l2.
Proof.
  intros H. unfold _SortD.
  apply (Sorted_unique (flip Z.le)); try apply Sorted_merge_sort; try apply _.
  by rewrite !merge_sort_Permutation.
Qed.


Lemma existsb_Permutation {A : Type} (f : A -> bool) (l1 l2 : list A) :
  l1 ≡ₚ l2 -> existsb f l1 = existsb f l2.
Proof.
  induction 1 as [| x l1 l2 _ IH | x y l | l1 l2 l3 _ IH1 _ IH2]; simpl.
  - reflexivity.
  - by rewrite IH.
  - destruct (f x), (f y); reflexivity.
  - by rewrite IH1.
Qed.



End GraphicSequenceOrder.

(** X3. The answer of [is_graphic_sequence] depends neither on the order
    of the list nor on the kind of the vector that holds it: on two lists
    that are permutations of one another the command returns the same
    result. *)
Theorem is_graphic_sequence_order_irrelevant (s1 s2 : vect_subtype)
    (v1 v2 : vecteur) :
  v1 ≡ₚ v2 ->
  _is_graphic_sequence (gen_vect s1 v1) = _is_graphic_sequence (gen_vect s2 v2).
Proof.
  intros H. unfold _is_graphic_sequence.
  rewrite (Permutation_length H).
  rewrite (existsb_Permutation _ _ _ H).
  by rewrite (_SortD_Permutation (int_val <$> v1) (int_val <$> v2))
    by (by apply fmap_Permutation).
Qed.



Lemma is_graphic_sequence_order_irrelevant_witness :
  _is_graphic_sequence (gen_vect _LIST__VECT [gen_int 1; gen_int 2; gen_int 1])
  = _is_graphic_sequence (gen_vect _SET__VECT [gen_int 2; gen_int 1; gen_int 1]).
Proof.
  apply is_graphic_sequence_order_irrelevant. apply Permutation_swap.
Defined.

(** ** The attributes of a constructed graph *)

Section GraphAttributes.

Variable contextptr : context.

Lemma attributes_add_edge_labels G v w weight :
  attributes (add_edge_labels G v w weight) = attributes G.
Proof.
  unfold add_edge_labels.
  destruct (add_node G v) as [G1 i] eqn:H1.
  destruct (add_node G1 w) as [G2 j] eqn:H2.
  rewrite attributes_add_edge.
  change G2 with (G2, j).1. rewrite <- H2, attributes_add_node.
  change G1 with (G1, i).1. by rewrite <- H1, attributes_add_node.
Qed.

Lemma attributes_add_edge_chain (E : vecteur) : forall G,
  attributes (add_edge_chain G E) = attributes G.
Proof.
  induction E as [| a E IH]; intros G; [reflexivity |].
  destruct E as [| b E]; [reflexivity |].
  change (add_edge_chain G (a :: b :: E))
    with (add_edge_chain (add_edge_labels G a b (gen_int 1)) (b :: E)).
  by rewrite IH, attributes_add_edge_labels.
Qed.

Lemma is_directed_set_weighted G b :
  is_directed (set_weighted G b) = is_directed G.
Proof.
  unfold is_directed, set_weighted, set_graph_attribute. simpl.
  by rewrite lookup_insert_ne.
Qed.

Lemma is_directed_parse_edge_with_weight G E :
  is_directed (parse_edge_with_weight G E).1 = is_directed G.
Proof.
  unfold parse_edge_with_weight.
  destruct E as [| [| | st e | | |] [| w [| ? ?]]]; try reflexivity.
  destruct e as [| a [| b [| ? ?]]]; try reflexivity. simpl.
  rewrite (is_directed_attributes _ _ (attributes_add_edge_labels _ _ _ _)).
  destruct (is_weighted G); simpl; [reflexivity | apply is_directed_set_weighted].
Qed.

Lemma is_directed_parse_edge_set (E : vecteur) : forall G,
  is_directed (parse_edge_set G E).1 = is_directed G.
Proof.
  induction E as [| it E IH]; intros G; [reflexivity |].
  destruct it as [| | st [| a [| b [| ? ?]]] | | |]; try reflexivity.
  destruct a as [z | s | st' e | lh rh | l |];
    [ change (is_directed
                (parse_edge_set (add_edge_labels G (gen_int z) b (gen_int 1)) E).1
              = is_directed G)
    | change (is_directed
                (parse_edge_set (add_edge_labels G (gen_idnt s) b (gen_int 1)) E).1
              = is_directed G)
    |
    | change (is_directed
                (parse_edge_set (add_edge_labels G (gen_equal lh rh) b (gen_int 1)) E).1
              = is_directed G)
    | change (is_directed
                (parse_edge_set (add_edge_labels G (gen_trail l) b (gen_int 1)) E).1
              = is_directed G)
    | change (is_directed
                (parse_edge_set (add_edge_labels G gen_plusinf b (gen_int 1)) E).1
              = is_directed G) ];
    try (rewrite IH; apply is_directed_attributes, attributes_add_edge_labels).
  change (is_directed
            (let '(G1, ok) := parse_edge_with_weight G [gen_vect st' e; b] in
             if ok then parse_edge_set G1 E else (G1, false)).1 = is_directed G).
  pose proof (is_directed_parse_edge_with_weight G [gen_vect st' e; b]) as Hw.
  destruct (parse_edge_with_weight G [gen_vect st' e; b]) as [G1 ok].
  simpl in Hw. destruct ok; [by rewrite IH | exact Hw].
Qed.

Lemma is_directed_parse_edges G E is_set :
  is_directed (parse_edges G E is_set).1 = is_directed G.
Proof.
  unfold parse_edges. destruct is_set; [apply is_directed_parse_edge_set |].
  case_bool_decide; [reflexivity |].
  destruct E as [| [| | st e | | |] E]; try reflexivity;
    try (apply is_directed_attributes, attributes_add_edge_chain).
  apply is_directed_parse_edge_with_weight.
Qed.

Lemma attributes_add_permutation_cycle (argv : vecteur) : forall G,
  attributes (add_permutation_cycle contextptr G argv) = attributes G.
Proof.
  induction argv as [| a argv IH]; intros G; [reflexivity |].
  destruct a as [z | | | | |]; try reflexivity.
  destruct argv as [| [z' | | | | |] argv]; try reflexivity.
  change (add_permutation_cycle contextptr G (gen_int z :: gen_int z' :: argv))
    with (add_permutation_cycle contextptr
            (add_edge G (Z.to_nat (z - array_start contextptr))
                      (Z.to_nat (z' - array_start contextptr)) (gen_int 1))
            (gen_int z' :: argv)).
  by rewrite IH, attributes_add_edge.
Qed.

(** The two nested edge loops of [parse_matrix] leave the graph
    attributes alone. *)
Lemma attributes_matrix_rows (m : matrice) (first : nat -> nat) (n : nat)
    (rows : list nat) (p : graphe * bool) :
  attributes
    (fold_left
       (fun '(G, isweighted) i =>
          fold_left
            (fun '(G, isweighted) j =>
               let w := mat_entry m i j in
               if negb (is_zero w)
               then (add_edge G i j (gen_int 1),
                     if negb (is_one w) then true else isweighted)
               else (G, isweighted))
            (seq (first i) (n - first i)) (G, isweighted))
       rows p).1 = attributes p.1.
Proof.
  apply (fold_left_invariant
           (fun q : graphe * bool => attributes q.1 = attributes p.1));
    [| reflexivity].
  intros [G1 w1] i Hq. rewrite <- Hq.
  apply (attributes_matrix_row m i _ (G1, w1)).
Qed.

(** [parse_matrix] never turns a directed graph into an undirected one. *)
Lemma is_directed_parse_matrix G m is_weight_matrix mode :
  is_directed G = true ->
  is_directed (parse_matrix contextptr G m is_weight_matrix mode).1.1 = true.
Proof.
  intros Hdir. unfold parse_matrix.
  destruct (_ || _); [exact Hdir |].
  destruct (negb (has_num_coeff m)); [exact Hdir |].
  rewrite Hdir. simpl orb. cbv iota.
  set (G1 := if bool_decide (mode = 0%nat)
             then add_nodes G (make_default_labels contextptr (length m)) else G).
  assert (is_directed G1 = true) as Hdir1.
  { unfold G1. case_bool_decide; [| exact Hdir].
    by rewrite (is_directed_attributes _ _ (attributes_add_nodes _ _)). }
  case_bool_decide.
  - pose proof (attributes_matrix_rows m (fun _ => 0%nat) (length m)
                  (seq 0 (length m)) (set_directed G1 true, is_weight_matrix)) as Hattr.
    destruct (fold_left _ _ _) as [G2 isweighted].
    assert (is_directed G2 = true) as Hdir2.
    { rewrite (is_directed_attributes G2 (set_directed G1 true) Hattr).
      apply is_directed_set_directed. }
    destruct isweighted; simpl; [by rewrite is_directed_make_weighted | exact Hdir2].
  - destruct is_weight_matrix; simpl;
      [by rewrite is_directed_make_weighted | exact Hdir1].
Qed.

Lemma is_directed_graph_argument n weighted G i arg G' :
  graph_argument contextptr n weighted G i arg = inl G' ->
  is_directed G = true -> is_directed G' = true.
Proof.
  unfold graph_argument. intros H Hdir.
  destruct arg as [nv | | subtype argv | lh rh | trail |]; try discriminate.
  - case_bool_decide; [| discriminate]. case_bool_decide; [discriminate |].
    simplify_eq. by rewrite (is_directed_attributes _ _ (attributes_add_nodes _ _)).
  - destruct (_ && _ && _).
    + rewrite Hdir in H. simpl in H.
      pose proof (is_directed_parse_matrix G argv
                    (bool_decide (i = 2%nat) || weighted) i Hdir) as Hm.
      destruct (parse_matrix _ _ _ _ _) as [[G1 size_err] ok]. simpl in Hm.
      destruct ok; [| discriminate]. by simplify_eq.
    + case_bool_decide; [| discriminate].
      case_bool_decide.
      * pose proof (is_directed_parse_edges G argv true) as He.
        destruct (parse_edges G argv true) as [G1 ok]. simpl in He.
        destruct ok; [| discriminate]. simplify_eq. by rewrite He.
      * destruct (_ && _ && _).
        -- case_bool_decide; [discriminate |]. simplify_eq.
           rewrite (is_directed_attributes _ _
                      (attributes_add_permutation_cycle _ _)).
           apply is_directed_set_directed.
        -- case_bool_decide; [| discriminate]. simplify_eq.
           by rewrite (is_directed_attributes _ _ (attributes_add_nodes _ _)).
  - case_bool_decide; [| discriminate]. by simplify_eq.
  - simplify_eq. unfold parse_trail.
    by rewrite (is_directed_attributes _ _ (attributes_add_edge_chain _ _)).
Qed.

Lemma is_directed_graph_arguments n weighted (args : vecteur) : forall G i G',
  graph_arguments contextptr n weighted G i args = inl G' ->
  is_directed G = true -> is_directed G' = true.
Proof.
  induction args as [| arg args IH]; intros G i G' H Hdir.
  - simpl in H. by simplify_eq.
  - rewrite graph_arguments_cons in H.
    destruct (graph_argument contextptr n weighted G i arg) as [G1 | e] eqn:H1;
      [| discriminate].
    eapply IH; [exact H |]. by eapply is_directed_graph_argument.
Qed.

(** The trailing options keep the direction of the graph when none of
    them is [directed=...]. *)
Lemma is_directed_parse_graph_options (rargs : vecteur) : forall G weighted n r,
  parse_graph_options G weighted rargs n = inl r ->
  (forall rh, gen_equal _GT_DIRECTED rh ∉ rargs) ->
  is_directed r.1.1 = is_directed G.
Proof.
  induction rargs as [| a rargs IH]; intros G weighted n r H Hno.
  - simpl in H. by simplify_eq.
  - assert (forall rh, gen_equal _GT_DIRECTED rh ∉ rargs) as Hno'.
    { intros rh Hin. apply (Hno rh). by right. }
    destruct a as [| | | lh rh | |]; simpl in H; try (by simplify_eq).
    destruct rh as [v | | | | |]; try discriminate.
    destruct lh.
    + exfalso. apply (Hno (gen_int v)). left.
    + by apply IH in H.
Qed.

Lemma is_squarematrix_option subtype (args : vecteur) lh rh :
  is_squarematrix (gen_vect subtype (args ++ [gen_equal lh rh])) = false.
Proof.
  unfold is_squarematrix. apply andb_false_iff. left.
  unfold ckmatrix_rows.
  destruct (args ++ [gen_equal lh rh]) as [| a l] eqn:Hl; [reflexivity |].
  destruct a as [| | st r | | |]; try reflexivity.
  apply andb_false_iff. right. rewrite <- Hl.
  apply not_true_iff_false. intros Hall.
  rewrite forallb_forall in Hall.
  specialize (Hall (gen_equal lh rh)). simpl in Hall.
  assert (false = true) as Hf; [| discriminate].
  apply Hall. apply in_or_app. right. by left.
Qed.

End GraphAttributes.

(** X5. [digraph] appends the option directed=true behind the arguments
    of the caller.  When the arguments hold no option directed=..., every
    graph that [digraph] returns is directed.  An option directed=false of
    the caller wins over the appended one: on a list of vertices (which is
    not a matrix) followed by directed=false, [digraph] returns a graph
    that is not directed. *)
Theorem digraph_is_directed (contextptr : context) (g : gen) :
  (forall G,
     (forall rh, gen_equal _GT_DIRECTED rh
                 ∉ match g with gen_vect _SEQ__VECT v => v | _ => [g] end) ->
     _digraph contextptr g = of_graphe G -> is_directed G = true)
  /\ (forall V : vecteur,
        ckmatrix (gen_vect _LIST__VECT V) = false ->
        exists G, _digraph contextptr
                    (gen_vect _SEQ__VECT
                       [gen_vect _LIST__VECT V; gen_equal _GT_DIRECTED FAUX])
                  = of_graphe G
                  /\ is_directed G = false).
Proof.
  split.
  - intros G Hno. unfold _digraph.
    set (args := match g with gen_vect _SEQ__VECT v => v | _ => [g] end) in *.
    unfold _graph. rewrite is_squarematrix_option. simpl andb. cbv iota.
    rewrite (bool_decide_eq_true_2 (_SEQ__VECT = _SEQ__VECT)) by reflexivity.
    simpl negb. cbv iota.
    rewrite rev_app_distr. simpl rev. simpl app.
    simpl parse_graph_options.
    destruct (parse_graph_options _ _ _ _) as [[[G0 weighted] n] | e] eqn:Hopts;
      [| discriminate].
    apply is_directed_parse_graph_options in Hopts.
    2:{ intros rh Hin. apply (Hno rh). apply list_elem_of_In.
        apply in_rev. by apply list_elem_of_In. }
    simpl in Hopts. rewrite is_directed_set_directed in Hopts.
    destruct (graph_arguments _ _ _ _ _ _) as [G1 | e] eqn:Hargs; [| discriminate].
    intros [= <-]. by eapply is_directed_graph_arguments.
  - intros V HV. unfold _digraph, _graph.
    rewrite (is_squarematrix_option _SEQ__VECT
               [gen_vect _LIST__VECT V; gen_equal _GT_DIRECTED FAUX]).
    simpl andb. cbv iota.
    rewrite (bool_decide_eq_true_2 (_SEQ__VECT = _SEQ__VECT)) by reflexivity.
    simpl negb. cbv iota. simpl rev. simpl parse_graph_options.
    cbv iota beta. simpl app. change (Z.of_nat 3 - 1 - 1 - 1) with 0.
    rewrite graph_arguments_cons. unfold graph_argument at 1.
    rewrite HV, andb_false_r. simpl.
    eexists. split; [reflexivity |].
    rewrite (is_directed_attributes _ _ (attributes_add_nodes _ _)).
    reflexivity.
Qed.

Lemma digraph_is_directed_witness :
  exists G, _digraph xcas (gen_int 3) = of_graphe G /\ is_directed G = true.
Proof.
  eexists. split; [reflexivity |].
  apply (proj1 (digraph_is_directed xcas (gen_int 3))); [| reflexivity].
  intros rh Hin. apply list_elem_of_singleton in Hin. discriminate.
Defined.

(** ** Drawing options and roots *)

Section DrawingOptions.

Lemma opt_counter_parse_draw_options (opts : list draw_option) : forall st st',
  parse_draw_options opts st = inl st' ->
  opt_counter st'
  = opt_counter st + Z.of_nat (length (List.filter counted_option opts)).
Proof.
  induction opts as [| opt opts IH]; intros st st' H; simpl in H.
  - simplify_eq. simpl. lia.
  - destruct opt as [[[| | | | z] | |] rh | | | | [| | | | z] |];
      try (destruct rh; try discriminate);
      apply IH in H; simpl in H |- *; lia.
Qed.

Variable E : layout_engine.

(** With no style requested, only the planar layout can fail. *)
Lemma draw_components_default G components : forall i,
  (exists layouts,
     draw_components E G _GT_STYLE_DEFAULT [] [] components i = inl layouts)
  \/ draw_components E G _GT_STYLE_DEFAULT [] [] components i
     = inr (gt_err _GT_ERR_NOT_PLANAR).
Proof.
  induction components as [| it components IH]; intros i; simpl.
  - left. by eexists.
  - destruct (guess_drawing_style E _); simpl;
      try (destruct (IH (S i)) as [[layouts ->] | ->];
           [left; by eexists | by right]).
    destruct (make_planar_layout E _); [| by right].
    destruct (IH (S i)) as [[layouts ->] | ->]; [left; by eexists | by right].
Qed.

Lemma remove_first_Permutation (r : nat) (l : list nat) :
  r ∈ l -> r :: remove_first r l ≡ₚ l.
Proof.
  induction l as [| y l IH]; intros Hin; [by apply elem_of_nil in Hin |].
  simpl. case_bool_decide as Hy; [by subst |].
  apply elem_of_cons in Hin as [-> | Hin]; [done |].
  rewrite Permutation_swap. by rewrite IH.
Qed.

(** The root that [_draw_graph] gives to a component lies in it, and no
    given root is used twice. *)
Lemma assign_roots_spec (components : list (list nat)) : forall indices roots,
  assign_roots components indices = Some roots ->
  Forall2 (fun r comp => r ∈ comp) roots components /\ roots ⊆+ indices.
Proof.
  induction components as [| comp components IH]; intros indices roots H;
    simpl in H.
  - simplify_eq. split; [constructor | apply submseteq_nil_l].
  - destruct (List.find _ indices) as [r |] eqn:Hfind; [| discriminate].
    destruct (assign_roots components (remove_first r indices)) as [roots' |] eqn:Hrec;
      [| discriminate].
    simplify_eq. apply find_some in Hfind as [Hin Hr].
    apply bool_decide_eq_true in Hr. apply list_elem_of_In in Hin.
    apply IH in Hrec as [Hall Hsub]. split; [by constructor |].
    rewrite <- (remove_first_Permutation r indices Hin).
    by apply submseteq_skip.
Qed.

End DrawingOptions.

(** X6. [draw_graph] takes at most one option besides the options
    labels=...: when the options are well formed and two or more of them
    are not of the form labels=..., the command stops with the error for
    an invalid drawing method, whatever the graph and whatever the
    options ask for. *)
Theorem draw_graph_one_method_only (E : layout_engine) (G : graphe)
    (opts : list draw_option) (st : draw_settings) :
  parse_draw_options opts draw_defaults = inl st ->
  (1 < length (List.filter counted_option opts))%nat ->
  _draw_graph E (of_graphe G) opts = error (gt_err _GT_ERR_INVALID_DRAWING_METHOD).
Proof.
  intros Hparse Hcount. unfold _draw_graph. rewrite Hparse.
  apply opt_counter_parse_draw_options in Hparse. simpl in Hparse.
  rewrite bool_decide_eq_true_2 by lia. reflexivity.
Qed.

Lemma draw_graph_one_method_only_witness :
  _draw_graph counting_engine (of_graphe triangle)
    [opt_integer _GT_SPRING; opt_equal (lh_integer _LABELS) (gen_int 0); opt_other]
  = error (gt_err _GT_ERR_INVALID_DRAWING_METHOD).
Proof.
  eapply draw_graph_one_method_only; [reflexivity | simpl; lia].
Defined.

(** X8. When the options of [draw_graph] are well formed and none of
    them selects a drawing method, the command returns a drawing, or
    fails with the error for a graph that is not planar or for an invalid
    drawing method: no other error is reported for a graph. *)
Theorem draw_graph_no_style_requested (E : layout_engine) (G : graphe)
    (opts : list draw_option) (st : draw_settings) :
  parse_draw_options opts draw_defaults = inl st ->
  method st = _GT_STYLE_DEFAULT ->
  (exists drawing, _draw_graph E (of_graphe G) opts = of_gen drawing)
  \/ _draw_graph E (of_graphe G) opts = error (gt_err _GT_ERR_NOT_PLANAR)
  \/ _draw_graph E (of_graphe G) opts
     = error (gt_err _GT_ERR_INVALID_DRAWING_METHOD).
Proof.
  intros Hparse Hmethod. unfold _draw_graph. rewrite Hparse.
  assert (single_method st) as (Hpos & H0 & H1).
  { eapply parse_draw_options_single_method; [| exact Hparse].
    unfold single_method; simpl. repeat split; try lia; intros; lia. }
  case_bool_decide as Hcount; [by right; right |].
  assert (root_nodes st = [] /\ cycle st = []) as [Hroots Hcycle].
  { destruct (decide (opt_counter st = 0)) as [Hz | Hnz].
    - by destruct (H0 Hz) as (_ & ? & ?).
    - destruct H1 as [Hr Hc]; [lia |].
      split; [apply Hr | apply Hc]; rewrite Hmethod; discriminate. }
  rewrite Hmethod.
  rewrite (bool_decide_eq_false_2 (_ = _GT_STYLE_3D)) by discriminate.
  unfold forest_roots, circle_outerface. rewrite Hroots, Hcycle. simpl.
  destruct (draw_components_default E (underlying G)
              (connected_components (underlying G)) 0) as [[layouts ->] | ->].
  - left. by eexists.
  - right. by left.
Qed.

Lemma draw_graph_no_style_requested_witness :
  (exists drawing, _draw_graph counting_engine (of_graphe triangle) [] = of_gen drawing)
  \/ _draw_graph counting_engine (of_graphe triangle) []
     = error (gt_err _GT_ERR_NOT_PLANAR)
  \/ _draw_graph counting_engine (of_graphe triangle) []
     = error (gt_err _GT_ERR_INVALID_DRAWING_METHOD).
Proof.
  eapply draw_graph_no_style_requested; reflexivity.
Defined.

(** X7. The roots of a tree drawing.  When roots are given and the loop
    over the components of [draw_graph] ends without an error, every
    given vertex is a vertex of the graph, the roots used are the given
    ones in some order, there is one root for each component, and the
    k-th root lies in the k-th component. *)
Theorem draw_graph_roots_assignment (G : graphe) (components : list (list nat))
    (root_nodes : vecteur) (roots : list nat) :
  root_nodes ≠ [] ->
  forest_roots G components root_nodes = inl roots ->
  exists indices,
    mapM (node_index G) root_nodes = Some indices
    /\ roots ≡ₚ indices
    /\ length roots = length components
    /\ Forall2 (fun r comp => r ∈ comp) roots components.
Proof.
  intros Hne H. unfold forest_roots in H.
  rewrite (bool_decide_eq_false_2 (root_nodes = [])) in H by exact Hne.
  simpl in H. case_bool_decide as Hlen; [discriminate |].
  destruct (mapM (node_index G) root_nodes) as [indices |] eqn:Hmap; [| discriminate].
  destruct (assign_roots components indices) as [roots' |] eqn:Hassign; [| discriminate].
  simplify_eq. exists indices. split; [reflexivity |].
  apply assign_roots_spec in Hassign as [Hall Hsub].
  pose proof (Forall2_length _ _ _ Hall) as Hl.
  apply length_mapM in Hmap.
  assert (length root_nodes = length components) as Hlen'.
  { destruct (decide (length root_nodes = length components)); [done |].
    by destruct Hlen. }
  split; [| split; [exact Hl | exact Hall]].
  apply submseteq_length_Permutation; [exact Hsub | lia].
Qed.

Lemma draw_graph_roots_assignment_witness :
  exists indices,
    mapM (node_index three_isolated_vertices) [gen_int 2; gen_int 0; gen_int 1]
    = Some indices
    /\ [0; 1; 2]%nat ≡ₚ indices.
Proof.
  destruct (draw_graph_roots_assignment three_isolated_vertices
              [[0]; [1]; [2]]%nat [gen_int 2; gen_int 0; gen_int 1] [0; 1; 2]%nat)
    as (indices & Hmap & Hperm & _); [discriminate | reflexivity |].
  by exists indices.
Defined.

(** ** Vertices added one by one, and trails *)

Section AddNodes.

Lemma index_of_label_ext (ns1 : list vertex) : forall ns2 v k,
  m_label <$> ns1 = m_label <$> ns2 ->
  index_of_label ns1 v k = index_of_label ns2 v k.
Proof.
  induction ns1 as [| x ns1 IH]; intros [| y ns2] v k H; try discriminate;
    [reflexivity |].
  simpl in *. injection H as Hxy H. rewrite Hxy.
  destruct (gen_eqb (m_label y) v); [reflexivity | by apply IH].
Qed.

Lemma node_index_ext (G1 G2 : graphe) (v : gen) :
  vertices G1 = vertices G2 -> node_index G1 v = node_index G2 v.
Proof. apply index_of_label_ext. Qed.

Lemma index_of_label_None (ns : list vertex) (v : gen) : forall k,
  index_of_label ns v k = None <-> v ∉ m_label <$> ns.
Proof.
  induction ns as [| x ns IH]; intros k; simpl.
  - split; [intros _ H; by apply elem_of_nil in H | done].
  - destruct (gen_eqb (m_label x) v) eqn:Hx.
    + apply gen_eqb_eq in Hx as ->. split; [discriminate |].
      intros H. exfalso. apply H. left.
    + rewrite IH, not_elem_of_cons. split; [| by intros [_ ?]].
      intros H. split; [| exact H]. intros ->.
      by rewrite gen_eqb_refl in Hx.
Qed.

Lemma index_of_label_Some (ns : list vertex) (v : gen) : forall k i,
  index_of_label ns v k = Some i ->
  (k <= i)%nat /\ (m_label <$> ns) !! (i - k)%nat = Some v.
Proof.
  induction ns as [| x ns IH]; intros k i H; simpl in H; [discriminate |].
  destruct (gen_eqb (m_label x) v) eqn:Hx.
  - simplify_eq. apply gen_eqb_eq in Hx as <-.
    split; [lia |]. by rewrite Nat.sub_diag.
  - apply IH in H as [Hk Hi]. split; [lia |].
    replace (i - k)%nat with (S (i - S k)) by lia. exact Hi.
Qed.

Lemma index_of_label_app_l (ns1 ns2 : list vertex) (v : gen) : forall k i,
  index_of_label ns1 v k = Some i -> index_of_label (ns1 ++ ns2) v k = Some i.
Proof.
  induction ns1 as [| x ns1 IH]; intros k i H; simpl in *; [discriminate |].
  destruct (gen_eqb (m_label x) v); [exact H | by apply IH].
Qed.

Lemma index_of_label_app_r (ns1 ns2 : list vertex) (v : gen) : forall k,
  index_of_label ns1 v k = None ->
  index_of_label (ns1 ++ ns2) v k = index_of_label ns2 v (k + length ns1).
Proof.
  induction ns1 as [| x ns1 IH]; intros k H; simpl in *.
  - by rewrite Nat.add_0_r.
  - destruct (gen_eqb (m_label x) v); [discriminate |].
    rewrite IH by exact H. f_equal. lia.
Qed.

Lemma node_index_Some (G : graphe) (v : gen) (i : nat) :
  node_index G v = Some i -> vertices G !! i = Some v.
Proof.
  intros H. apply index_of_label_Some in H as [_ H].
  by rewrite Nat.sub_0_r in H.
Qed.

Lemma node_index_None (G : graphe) (v : gen) :
  node_index G v = None <-> v ∉ vertices G.
Proof. apply index_of_label_None. Qed.

Lemma vertices_add_node_fresh (G : graphe) (v : gen) :
  v ∉ vertices G -> vertices (add_node G v).1 = vertices G ++ [v].
Proof.
  intros Hv. apply node_index_None in Hv. unfold add_node. rewrite Hv.
  unfold vertices. simpl. by rewrite fmap_app.
Qed.

Lemma neighbor_map_add_node (G : graphe) (v : gen) (i : nat) :
  neighbor_map (add_node G v).1 i = neighbor_map G i.
Proof.
  unfold add_node. destruct (node_index G v); [reflexivity |].
  unfold neighbor_map. simpl.
  destruct (decide (i < length (nodes G))%nat) as [Hlt | Hge].
  - by rewrite lookup_app_l.
  - rewrite lookup_app_r by lia.
    rewrite (lookup_ge_None_2 (nodes G)) by lia.
    destruct (i - length (nodes G))%nat; reflexivity.
Qed.

Lemma has_edge_add_node (G : graphe) (v : gen) (i j : nat) :
  has_edge (add_node G v).1 i j = has_edge G i j.
Proof. unfold has_edge. by rewrite neighbor_map_add_node. Qed.

Lemma has_edge_add_nodes (V : vecteur) : forall G i j,
  has_edge (add_nodes G V) i j = has_edge G i j.
Proof.
  unfold add_nodes. induction V as [| v V IH]; intros G i j; [reflexivity |].
  simpl. by rewrite IH, has_edge_add_node.
Qed.

Lemma vertices_add_nodes (V : vecteur) : forall G,
  NoDup V -> (forall v, v ∈ V -> v ∉ vertices G) ->
  vertices (add_nodes G V) = vertices G ++ V.
Proof.
  unfold add_nodes. induction V as [| v V IH]; intros G Hnd Hfresh; simpl.
  - by rewrite app_nil_r.
  - apply NoDup_cons in Hnd as [Hv Hnd].
    assert (vertices (add_node G v).1 = vertices G ++ [v]) as Hstep.
    { apply vertices_add_node_fresh, Hfresh. left. }
    rewrite IH; [by rewrite Hstep, <- app_assoc | exact Hnd |].
    intros x Hx. rewrite Hstep. intros Hin.
    apply elem_of_app in Hin as [Hin | Hin].
    + by apply (Hfresh x); [right |].
    + apply list_elem_of_singleton in Hin as ->. by apply Hv.
Qed.

Lemma node_count_vertices (G : graphe) : node_count G = length (vertices G).
Proof. unfold node_count, vertices. by rewrite length_fmap. Qed.

Lemma node_index_add_node (G : graphe) (v : gen) :
  node_index (add_node G v).1 v = Some (add_node G v).2
  /\ ((add_node G v).2 < node_count (add_node G v).1)%nat.
Proof.
  unfold add_node. destruct (node_index G v) as [i |] eqn:Hi; simpl.
  - split; [exact Hi |]. by apply node_index_lt in Hi.
  - split.
    + unfold node_index in *. simpl.
      rewrite index_of_label_app_r by exact Hi. simpl.
      by rewrite gen_eqb_refl.
    + unfold node_count. simpl. rewrite length_app. simpl.
      generalize (length (nodes G)). intros; lia.
Qed.

Lemma node_index_add_node_old (G : graphe) (v x : gen) (i : nat) :
  node_index G x = Some i -> node_index (add_node G v).1 x = Some i.
Proof.
  intros H. unfold add_node. destruct (node_index G v); [exact H |].
  unfold node_index in *. simpl. by apply index_of_label_app_l.
Qed.

Lemma node_count_add_node (G : graphe) (v : gen) :
  (node_count G <= node_count (add_node G v).1)%nat.
Proof.
  unfold add_node. destruct (node_index G v); [done |].
  unfold node_count. simpl. rewrite length_app.
  generalize (length (nodes G)). intros; lia.
Qed.

Lemma vertices_add_edge (G : graphe) (a b : nat) (w : gen) :
  vertices (add_edge G a b w) = vertices G.
Proof. apply vertices_strip, strip_add_edge. Qed.

Lemma node_index_add_edge (G : graphe) (a b : nat) (w x : gen) :
  node_index (add_edge G a b w) x = node_index G x.
Proof. apply node_index_ext, vertices_add_edge. Qed.

Lemma symmetric_add_node (G : graphe) (v : gen) :
  symmetric G -> symmetric (add_node G v).1.
Proof. intros H i j. by rewrite !has_edge_add_node. Qed.

Lemma is_directed_add_node (G : graphe) (v : gen) :
  is_directed (add_node G v).1 = is_directed G.
Proof. apply is_directed_attributes, attributes_add_node. Qed.

(** An edge stays when another one is added. *)
Lemma has_edge_add_edge_mono (G : graphe) (a b : nat) (w : gen) (i j : nat) :
  has_edge G i j = true -> has_edge (add_edge G a b w) i j = true.
Proof.
  unfold has_edge. rewrite !bool_decide_eq_true, neighbor_map_add_edge.
  intros H. repeat (case_match; try done).
Qed.

(** The edge that [add_edge] is asked for is there afterwards. *)
Lemma has_edge_add_edge_new (G : graphe) (a b : nat) (w : gen) :
  (a < node_count G)%nat -> (b < node_count G)%nat ->
  has_edge (add_edge G a b w) a b = true.
Proof.
  intros Ha Hb. unfold has_edge at 1.
  rewrite bool_decide_eq_true, neighbor_map_add_edge.
  destruct (has_edge G a b) eqn:Hab.
  - unfold has_edge in Hab. by apply bool_decide_eq_true in Hab.
  - rewrite bool_decide_eq_true_2 by done.
    rewrite (bool_decide_eq_true_2 (a = a ∧ b = b)) by done.
    by destruct (_ && _).
Qed.

End AddNodes.

Section Trails.

Lemma joined_add_edge_labels_mono G v w weight a b :
  joined G a b -> joined (add_edge_labels G v w weight) a b.
Proof.
  intros (i & j & Hi & Hj & Hij). exists i, j. unfold add_edge_labels.
  destruct (add_node G v) as [G1 i1] eqn:H1.
  destruct (add_node G1 w) as [G2 j1] eqn:H2.
  assert (G1 = (add_node G v).1) as -> by (by rewrite H1).
  assert (G2 = (add_node (add_node G v).1 w).1) as -> by (by rewrite H2).
  rewrite !node_index_add_edge.
  split; [by do 2 apply node_index_add_node_old |].
  split; [by do 2 apply node_index_add_node_old |].
  apply has_edge_add_edge_mono. by rewrite !has_edge_add_node.
Qed.

Lemma joined_add_edge_labels G v w weight :
  joined (add_edge_labels G v w weight) v w.
Proof.
  unfold add_edge_labels.
  destruct (add_node G v) as [G1 i1] eqn:H1.
  destruct (add_node G1 w) as [G2 j1] eqn:H2.
  pose proof (node_index_add_node G v) as [Hv Hvlt].
  pose proof (node_index_add_node G1 w) as [Hw Hwlt].
  pose proof (node_count_add_node G1 w) as Hcount.
  rewrite H1 in Hv, Hvlt. rewrite H2 in Hw, Hwlt, Hcount. simpl in *.
  exists i1, j1. rewrite !node_index_add_edge.
  split; [| split; [exact Hw |]].
  - assert (G2 = (add_node G1 w).1) as -> by (by rewrite H2).
    by apply node_index_add_node_old.
  - apply has_edge_add_edge_new; lia.
Qed.

Lemma joined_add_edge_chain_mono (E : vecteur) : forall G a b,
  joined G a b -> joined (add_edge_chain G E) a b.
Proof.
  induction E as [| x E IH]; intros G a b H; [exact H |].
  destruct E as [| y E]; [exact H |].
  change (add_edge_chain G (x :: y :: E))
    with (add_edge_chain (add_edge_labels G x y (gen_int 1)) (y :: E)).
  by apply IH, joined_add_edge_labels_mono.
Qed.

Lemma joined_add_edge_chain (E : vecteur) : forall G k a b,
  E !! k = Some a -> E !! S k = Some b -> joined (add_edge_chain G E) a b.
Proof.
  induction E as [| x E IH]; intros G k a b Ha Hb; [discriminate |].
  destruct E as [| y E]; [discriminate |].
  change (add_edge_chain G (x :: y :: E))
    with (add_edge_chain (add_edge_labels G x y (gen_int 1)) (y :: E)).
  destruct k as [| k].
  - simpl in Ha, Hb. simplify_eq.
    apply joined_add_edge_chain_mono, joined_add_edge_labels.
  - by apply (IH _ k).
Qed.

(** The graph of a trail is undirected, with symmetric entries. *)
Lemma symmetric_add_edge_labels G v w weight :
  is_directed G = false -> symmetric G ->
  symmetric (add_edge_labels G v w weight).
Proof.
  intros Hd Hs. unfold add_edge_labels.
  destruct (add_node G v) as [G1 i1] eqn:H1.
  destruct (add_node G1 w) as [G2 j1] eqn:H2.
  assert (G1 = (add_node G v).1) as -> by (by rewrite H1).
  assert (G2 = (add_node (add_node G v).1 w).1) as -> by (by rewrite H2).
  apply symmetric_add_edge.
  - by rewrite !is_directed_add_node.
  - by do 2 apply symmetric_add_node.
Qed.

Lemma symmetric_add_edge_chain (E : vecteur) : forall G,
  is_directed G = false -> symmetric G -> symmetric (add_edge_chain G E).
Proof.
  induction E as [| x E IH]; intros G Hd Hs; [exact Hs |].
  destruct E as [| y E]; [exact Hs |].
  change (add_edge_chain G (x :: y :: E))
    with (add_edge_chain (add_edge_labels G x y (gen_int 1)) (y :: E)).
  apply IH.
  - by rewrite (is_directed_attributes _ _ (attributes_add_edge_labels _ _ _ _)).
  - by apply symmetric_add_edge_labels.
Qed.

End Trails.

(** X15. [graph] on a trail returns an undirected graph in which any
    two vertices that follow one another in the trail are vertices of the
    graph and are adjacent, in both directions. *)
Theorem graph_of_trail_joins_neighbours (contextptr : context) (trail : vecteur)
    (k : nat) (a b : gen) :
  trail !! k = Some a -> trail !! S k = Some b ->
  exists G i j,
    _graph contextptr (gen_trail trail) = of_graphe G
    /\ is_directed G = false
    /\ node_index G a = Some i /\ node_index G b = Some j
    /\ has_edge G i j = true /\ has_edge G j i = true.
Proof.
  intros Ha Hb. simpl. unfold parse_trail.
  destruct (joined_add_edge_chain trail new_graphe k a b Ha Hb)
    as (i & j & Hi & Hj & Hij).
  exists (add_edge_chain new_graphe trail), i, j.
  split; [reflexivity |].
  assert (symmetric new_graphe) as Hsym by (by intros ? ?).
  split; [by rewrite (is_directed_attributes _ _ (attributes_add_edge_chain _ _)) |].
  split; [exact Hi |]. split; [exact Hj |]. split; [exact Hij |].
  by rewrite <- (symmetric_add_edge_chain trail new_graphe eq_refl Hsym i j).
Qed.

Lemma graph_of_trail_joins_neighbours_witness :
  exists G i j,
    _graph xcas (gen_trail [gen_idnt "a"; gen_idnt "b"; gen_idnt "a"; gen_idnt "c"])
    = of_graphe G
    /\ node_index G (gen_idnt "a") = Some i /\ node_index G (gen_idnt "c") = Some j
    /\ has_edge G i j = true.
Proof.
  destruct (graph_of_trail_joins_neighbours xcas
              [gen_idnt "a"; gen_idnt "b"; gen_idnt "a"; gen_idnt "c"] 2
              (gen_idnt "a") (gen_idnt "c") eq_refl eq_refl)
    as (G & i & j & HG & _ & Hi & Hj & Hij & _).
  by exists G, i, j.
Defined.

(** ** Path graphs *)

Section NewVertices.

Variable contextptr : context.

Lemma NoDup_make_default_labels (n : nat) :
  NoDup (make_default_labels contextptr n).
Proof.
  unfold make_default_labels. apply NoDup_fmap_2; [| apply NoDup_seq].
  intros x y H. injection H. lia.
Qed.

Lemma length_make_default_labels (n : nat) :
  length (make_default_labels contextptr n) = n.
Proof. unfold make_default_labels. by rewrite length_fmap, length_seq. Qed.

Lemma vertices_new_nodes (V : vecteur) :
  NoDup V -> vertices (add_nodes new_graphe V) = V.
Proof.
  intros H. rewrite vertices_add_nodes; [reflexivity | exact H |].
  intros v _ Hin. by apply elem_of_nil in Hin.
Qed.

Lemma has_edge_new_graphe (i j : nat) : has_edge new_graphe i j = false.
Proof. apply has_edge_out_of_range. unfold node_count. simpl. lia. Qed.

Lemma has_edge_new_nodes (V : vecteur) (i j : nat) :
  has_edge (add_nodes new_graphe V) i j = false.
Proof. by rewrite has_edge_add_nodes, has_edge_new_graphe. Qed.

Lemma symmetric_new_nodes (V : vecteur) : symmetric (add_nodes new_graphe V).
Proof. intros i j. by rewrite !has_edge_new_nodes. Qed.

Lemma is_directed_new_nodes (V : vecteur) :
  is_directed (add_nodes new_graphe V) = false.
Proof. by rewrite (is_directed_attributes _ _ (attributes_add_nodes _ _)). Qed.

Lemma vertices_add_edges (U : graphe) (es : list (nat * nat)) :
  vertices (add_edges U es) = vertices U.
Proof. apply vertices_strip. by destruct (same_frame_add_edges U es). Qed.

End NewVertices.

Section PathGraph.

Variable contextptr : context.

Lemma path_graph_of_labels (g : gen) (V : vecteur) :
  vertices_from_integer_or_vecteur contextptr g new_graphe
  = Some (add_nodes new_graphe V) ->
  NoDup V -> (2 <= length V)%nat ->
  exists G, _path_graph contextptr g = of_graphe G
            /\ vertices G = V /\ is_directed G = false
            /\ forall i j, has_edge G i j = true <->
                           (i < length V)%nat /\ (j < length V)%nat
                           /\ (j = S i \/ i = S j).
Proof.
  intros Hg Hnd Hlen. unfold _path_graph. rewrite Hg.
  set (G0 := add_nodes new_graphe V).
  assert (node_count G0 = length V) as Hn.
  { unfold G0. by rewrite node_count_vertices, vertices_new_nodes. }
  rewrite Hn. rewrite bool_decide_eq_false_2 by lia.
  assert (fold_left (fun G i => add_edge G i (i + 1) (gen_int 1))
                    (seq 0 (length V - 1)) G0
          = add_edges G0 ((fun i => (i, i + 1)%nat) <$> seq 0 (length V - 1))) as ->.
  { unfold add_edges. by rewrite fold_left_fmap. }
  eexists. split; [reflexivity |]. split; [| split].
  - unfold G0. by rewrite vertices_add_edges, vertices_new_nodes.
  - unfold G0. by rewrite is_directed_add_edges, is_directed_new_nodes.
  - intros i j.
    rewrite has_edge_add_edges by (intros _; apply symmetric_new_nodes).
    unfold G0 at 1. rewrite has_edge_new_nodes, Hn.
    unfold G0. rewrite is_directed_new_nodes. split.
    + intros [H | (a & b & Hin & Ha & Hb & H)]; [discriminate |].
      apply list_elem_of_fmap in Hin as (x & Heq & Hx). simplify_eq.
      destruct H as [[-> ->] | (_ & -> & ->)]; (split; [lia |]); (split; [lia |]);
        [left | right]; lia.
    + intros (Hi & Hj & H). right.
      destruct H as [-> | ->].
      * exists i, (S i). split.
        { apply list_elem_of_fmap. exists i. split; [f_equal; lia |].
          apply elem_of_seq. lia. }
        split; [lia |]. split; [lia |]. by left.
      * exists j, (S j). split.
        { apply list_elem_of_fmap. exists j. split; [f_equal; lia |].
          apply elem_of_seq. lia. }
        split; [lia |]. split; [lia |]. by right.
Qed.

End PathGraph.

(** X13. [path_graph] on an integer n >= 2, or on a list of n >= 2
    distinct labels, returns an undirected graph with exactly these
    vertices (the default labels for an integer), in which the vertices
    of indices i and j are adjacent exactly when the indices are
    consecutive.  An integer less than 1 and the empty list are rejected
    with a type error, the integer 1 and a list of one label with a size
    error. *)
Theorem path_graph_edges (contextptr : context) :
  (forall (g : gen) (V : vecteur),
     (g = gen_int (Z.of_nat (length V))
      /\ V = make_default_labels contextptr (length V))
     \/ (exists st, g = gen_vect st V /\ NoDup V) ->
     (2 <= length V)%nat ->
     exists G, _path_graph contextptr g = of_graphe G
               /\ vertices G = V /\ is_directed G = false
               /\ forall i j, has_edge G i j = true <->
                              (i < length V)%nat /\ (j < length V)%nat
                              /\ (j = S i \/ i = S j))
  /\ (forall n, n < 1 -> _path_graph contextptr (gen_int n) = error gentypeerr)
  /\ _path_graph contextptr (gen_int 1) = error gensizeerr
  /\ (forall st, _path_graph contextptr (gen_vect st []) = error gentypeerr)
  /\ (forall st v, _path_graph contextptr (gen_vect st [v]) = error gensizeerr).
Proof.
  split; [| split; [| split; [| split]]].
  - intros g V Hg Hlen. apply path_graph_of_labels; [| | exact Hlen].
    + destruct Hg as [[-> HV] | (st & -> & _)]; simpl.
      * rewrite bool_decide_eq_false_2 by lia. by rewrite Nat2Z.id, <- HV.
      * rewrite bool_decide_eq_false_2; [reflexivity |].
        intros ->. simpl in Hlen. lia.
    + destruct Hg as [[_ ->] | (st & _ & Hnd)];
        [apply NoDup_make_default_labels | exact Hnd].
  - intros n Hn. unfold _path_graph. simpl.
    by rewrite bool_decide_eq_true_2 by exact Hn.
  - destruct contextptr as [[|]]; reflexivity.
  - reflexivity.
  - intros st v. unfold _path_graph. simpl.
    unfold add_nodes. simpl. reflexivity.
Qed.

Lemma path_graph_edges_witness :
  exists G, _path_graph xcas (gen_int 4) = of_graphe G
            /\ has_edge G 2 3 = true /\ has_edge G 0 2 = false.
Proof.
  destruct (proj1 (path_graph_edges xcas) (gen_int 4)
              (make_default_labels xcas 4)) as (G & HG & _ & _ & Hedges).
  - left. split; reflexivity.
  - simpl. lia.
  - exists G. split; [exact HG |]. split.
    + apply Hedges. simpl. lia.
    + apply not_true_iff_false. intros H. apply Hedges in H. lia.
Defined.

(** ** Seidel switching *)

Lemma fold_left_ext_in {A B : Type} (f g : A -> B -> A) (l : list B) :
  (forall a x, x ∈ l -> f a x = g a x) ->
  forall a, fold_left f l a = fold_left g l a.
Proof.
  induction l as [| x l IH]; intros H a; [reflexivity |].
  simpl. rewrite H by left. apply IH. intros a' y Hy. apply H. by right.
Qed.

Section SeidelSwitch.

(** The marks [vb] of [_seidel_switch]: [vb[i]] tells whether the vertex
    [i] is one of [indices]. *)
Lemma seidel_marks (indices : list nat) : forall (vb : list bool) (i : nat),
  (i < length vb)%nat ->
  default false (fold_left (fun vb index => <[index := true]> vb) indices vb !! i)
  = bool_decide (i ∈ indices) || default false (vb !! i).
Proof.
  induction indices as [| x indices IH]; intros vb i Hi.
  - rewrite bool_decide_eq_false_2; [reflexivity |]. apply not_elem_of_nil.
  - simpl fold_left. rewrite IH by (by rewrite length_insert).
    destruct (decide (x = i)) as [-> | Hne].
    + rewrite list_lookup_insert_eq by exact Hi. simpl.
      rewrite (bool_decide_eq_true_2 (i ∈ i :: indices)) by left.
      by rewrite orb_true_r.
    + rewrite list_lookup_insert_ne by exact Hne.
      f_equal. apply bool_decide_ext. rewrite elem_of_cons.
      split; [by right | by intros [-> | ?]].
Qed.

Variable G : graphe.
Variable indices : list nat.

Hypothesis undirected : is_directed G = false.
Hypothesis unweighted : is_weighted G = false.
Hypothesis symmetric_G : symmetric G.
Hypothesis distinct_labels : NoDup (vertices G).

Lemma seidel_switch_spec (st : vect_subtype) (V : vecteur) :
  mapM (node_index G) V = Some indices ->
  exists H, _seidel_switch (of_graphe G) (gen_vect st V) = of_graphe H
            /\ vertices H = vertices G
            /\ is_directed H = false /\ is_weighted H = false
            /\ symmetric H
            /\ forall i j, has_edge H i j = true <->
                           (i < node_count G)%nat /\ (j < node_count G)%nat
                           /\ i ≠ j /\ switched G indices i j = true.
Proof.
  intros Hmap. unfold _seidel_switch. rewrite undirected, unweighted, Hmap.
  set (n := node_count G).
  set (vb := fold_left (fun vb index => <[index := true]> vb) indices
                       (replicate n false)).
  set (H0 := add_nodes new_graphe (vertices G)).
  assert (forall i, (i < n)%nat ->
                    default false (vb !! i) = bool_decide (i ∈ indices)) as Hvb.
  { intros i Hi. unfold vb. rewrite seidel_marks by (by rewrite length_replicate).
    rewrite lookup_replicate_2 by exact Hi. simpl. by rewrite orb_false_r. }
  assert (node_count H0 = n) as Hn0.
  { unfold H0, n.
    by rewrite !node_count_vertices, vertices_new_nodes by exact distinct_labels. }
  match goal with
  | |- context [fold_left ?f (seq 0 n) H0] =>
      assert (fold_left f (seq 0 n) H0
              = add_edges H0
                  (filter (fun e : nat * nat => switched G indices e.1 e.2 = true)
                          (pairs_of n (fun i => seq (i + 1) (n - (i + 1)))))) as ->
  end.
  { unfold add_edges, pairs_of.
    rewrite fold_left_filter, fold_left_bind.
    apply fold_left_ext_in. intros U i Hi. rewrite fold_left_fmap.
    apply fold_left_ext_in. intros C j Hj.
    apply elem_of_seq in Hi, Hj. simpl.
    rewrite !Hvb by lia. unfold switched.
    destruct (has_edge G i j), (bool_decide (i ∈ indices)),
      (bool_decide (j ∈ indices)); reflexivity. }
  eexists. split; [reflexivity |].
  assert (forall i j,
            has_edge
              (add_edges H0
                 (filter (fun e : nat * nat => switched G indices e.1 e.2 = true)
                         (pairs_of n (fun i => seq (i + 1) (n - (i + 1)))))) i j
            = true <->
            (i < n)%nat /\ (j < n)%nat /\ i ≠ j /\ switched G indices i j = true) as Hedges.
  { intros i j.
    rewrite has_edge_add_edges by (intros _; apply symmetric_new_nodes).
    unfold H0 at 1. rewrite has_edge_new_nodes, Hn0.
    unfold H0. rewrite is_directed_new_nodes.
    assert (forall x y, switched G indices x y = switched G indices y x) as Hsw.
    { intros x y. unfold switched. rewrite (symmetric_G x y).
      by rewrite (xorb_comm (bool_decide (x ∈ indices))). }
    split.
    - intros [Hf | (a & b & Hin & Ha & Hb & Hij)]; [discriminate |].
      apply list_elem_of_filter in Hin as [Hsw' Hin]. simpl in Hsw'.
      apply elem_of_pairs_of in Hin as [_ Hin]. apply elem_of_seq in Hin.
      destruct Hij as [[-> ->] | (_ & -> & ->)].
      + repeat split; [lia | lia | lia | exact Hsw'].
      + repeat split; [lia | lia | lia | by rewrite Hsw].
    - intros (Hi & Hj & Hne & Hsw'). right.
      destruct (decide (i < j)%nat) as [Hlt | Hge].
      + exists i, j. split.
        { apply list_elem_of_filter. split; [exact Hsw' |].
          apply elem_of_pairs_of. split; [lia |]. apply elem_of_seq. lia. }
        split; [lia |]. split; [lia |]. by left.
      + exists j, i. split.
        { apply list_elem_of_filter. split; [by rewrite Hsw |].
          apply elem_of_pairs_of. split; [lia |]. apply elem_of_seq. lia. }
        split; [lia |]. split; [lia |]. by right. }
  split; [| split; [| split; [| split]]].
  - unfold H0. by rewrite vertices_add_edges, vertices_new_nodes.
  - unfold H0. by rewrite is_directed_add_edges, is_directed_new_nodes.
  - unfold is_weighted.
    destruct (same_frame_add_edges H0
                (filter (fun e : nat * nat => switched G indices e.1 e.2 = true)
                        (pairs_of n (fun i => seq (i + 1) (n - (i + 1))))))
      as [_ _ -> _].
    unfold H0. by rewrite attributes_add_nodes.
  - apply symmetric_add_edges; [apply is_directed_new_nodes |].
    apply symmetric_new_nodes.
  - exact Hedges.
Qed.

End SeidelSwitch.

(** X14. Let G be undirected, unweighted, with distinct labels and a
    symmetric adjacency, and let V be a list of vertices of G.
    [seidel_switch] returns a graph H with the vertices of G in which two
    distinct vertices are adjacent exactly when they are adjacent in G
    and lie on the same side of V, or are not adjacent in G and lie on
    different sides.  Switching H again with respect to V gives back the
    adjacency of G between distinct vertices; loops are not kept. *)
Theorem seidel_switch_twice (G : graphe) (st : vect_subtype) (V : vecteur)
    (indices : list nat) :
  is_directed G = false -> is_weighted G = false ->
  symmetric G -> NoDup (vertices G) ->
  mapM (node_index G) V = Some indices ->
  exists H H2,
    _seidel_switch (of_graphe G) (gen_vect st V) = of_graphe H
    /\ _seidel_switch (of_graphe H) (gen_vect st V) = of_graphe H2
    /\ vertices H = vertices G /\ vertices H2 = vertices G
    /\ (forall i j, has_edge H i j = true <->
                    (i < node_count G)%nat /\ (j < node_count G)%nat
                    /\ i ≠ j /\ switched G indices i j = true)
    /\ (forall i j, i ≠ j -> has_edge H2 i j = has_edge G i j)
    /\ (forall i, has_edge H2 i i = false).
Proof.
  intros Hd Hw Hsym Hnd Hmap.
  destruct (seidel_switch_spec G indices Hd Hw Hsym Hnd st V Hmap)
    as (H & HH & Hv & Hd' & Hw' & Hsym' & Hedges).
  assert (mapM (node_index H) V = Some indices) as Hmap'.
  { rewrite <- Hmap. apply mapM_ext. intros x. by apply node_index_ext. }
  assert (NoDup (vertices H)) as Hnd' by (by rewrite Hv).
  destruct (seidel_switch_spec H indices Hd' Hw' Hsym' Hnd' st V Hmap')
    as (H2 & HH2 & Hv2 & _ & _ & _ & Hedges2).
  assert (node_count H = node_count G) as Hn.
  { by rewrite !node_count_vertices, Hv. }
  exists H, H2. split; [exact HH |]. split; [exact HH2 |].
  split; [exact Hv |]. split; [by rewrite Hv2 |]. split; [exact Hedges |].
  split.
  - intros i j Hne. apply eq_true_iff_eq. rewrite Hedges2, Hn. split.
    + intros (Hi & Hj & _ & Hsw). unfold switched in Hsw.
      destruct (has_edge H i j) eqn:HH'.
      * apply Hedges in HH' as (_ & _ & _ & Hsw'). unfold switched in Hsw'.
        destruct (has_edge G i j); [reflexivity |].
        destruct (bool_decide (i ∈ indices)), (bool_decide (j ∈ indices));
          discriminate.
      * destruct (has_edge G i j) eqn:HG; [reflexivity |].
        assert (has_edge H i j = true) as Hc; [| congruence].
        apply Hedges. repeat split; try done. unfold switched. rewrite HG.
        destruct (bool_decide (i ∈ indices)), (bool_decide (j ∈ indices));
          done.
    + intros HG.
      assert ((i < node_count G)%nat /\ (j < node_count G)%nat) as [Hi Hj].
      { split; [by apply (has_edge_in_range G i j) |].
        apply (has_edge_in_range G j i). by rewrite (Hsym j i). }
      repeat split; try done. unfold switched.
      destruct (has_edge H i j) eqn:HH'.
      * apply Hedges in HH' as (_ & _ & _ & Hsw'). unfold switched in Hsw'.
        rewrite HG in Hsw'.
        destruct (bool_decide (i ∈ indices)), (bool_decide (j ∈ indices));
          done.
      * destruct (xorb (bool_decide (i ∈ indices)) (bool_decide (j ∈ indices)))
          eqn:Hx; [reflexivity |].
        assert (has_edge H i j = true) as Hc; [| congruence].
        apply Hedges. repeat split; try done. unfold switched.
        by rewrite HG, Hx.
  - intros i. apply not_true_iff_false. intros Hii.
    apply Hedges2 in Hii as (_ & _ & Hne & _). done.
Qed.

Lemma seidel_switch_twice_witness :
  exists H H2,
    _seidel_switch (of_graphe path_3) (gen_vect _LIST__VECT [gen_int 1])
    = of_graphe H
    /\ _seidel_switch (of_graphe H) (gen_vect _LIST__VECT [gen_int 1])
       = of_graphe H2
    /\ has_edge H 0 2 = false /\ has_edge H2 0 1 = true.
Proof.
  destruct (seidel_switch_twice path_3 _LIST__VECT [gen_int 1] [1%nat])
    as (H & H2 & HH & HH2 & _ & _ & Hedges & Hback & _);
    try reflexivity.
  - unfold path_3. apply symmetric_add_edge; [reflexivity |].
    apply symmetric_add_edge; [reflexivity |]. apply symmetric_new_nodes.
  - change (NoDup (gen_int <$> [0; 1; 2])).
    apply NoDup_fmap_2; [by intros x y [= ->] |].
    apply (bool_decide_unpack _). by vm_compute.
  - exists H, H2. split; [exact HH |]. split; [exact HH2 |]. split.
    + apply not_true_iff_false. intros Hc. apply Hedges in Hc as (_ & _ & _ & Hc).
      vm_compute in Hc. discriminate.
    + rewrite Hback by lia. reflexivity.
Defined.

(** ** Construction from a matrix: the adjacency *)

Section MatrixEdges.

Variable contextptr : context.

Lemma vecteur_eqb_eq (l1 : vecteur) : forall l2,
  vecteur_eqb l1 l2 = true -> l1 = l2.
Proof.
  induction l1 as [| x l1 IH]; intros [| y l2] H; try discriminate; [reflexivity |].
  simpl in H. apply andb_true_iff in H as [Hx Hl].
  f_equal; [by apply gen_eqb_eq | by apply IH].
Qed.

Lemma mat_entry_mtran (m : matrice) (i j : nat) :
  (i < length (row_of (default (gen_int 0) (head m))))%nat ->
  (j < length m)%nat ->
  mat_entry (mtran m) i j = mat_entry m j i.
Proof.
  intros Hi Hj. unfold mat_entry at 1. unfold mtran. cbv zeta.
  unfold matrice, vecteur.
  rewrite list_lookup_fmap, lookup_seq_lt by exact Hi. simpl.
  rewrite list_lookup_fmap, lookup_seq_lt by exact Hj. reflexivity.
Qed.

Lemma mat_entry_symmetric (m : matrice) (i j : nat) :
  length (row_of (default (gen_int 0) (head m))) = length m ->
  vecteur_eqb m (mtran m) = true ->
  (i < length m)%nat -> (j < length m)%nat ->
  mat_entry m i j = mat_entry m j i.
Proof.
  intros Hsq Hsym Hi Hj. apply vecteur_eqb_eq in Hsym.
  rewrite Hsym at 1. apply mat_entry_mtran; [by rewrite Hsq | exact Hj].
Qed.

Lemma fold_left_fst {A B C : Type} (f' : A * B -> C -> A * B) (f : A -> C -> A)
    (l : list C) :
  (forall a b x, (f' (a, b) x).1 = f a x) ->
  forall p, (fold_left f' l p).1 = fold_left f l p.1.
Proof.
  intros H. induction l as [| x l IH]; intros [a b]; [reflexivity |].
  simpl. rewrite IH. f_equal. apply H.
Qed.

(** The edges that the two loops of [parse_matrix] add: one for every
    non-zero entry they visit. *)
Lemma matrix_rows_add_edges (m : matrice) (first : nat -> nat) (n : nat)
    (p : graphe * bool) :
  (fold_left
     (fun '(G, isweighted) i =>
        fold_left
          (fun '(G, isweighted) j =>
             let w := mat_entry m i j in
             if negb (is_zero w)
             then (add_edge G i j (gen_int 1),
                   if negb (is_one w) then true else isweighted)
             else (G, isweighted))
          (seq (first i) (n - first i)) (G, isweighted))
     (seq 0 n) p).1
  = add_edges p.1
      (filter (fun e : nat * nat => is_zero (mat_entry m e.1 e.2) = false)
              (pairs_of n (fun i => seq (first i) (n - first i)))).
Proof.
  unfold add_edges, pairs_of.
  rewrite fold_left_filter, fold_left_bind.
  rewrite (fold_left_fst _
             (fun G i => fold_left
                (fun G e => if bool_decide (is_zero (mat_entry m e.1 e.2) = false)
                            then add_edge G e.1 e.2 (gen_int 1) else G)
                ((fun j => (i, j)) <$> seq (first i) (n - first i)) G)).
  { reflexivity. }
  intros G w i. rewrite fold_left_fmap.
  rewrite (fold_left_fst _
             (fun G j => if bool_decide (is_zero (mat_entry m i j) = false)
                         then add_edge G i j (gen_int 1) else G)).
  { reflexivity. }
  intros G' w' j. simpl.
  destruct (is_zero (mat_entry m i j)); reflexivity.
Qed.

Lemma has_edge_make_weighted (G : graphe) (m : matrice) (i j : nat) :
  has_edge (make_weighted G m) i j = has_edge G i j.
Proof.
  unfold has_edge, neighbor_map, make_weighted. simpl.
  rewrite list_lookup_imap.
  destruct (nodes G !! i) as [x |]; simpl; [| reflexivity].
  apply bool_decide_ext. rewrite map_lookup_imap.
  destruct (m_neighbor_attributes x !! j); simpl; split; intros [? ?]; by eexists.
Qed.

Lemma node_count_make_weighted (G : graphe) (m : matrice) :
  node_count (make_weighted G m) = node_count G.
Proof. unfold node_count, make_weighted. simpl. apply length_imap. Qed.

Lemma symmetric_set_directed (G : graphe) (b : bool) :
  symmetric G -> symmetric (set_directed G b).
Proof. intros H i j. apply (H i j). Qed.

End MatrixEdges.

(** X18. [graph] on a square matrix of numbers with more than two rows,
    given as the only argument, returns a graph with one vertex for each
    row, directed exactly when the matrix is not symmetric.  In the
    directed case there is an arc from i to j exactly when the entry
    (i,j) is not zero; in the undirected case i and j are adjacent
    exactly when they differ and the entry (i,j) is not zero. *)
Theorem graph_of_matrix_adjacency (contextptr : context) (st : vect_subtype)
    (m : matrice) :
  is_squarematrix (gen_vect st m) = true ->
  (2 < length m)%nat ->
  has_num_coeff m = true ->
  exists G,
    _graph contextptr (gen_vect st m) = of_graphe G
    /\ node_count G = length m
    /\ is_directed G = negb (vecteur_eqb m (mtran m))
    /\ forall i j, (i < length m)%nat -> (j < length m)%nat ->
         has_edge G i j
         = if is_directed G then negb (is_zero (mat_entry m i j))
           else bool_decide (i ≠ j) && negb (is_zero (mat_entry m i j)).
Proof.
  intros Hsq Hlen Hnum. unfold _graph. rewrite Hsq.
  rewrite (bool_decide_eq_true_2 (2 < length m)%nat) by exact Hlen.
  simpl andb. cbv iota.
  apply is_squarematrix_front in Hsq.
  unfold parse_matrix.
  rewrite (bool_decide_eq_false_2 (_ ≠ _)) by (intros Hne; by apply Hne).
  rewrite (bool_decide_eq_false_2 (0 < 0)%nat) by lia.
  rewrite Hnum. change (is_directed new_graphe) with false.
  simpl negb. simpl orb. cbv iota.
  rewrite (bool_decide_eq_true_2 (0%nat = 0%nat)) by reflexivity.
  rewrite (bool_decide_eq_true_2 (0 < 2)%nat) by lia.
  set (isdir := negb (vecteur_eqb m (mtran m))).
  set (n := length m).
  set (G1 := add_nodes new_graphe (make_default_labels contextptr n)).
  set (first := fun i : nat => if isdir then 0%nat else (i + 1)%nat).
  pose proof (matrix_rows_add_edges m first n (set_directed G1 isdir, false))
    as Hrows.
  change (fun i : nat => seq (first i) (n - first i))
    with (fun i : nat => seq (if isdir then 0 else i + 1)%nat
                             (n - (if isdir then 0 else i + 1))%nat) in Hrows.
  destruct (fold_left _ (seq 0 n) (set_directed G1 isdir, false))
    as [G2 isweighted] eqn:Hfold.
  simpl in Hrows.
  assert (node_count G1 = n) as Hn1.
  { unfold G1. rewrite node_count_vertices, vertices_new_nodes
      by apply NoDup_make_default_labels.
    apply length_make_default_labels. }
  assert (symmetric (set_directed G1 isdir)) as Hsym1.
  { apply symmetric_set_directed, symmetric_new_nodes. }
  assert (node_count G2 = n /\ is_directed G2 = isdir
          /\ forall i j, (i < n)%nat -> (j < n)%nat ->
               has_edge G2 i j
               = if isdir then negb (is_zero (mat_entry m i j))
                 else bool_decide (i ≠ j) && negb (is_zero (mat_entry m i j)))
    as (Hn2 & Hd2 & Hedges2).
  { rewrite Hrows.
    destruct (same_frame_add_edges (set_directed G1 isdir)
                (filter (fun e : nat * nat => is_zero (mat_entry m e.1 e.2) = false)
                   (pairs_of n (fun i => seq (if isdir then 0 else i + 1)%nat
                                   (n - (if isdir then 0 else i + 1))%nat))))
      as [Hc _ Ha _].
    split; [by rewrite Hc |].
    split; [by rewrite (is_directed_attributes _ _ Ha), is_directed_set_directed |].
    intros i j Hi Hj. apply eq_true_iff_eq.
    rewrite has_edge_add_edges by (intros _; exact Hsym1).
    rewrite is_directed_set_directed.
    assert (has_edge (set_directed G1 isdir) i j = false) as ->
        by apply has_edge_new_nodes.
    assert (node_count (set_directed G1 isdir) = n) as -> by exact Hn1.
    destruct isdir eqn:Hisdir.
    - rewrite negb_true_iff. split.
      + intros [Hf | (a & b & Hin & _ & _ & [[-> ->] | [Hf _]])]; try discriminate.
        by apply list_elem_of_filter in Hin as [Hnz _].
      + intros Hnz. right. exists i, j. split.
        { apply list_elem_of_filter. split; [exact Hnz |].
          apply elem_of_pairs_of. split; [lia |]. apply elem_of_seq. lia. }
        split; [lia |]. split; [lia |]. by left.
    - assert (vecteur_eqb m (mtran m) = true) as Hm.
      { unfold isdir in Hisdir. by apply negb_false_iff in Hisdir. }
      rewrite andb_true_iff, bool_decide_eq_true, negb_true_iff. split.
      + intros [Hf | (a & b & Hin & _ & _ & Hij)]; [discriminate |].
        apply list_elem_of_filter in Hin as [Hnz Hin]. simpl in Hnz.
        apply elem_of_pairs_of in Hin as [Han Hin]. apply elem_of_seq in Hin.
        destruct Hij as [[-> ->] | (_ & -> & ->)].
        * split; [lia | exact Hnz].
        * split; [lia |].
          by rewrite (mat_entry_symmetric m b a Hsq Hm) by (unfold n in *; lia).
      + intros [Hne Hnz]. right.
        destruct (decide (i < j)%nat) as [Hlt | Hge].
        * exists i, j. split.
          { apply list_elem_of_filter. split; [exact Hnz |].
            apply elem_of_pairs_of. split; [lia |]. apply elem_of_seq. lia. }
          split; [lia |]. split; [lia |]. by left.
        * exists j, i. split.
          { apply list_elem_of_filter. split.
            - simpl. by rewrite (mat_entry_symmetric m j i Hsq Hm)
                by (unfold n in *; lia).
            - apply elem_of_pairs_of. split; [lia |]. apply elem_of_seq. lia. }
          split; [lia |]. split; [lia |]. by right. }
  destruct isweighted; eexists; (split; [reflexivity |]).
  - rewrite node_count_make_weighted, is_directed_make_weighted.
    split; [exact Hn2 |]. split; [exact Hd2 |].
    intros i j Hi Hj. rewrite has_edge_make_weighted, Hd2. by apply Hedges2.
  - split; [exact Hn2 |]. split; [exact Hd2 |].
    intros i j Hi Hj. rewrite Hd2. by apply Hedges2.
Qed.

Lemma graph_of_matrix_adjacency_witness :
  exists G, _graph xcas scenario_matrix = of_graphe G
            /\ has_edge G 1 3 = true /\ has_edge G 2 3 = false.
Proof.
  destruct (graph_of_matrix_adjacency xcas _LIST__VECT
              [gen_vect _LIST__VECT [gen_int 0; gen_int 1; gen_int 1; gen_int 0];
               gen_vect _LIST__VECT [gen_int 1; gen_int 0; gen_int 0; gen_int 1];
               gen_vect _LIST__VECT [gen_int 1; gen_int 0; gen_int 0; gen_int 0];
               gen_vect _LIST__VECT [gen_int 0; gen_int 1; gen_int 0; gen_int 0]])
    as (G & HG & _ & Hd & Hedges); [reflexivity | simpl; lia | reflexivity |].
  exists G. split; [exact HG |].
  rewrite !Hedges by (simpl; lia). rewrite Hd. split; reflexivity.
Defined.

(** ** Subdivision of edges *)

Section NewLabels.






Variable remove_edge : graphe -> nat -> nat -> graphe.

Hypothesis vertices_remove_edge :
  forall G i j, vertices (remove_edge G i j) = vertices G.


End NewLabels.


